(** * spuq: the EGSZ adaptive stochastic Galerkin solver

    A shallow embedding of the parts of [spuq] that the specification talks
    about: the multi-index arithmetic, the stochastic Galerkin operator
    ([multi_operator.py], [multi_operator2.py]), the adaptive refinement loop
    ([adaptive_solver.py]), the projection-error indicator
    ([residual_estimator.py]) and the recurrence coefficients of the
    orthogonal polynomials ([polyquad/_polynomials.py]).

    Conventions.
    - Python objects that the code mutates and shares ([MultiVector]s) live in
      a store; a program is a function from the store to a result or a raised
      exception.
    - The FEM backend (assembly, projection, meshes) is an interface: a type
      class whose operations are total.  Failures of the backend propagate
      through the Python code unchanged and are not part of this development.
    - Python floats are read as exact rationals.

    The first part of the file holds the definitions, the second part the
    lemmas and theorems about them. *)

From Stdlib Require Import QArith Qround Qabs Lqa.
From stdpp Require Import gmap list strings fin_maps.

Set Default Proof Using "Type".
Local Open Scope nat_scope.

(* ===================================================================== *)
(** * Python results *)

Inductive PyError : Set :=
| IndexError      (* sequence index out of range *)
| KeyError        (* missing dictionary key *)
| ValueError      (* min() or max() of an empty sequence *)
| ZeroDivisionError
| AssertionError
| TypeError       (* an operation on a value of the wrong type *)
| DanglingRef.    (* a reference that was never allocated: no Python counterpart *)

Inductive Result (A : Type) : Type :=
| Ok (a : A)
| Raise (e : PyError).
Arguments Ok {A} a.
Arguments Raise {A} e.

Definition is_ok {A} (r : Result A) : bool :=
  match r with Ok _ => true | Raise _ => false end.

(* ===================================================================== *)
(** * Multi-indices *)

Module Multiindex.

(** Modelled from the spec: class [Multiindex] of
    [spuq.math_utils.multiindex], which is imported but not part of the
    sources at hand.  The specification describes it as "a finite-support
    mapping from dimension index (natural number) to a non-negative integer
    degree; equality/ordering by support+degrees; supports increment(dim),
    decrement(dim) (fails if resulting degree would be negative)".

    A multi-index is kept as the finite map of its support: dimension [m]
    is a key exactly when its degree is nonzero, so that two multi-indices
    are equal exactly when they have the same support and degrees. *)
Abbreviation t := (gmap nat positive).

(** The zero multi-index, [Multiindex()]. *)
Definition zero : t := ∅.

(** [mu[m]]: the degree in dimension [m], zero outside the support. *)
Definition getitem (mu : t) (m : nat) : nat :=
  match mu !! m with
  | Some d => Pos.to_nat d
  | None => 0
  end.

(** Modelled from the spec: [mu.inc(m)], the degree of dimension [m] raised
    by one. *)
Definition inc (mu : t) (m : nat) : t :=
  <[ m := Pos.of_succ_nat (getitem mu m) ]> mu.

(** Modelled from the spec: [mu.dec(m)], the degree of dimension [m] lowered
    by one; it "fails if resulting degree would be negative".  The failure
    is the result [None]: the operator code calls [mu.dec(m)] for every
    dimension without a guard and hands the outcome to [in Lambda], where a
    failed decrement is a member of no active set. *)
Definition dec (mu : t) (m : nat) : option t :=
  match getitem mu m with
  | 0 => None
  | 1 => Some (delete m mu)
  | S (S d) => Some (<[ m := Pos.of_succ_nat d ]> mu)
  end.

(** [len(mu)]: the number of dimensions up to the last one of the
    support. *)
Definition len (mu : t) : nat :=
  max_list ((λ kv : nat * positive, S kv.1) <$> map_to_list mu).

(** [x in Lambda] for the outcome [x] of an increment or a decrement. *)
Definition opt_in (x : option t) (Lambda : list t) : bool :=
  match x with
  | Some nu => bool_decide (nu ∈ Lambda)
  | None => false
  end.

End Multiindex.

(* ===================================================================== *)
(** * The FEM backend and the coefficient field *)

(** The operations the operator code consumes from the discretisation:
    vectors with a basis, scalar multiples and sums of vectors, operators
    applied to vectors, projections between bases, meshes. *)
Class Backend : Type := {
  Scalar : Type;
  Vec : Type;
  Basis : Type;
  Mesh : Type;
  JointMesh : Type;            (* what [create_joint_mesh] returns *)
  Op : Type;
  CoefFun : Type;
  RV : Type;
  int_zero : Scalar;                          (* the literal [0] *)
  sneg : Scalar → Scalar;                     (* [-c] *)
  vscale : Scalar → Vec → Vec;                (* [c * x] *)
  vadd : Vec → Vec → Vec;                     (* [x += y] *)
  op_apply : Op → Vec → Vec;                  (* [A * x] *)
  vec_basis : Vec → Basis;                    (* [x.basis] *)
  project_onto : Basis → Vec → Vec;           (* [V.project_onto(x)] *)
  has_mesh : Basis → bool;                    (* [hasattr(V, "mesh")] *)
  basis_mesh : Basis → Mesh;                  (* [V.mesh] *)
  create_joint_mesh : list Mesh → JointMesh;
  joint_mesh_fst : JointMesh → Mesh;          (* [mesh, _ = create_joint_mesh(..)] *)
  basis_copy : Basis → Mesh → Basis;          (* [V.copy(mesh=mesh)] *)
  basis_copy_joint : Basis → JointMesh → Basis;
(* [V.copy(mesh=r)] with [r] the whole result of [create_joint_mesh] *)
get_beta : RV → nat → Scalar * Scalar * Scalar;
(* [rv.orth_polys.get_beta(n)]: [(beta[0], beta[1], beta[-1])] *)
}.

Section Egsz.
Context `{B : Backend}.

(** The two positional arguments handed to an assembly callable. *)
Inductive Arg : Type :=
| ABasis (V : Basis)
| ACoef (f : CoefFun).

Definition Assembler : Type := Arg → Arg → Op.

(** [CoefficientField]: the mean and the ordered sequence of pairs
    [(a_m, rv_m)]. *)
Record CoefficientField : Type := {
  mean_func : CoefFun;
  cf_terms : list (CoefFun * RV);
}.

Definition cf_len (cf : CoefficientField) : nat := length (cf_terms cf).

(* ------------------------------------------------------------------- *)
(** ** MultiVector objects in the store *)

(** A [MultiVector] is the dictionary from multi-indices to components. *)
Abbreviation MultiVector := (gmap Multiindex.t Vec).

(** Modelled from the spec: [MultiVector.active_indices()], "the active
    index set Λ = the key set", as the list of keys. *)
Definition active_indices (W : MultiVector) : list Multiindex.t :=
  (map_to_list W).*1.

(** Modelled from the spec: [MultiVector.max_order], "the highest dimension
    index appearing with nonzero degree across Λ", counted so that
    [range(max_order)] visits every such dimension; 0 when no active index
    has a nonzero degree. *)
Definition max_order (W : MultiVector) : nat :=
  max_list (Multiindex.len <$> active_indices W).

Definition loc : Type := nat.

Inductive LogRecord : Type :=
| Warn_insufficient_length (len maxm : nat)
(* "insufficient length of coefficient field for MultiVector (%i instead of %i" *)
| Debug_apply_joint (mu : Multiindex.t) (mus : list Multiindex.t)
(* "apply on mu = %s with joint mesh for %s" *)
| Debug_apply_on (mu : Multiindex.t)       (* "apply on mu = %s" *)
| Debug_with_m (m : nat)                   (* "with m = %i" *)
| Debug_with_m_mu (m : nat) (mu : Multiindex.t).  (* "with m = %i (mu = %s)" *)

Definition is_warning (r : LogRecord) : bool :=
  match r with Warn_insufficient_length _ _ => true | _ => false end.

Record Store : Type := {
  heap : gmap loc MultiVector;
  log : list LogRecord;
}.

(** Programs over the store that may raise. *)
Definition M (A : Type) : Type := Store → Result (A * Store).

Definition ret {A} (a : A) : M A := λ s, Ok (a, s).

Definition bind {A C} (c : M A) (k : A → M C) : M C :=
  λ s, match c s with
       | Ok (a, s') => k a s'
       | Raise e => Raise e
       end.

Definition raise {A} (e : PyError) : M A := λ _, Raise e.

Definition emit (rs : list LogRecord) (s : Store) : Store :=
  {| heap := heap s; log := log s ++ rs |}.

Definition logger (r : LogRecord) : M unit := λ s, Ok (tt, emit [r] s).

Definition deref (w : loc) : M MultiVector :=
  λ s, match heap s !! w with
       | Some W => Ok (W, s)
       | None => Raise DanglingRef
       end.

(** [w[mu]] *)
Definition mv_getitem (w : loc) (mu : Multiindex.t) : M Vec :=
  bind (deref w) (λ W,
    match W !! mu with
    | Some x => ret x
    | None => raise KeyError
    end).

(** [v[mu] = x] *)
Definition mv_setitem (v : loc) (mu : Multiindex.t) (x : Vec) : M unit :=
  λ s, match heap s !! v with
       | Some V => Ok (tt, {| heap := <[ v := <[ mu := x ]> V ]> (heap s);
                              log := log s |})
       | None => Raise DanglingRef
       end.

(** [w.active_indices()] *)
Definition mv_active_indices (w : loc) : M (list Multiindex.t) :=
  bind (deref w) (λ W, ret (active_indices W)).

(** [w.max_order] *)
Definition mv_max_order (w : loc) : M nat :=
  bind (deref w) (λ W, ret (max_order W)).

(** Modelled from the spec: [c * w], the "elementwise scalar multiply" of a
    MultiVector, which gives a new MultiVector object with the same keys. *)
Definition mv_rmul (c : Scalar) (w : loc) : M loc :=
  λ s, match heap s !! w with
       | Some W =>
           let v := fresh (dom (heap s)) in
           Ok (v, {| heap := <[ v := vscale c <$> W ]> (heap s);
                     log := log s |})
       | None => Raise DanglingRef
       end.

(** [coeff_field[m]] *)
Definition cf_getitem (cf : CoefficientField) (m : nat) : M (CoefFun * RV) :=
  match cf_terms cf !! m with
  | Some t => ret t
  | None => raise IndexError
  end.

(** [Lambda[0]] *)
Definition list_head (Lambda : list Multiindex.t) : M Multiindex.t :=
  match Lambda with
  | mu :: _ => ret mu
  | [] => raise IndexError
  end.

(** [for a in l: acc = body(acc, a)] *)
Fixpoint for_fold {A C} (l : list A) (acc : C) (body : C → A → M C) : M C :=
  match l with
  | [] => ret acc
  | a :: l' => bind (body acc a) (λ acc', for_fold l' acc' body)
  end.

(** [for a in l: body(a)] *)
Definition for_each {A} (l : list A) (body : A → M unit) : M unit :=
  for_fold l tt (λ _ a, body a).

(** [[f(a) for a in l]] *)
Fixpoint list_comp {A C} (l : list A) (f : A → M C) : M (list C) :=
  match l with
  | [] => ret []
  | a :: l' => bind (f a) (λ c, bind (list_comp l' f) (λ cs, ret (c :: cs)))
  end.

End Egsz.

Declare Scope py_scope.
Delimit Scope py_scope with py.
Notation "x <- c ;; k" := (bind c (λ x, k))
  (at level 100, c at next level, right associativity) : py_scope.
Notation "c ;;; k" := (bind c (λ _, k))
  (at level 100, right associativity) : py_scope.

Local Open Scope py_scope.

(* ===================================================================== *)
(** * [multi_operator.py] *)

Module multi_operator.

(** [ASSEMBLY_TYPE = Enum('MU', 'JOINT_MU', 'JOINT_GLOBAL')] *)
Inductive ASSEMBLY_TYPE : Set := MU | JOINT_MU | JOINT_GLOBAL.

Definition is_JOINT_GLOBAL (a : ASSEMBLY_TYPE) : bool :=
  match a with JOINT_GLOBAL => true | _ => false end.

Definition is_JOINT_MU (a : ASSEMBLY_TYPE) : bool :=
  match a with JOINT_MU => true | _ => false end.

Module MultiOperator.
Section MultiOperator.
Context `{B : Backend}.

Record t : Type := {
  _assemble_0 : Assembler;
  _assemble_m : Assembler;
  _coeff_field : CoefficientField;
  _domain : option Basis;
  _codomain : option Basis;
  _assembly_type : ASSEMBLY_TYPE;
}.

Definition __init__ (coeff_field : CoefficientField) (assemble_0 : Assembler)
    (assemble_m : option Assembler) (domain codomain : option Basis)
    (assembly_type : ASSEMBLY_TYPE) : t :=
  {| _assemble_0 := assemble_0;
     _assemble_m := default assemble_0 assemble_m;   (* assemble_m or assemble_0 *)
     _coeff_field := coeff_field;
     _domain := domain;
     _codomain := codomain;
     _assembly_type := assembly_type |}.

(** The guard at the head of [apply] and [apply_A]:
    [if len(self._coeff_field) < maxm: logger.warning(..); maxm = len(..)]. *)
Definition check_maxm (self : t) (maxm : nat) : M nat :=
  if cf_len (_coeff_field self) <? maxm then
    logger (Warn_insufficient_length (cf_len (_coeff_field self)) maxm) ;;;
    ret (cf_len (_coeff_field self))
  else ret maxm.

(** [mus] of the JOINT_MU branch: [mu], its increments and its decrements,
    intersected with the active indices.  A Python set has no order of
    its own; the elements are listed in the order of the finite set. *)
Definition joint_indices (mu : Multiindex.t) (maxm : nat)
    (Lambda : list Multiindex.t) : list Multiindex.t :=
  let mus : gset Multiindex.t := {[ mu ]} in
  let mus := mus ∪ list_to_set ((λ m, Multiindex.inc mu m) <$> seq 0 maxm) in
  let mus := mus ∪ list_to_set (omap (λ m, Multiindex.dec mu m) (seq 0 maxm)) in
  let mus := mus ∩ list_to_set Lambda in
  elements mus.

(** The basis [Vfine] on which the component [mu] is computed when the
    assembly type is not JOINT_GLOBAL. *)
Definition local_Vfine (self : t) (w : loc) (mu : Multiindex.t) (maxm : nat)
    (Lambda : list Multiindex.t) : M Basis :=
  x <- mv_getitem w mu ;;
  if is_JOINT_MU (_assembly_type self) && has_mesh (vec_basis x) then
    let mus := joint_indices mu maxm Lambda in
    logger (Debug_apply_joint mu mus) ;;;
    meshes <- list_comp mus (λ m, y <- mv_getitem w m ;;
                                  ret (basis_mesh (vec_basis y))) ;;
    let mesh := joint_mesh_fst (create_joint_mesh meshes) in
    x <- mv_getitem w mu ;;
    ret (basis_copy (vec_basis x) mesh)
  else
    x <- mv_getitem w mu ;;
    ret (vec_basis x).

(** One round of the loop [for m in range(maxm)] of [apply]. *)
Definition apply_step (self : t) (w : loc) (Lambda : list Multiindex.t)
    (Vfine : Basis) (mu : Multiindex.t) (cur_v : Vec) (m : nat) : M Vec :=
  logger (Debug_with_m m) ;;;
(* assemble A for mu and a_m *)
p <- cf_getitem (_coeff_field self) m ;;
let '(am_f, am_rv) := p in
let Am := _assemble_m self (ABasis Vfine) (ACoef am_f) in
(* prepare polynom coefficients *)
let '(beta0, beta1, beta_1) := get_beta am_rv (Multiindex.getitem mu m) in
(* mu *)
x <- mv_getitem w mu ;;
let cur_w := vscale (sneg beta0) (project_onto Vfine x) in
(* mu+1 *)
let mu1 := Multiindex.inc mu m in
cur_w <- (if bool_decide (mu1 ∈ Lambda) then
            x1 <- mv_getitem w mu1 ;;
            ret (vadd cur_w (vscale beta1 (project_onto Vfine x1)))
          else ret cur_w) ;;
(* mu-1 *)
let mu2 := Multiindex.dec mu m in
cur_w <- (match mu2 with
          | Some nu =>
              if bool_decide (nu ∈ Lambda) then
                x2 <- mv_getitem w nu ;;
                ret (vadd cur_w (vscale beta_1 (project_onto Vfine x2)))
              else ret cur_w
          | None => ret cur_w
          end) ;;
(* apply discrete operator *)
ret (vadd cur_v (op_apply Am cur_w)).

Definition apply (self : t) (w : loc) : M loc :=
  v <- mv_rmul int_zero w ;;
  Lambda <- mv_active_indices w ;;
  maxm <- mv_max_order w ;;
  maxm <- check_maxm self maxm ;;
(* construct global joint mesh *)
Vglobal <- (if is_JOINT_GLOBAL (_assembly_type self) then
              meshes <- list_comp Lambda (λ m, y <- mv_getitem w m ;;
                                               ret (basis_mesh (vec_basis y))) ;;
              let mesh := create_joint_mesh meshes in
              mu0 <- list_head Lambda ;;
              x0 <- mv_getitem w mu0 ;;
              ret (Some (basis_copy_joint (vec_basis x0) mesh))
            else ret None) ;;
for_each Lambda (λ mu,
  Vfine <- (match Vglobal with
            | Some V => ret V
            | None => local_Vfine self w mu maxm Lambda
            end) ;;
(* deterministic part *)
let a0_f := mean_func (_coeff_field self) in
let A0 := _assemble_0 self (ABasis Vfine) (ACoef a0_f) in
x <- mv_getitem w mu ;;
let cur_v := op_apply A0 (project_onto Vfine x) in
(* iterate related multiindices *)
cur_v <- for_fold (seq 0 maxm) cur_v
           (apply_step self w Lambda Vfine mu) ;;
x <- mv_getitem w mu ;;
mv_setitem v mu (project_onto (vec_basis x) cur_v)) ;;;
ret v.

(** Modelled from the spec: [w.get_projection(source_mu, target_mu)] of
    [MultiVectorWithProjection], "a representation of component
    source_mu expressed on component target_mu's basis". *)
Definition mv_get_projection (w : loc) (src dst : Multiindex.t) : M Vec :=
  xs <- mv_getitem w src ;;
  xd <- mv_getitem w dst ;;
  ret (project_onto (vec_basis xd) xs).

(** One round of the loop [for m in range(maxm)] of [apply_A]. *)
Definition apply_A_step (self : t) (w v : loc) (Lambda : list Multiindex.t)
    (mu : Multiindex.t) (m : nat) : M unit :=
  logger (Debug_with_m m) ;;;
  p <- cf_getitem (_coeff_field self) m ;;
  let '(am_f, am_rv) := p in
  x <- mv_getitem w mu ;;
  let Am := _assemble_m self (ABasis (vec_basis x)) (ACoef am_f) in
  let '(beta0, beta1, beta_1) := get_beta am_rv (Multiindex.getitem mu m) in
  x <- mv_getitem w mu ;;
  let cur_w := vscale (sneg beta0) x in
  let mu1 := Multiindex.inc mu m in
  cur_w <- (if bool_decide (mu1 ∈ Lambda) then
              x1 <- mv_get_projection w mu1 mu ;;
              ret (vadd cur_w (vscale beta1 x1))
            else ret cur_w) ;;
  let mu2 := Multiindex.dec mu m in
  cur_w <- (match mu2 with
            | Some nu =>
                if bool_decide (nu ∈ Lambda) then
                  x2 <- mv_get_projection w nu mu ;;
                  ret (vadd cur_w (vscale beta_1 x2))
                else ret cur_w
            | None => ret cur_w
            end) ;;
(* v[mu] += Am * cur_w *)
y <- mv_getitem v mu ;;
mv_setitem v mu (vadd y (op_apply Am cur_w)).

Definition apply_A (self : t) (w : loc) : M loc :=
  v <- mv_rmul int_zero w ;;
  Lambda <- mv_active_indices w ;;
  maxm <- mv_max_order w ;;
  maxm <- check_maxm self maxm ;;
  for_each Lambda (λ mu,
    logger (Debug_apply_on mu) ;;;
(* deterministic part *)
let a0_f := mean_func (_coeff_field self) in
x <- mv_getitem w mu ;;
let A0 := _assemble_0 self (ABasis (vec_basis x)) (ACoef a0_f) in
x <- mv_getitem w mu ;;
mv_setitem v mu (op_apply A0 x) ;;;
for_each (seq 0 maxm) (apply_A_step self w v Lambda mu)) ;;;
ret v.

End MultiOperator.
End MultiOperator.

Module PreconditioningOperator.
Section PreconditioningOperator.
Context `{B : Backend}.

Record t : Type := {
  _assemble_solver : Assembler;
  _mean_func : CoefFun;
  _domain : option Basis;
  _codomain : option Basis;
}.

Definition __init__ (mean_func : CoefFun) (assemble_solver : Assembler)
    (domain codomain : option Basis) : t :=
  {| _assemble_solver := assemble_solver;
     _mean_func := mean_func;
     _domain := domain;
     _codomain := codomain |}.

(** The block under [if False:] is never run and has no counterpart. *)
Definition apply (self : t) (w : loc) : M loc :=
  v <- mv_rmul int_zero w ;;
  Delta <- mv_active_indices w ;;
  for_each Delta (λ mu,
    let a0_f := _mean_func self in
    x <- mv_getitem w mu ;;
    let A0 := _assemble_solver self (ABasis (vec_basis x)) (ACoef a0_f) in
    x <- mv_getitem w mu ;;
    mv_setitem v mu (op_apply A0 x)) ;;;
  ret v.

End PreconditioningOperator.
End PreconditioningOperator.

End multi_operator.

(* ===================================================================== *)
(** * [multi_operator2.py]: the operator on a single spatial grid *)

(** [w.basis.basis] of a [MultiVectorSharedBasis]: the one basis shared by
    the components.  The class is not part of the sources at hand; the
    attribute is an operation of the interface. *)
Class SharedBasis `{B : Backend} : Type := {
  mv_basis_basis : gmap Multiindex.t Vec → Basis;
}.

Module multi_operator2.

Module MultiOperator.
Section MultiOperator.
Context `{B : Backend} `{SB : !SharedBasis}.

Record t : Type := {
  _assemble_0 : Assembler;
  _assemble_m : Assembler;
  _coeff_field : CoefficientField;
  _domain : option Basis;
  _codomain : option Basis;
}.

Definition __init__ (coeff_field : CoefficientField) (assemble_0 : Assembler)
    (assemble_m : option Assembler) (domain codomain : option Basis) : t :=
  {| _assemble_0 := assemble_0;
     _assemble_m := default assemble_0 assemble_m;   (* assemble_m or assemble_0 *)
     _coeff_field := coeff_field;
     _domain := domain;
     _codomain := codomain |}.

(** The guard at the head of [apply] and [apply_A]:
    [if len(self._coeff_field) < maxm: logger.warning(..); maxm = len(..)]. *)
Definition check_maxm (self : t) (maxm : nat) : M nat :=
  if cf_len (_coeff_field self) <? maxm then
    logger (Warn_insufficient_length (cf_len (_coeff_field self)) maxm) ;;;
    ret (cf_len (_coeff_field self))
  else ret maxm.

(** One round of the loop [for m in range(maxm)] of [apply]. *)
Definition apply_step (self : t) (w : loc) (Lambda : list Multiindex.t)
    (V : Basis) (mu : Multiindex.t) (cur_v : Vec) (m : nat) : M Vec :=
  logger (Debug_with_m_mu m mu) ;;;
(* assemble A for mu and a_m *)
p <- cf_getitem (_coeff_field self) m ;;
let '(am_f, am_rv) := p in
let Am := _assemble_m self (ABasis V) (ACoef am_f) in
(* prepare polynom coefficients *)
let '(beta0, beta1, beta_1) := get_beta am_rv (Multiindex.getitem mu m) in
(* mu *)
x <- mv_getitem w mu ;;
let cur_w := vscale (sneg beta0) x in
(* mu+1 *)
let mu1 := Multiindex.inc mu m in
cur_w <- (if bool_decide (mu1 ∈ Lambda) then
            x1 <- mv_getitem w mu1 ;;
            ret (vadd cur_w (vscale beta1 x1))
          else ret cur_w) ;;
(* mu-1 *)
let mu2 := Multiindex.dec mu m in
cur_w <- (match mu2 with
          | Some nu =>
              if bool_decide (nu ∈ Lambda) then
                x2 <- mv_getitem w nu ;;
                ret (vadd cur_w (vscale beta_1 x2))
              else ret cur_w
          | None => ret cur_w
          end) ;;
(* apply discrete operator *)
ret (vadd cur_v (op_apply Am cur_w)).

Definition apply (self : t) (w : loc) : M loc :=
  v <- mv_rmul int_zero w ;;
  Lambda <- mv_active_indices w ;;
  maxm <- mv_max_order w ;;
  maxm <- check_maxm self maxm ;;
  W <- deref w ;;
  let V := mv_basis_basis W in
  for_each Lambda (λ mu,
(* deterministic part *)
let a0_f := mean_func (_coeff_field self) in
let A0 := _assemble_0 self (ABasis V) (ACoef a0_f) in
x <- mv_getitem w mu ;;
let cur_v := op_apply A0 x in
(* iterate related multiindices *)
cur_v <- for_fold (seq 0 maxm) cur_v (apply_step self w Lambda V mu) ;;
mv_setitem v mu cur_v) ;;;
ret v.

(** One round of the loop [for m in range(maxm)] of [apply_A].  The
    assembly callables are handed the coefficient first and the basis
    second here. *)
Definition apply_A_step (self : t) (w v : loc) (Lambda : list Multiindex.t)
    (mu : Multiindex.t) (m : nat) : M unit :=
  logger (Debug_with_m m) ;;;
  p <- cf_getitem (_coeff_field self) m ;;
  let '(am_f, am_rv) := p in
  x <- mv_getitem w mu ;;
  let Am := _assemble_m self (ACoef am_f) (ABasis (vec_basis x)) in
  let '(beta0, beta1, beta_1) := get_beta am_rv (Multiindex.getitem mu m) in
  x <- mv_getitem w mu ;;
  let cur_w := vscale (sneg beta0) x in
  let mu1 := Multiindex.inc mu m in
  cur_w <- (if bool_decide (mu1 ∈ Lambda) then
              x1 <- mv_getitem w mu1 ;;
              ret (vadd cur_w (vscale beta1 x1))
            else ret cur_w) ;;
  let mu2 := Multiindex.dec mu m in
  cur_w <- (match mu2 with
            | Some nu =>
                if bool_decide (nu ∈ Lambda) then
                  x2 <- mv_getitem w nu ;;
                  ret (vadd cur_w (vscale beta_1 x2))
                else ret cur_w
            | None => ret cur_w
            end) ;;
(* v[mu] += Am * cur_w *)
y <- mv_getitem v mu ;;
mv_setitem v mu (vadd y (op_apply Am cur_w)).

Definition apply_A (self : t) (w : loc) : M loc :=
  v <- mv_rmul int_zero w ;;
  Lambda <- mv_active_indices w ;;
  maxm <- mv_max_order w ;;
  maxm <- check_maxm self maxm ;;
  for_each Lambda (λ mu,
    logger (Debug_apply_on mu) ;;;
(* deterministic part *)
let a0_f := mean_func (_coeff_field self) in
x <- mv_getitem w mu ;;
let A0 := _assemble_0 self (ACoef a0_f) (ABasis (vec_basis x)) in
x <- mv_getitem w mu ;;
mv_setitem v mu (op_apply A0 x) ;;;
for_each (seq 0 maxm) (apply_A_step self w v Lambda mu)) ;;;
ret v.

End MultiOperator.
End MultiOperator.

Module PreconditioningOperator.
Section PreconditioningOperator.
Context `{B : Backend}.

Record t : Type := {
  _assemble_solver : Assembler;
  _mean_func : CoefFun;
  _domain : option Basis;
  _codomain : option Basis;
}.

Definition __init__ (mean_func : CoefFun) (assemble_solver : Assembler)
    (domain codomain : option Basis) : t :=
  {| _assemble_solver := assemble_solver;
     _mean_func := mean_func;
     _domain := domain;
     _codomain := codomain |}.

(** The block under [if False:] is never run and has no counterpart. *)
Definition apply (self : t) (w : loc) : M loc :=
  v <- mv_rmul int_zero w ;;
  Delta <- mv_active_indices w ;;
  for_each Delta (λ mu,
    let a0_f := _mean_func self in
    x <- mv_getitem w mu ;;
    let A0 := _assemble_solver self (ABasis (vec_basis x)) (ACoef a0_f) in
    x <- mv_getitem w mu ;;
    mv_setitem v mu (op_apply A0 x)) ;;;
  ret v.

End PreconditioningOperator.
End PreconditioningOperator.

End multi_operator2.

(* ===================================================================== *)
(** * What the specification says the operator computes *)

Section OperatorSpec.
Context `{B : Backend}.

(** The vector the operator [Am] of stochastic dimension [m] is applied to
    for the component [mu]:
    [-β0·w[mu] + β1·w[mu+e_m] + β(-1)·w[mu-e_m]], a neighbour entering only
    when it is active.  [own] is the component [w[mu]] as the code reads it
    and [view] is how it reads a neighbour (as it is, or projected onto the
    working basis). *)
Definition neighbour_sum (W : gmap Multiindex.t Vec) (view : Vec → Vec)
    (mu : Multiindex.t) (m : nat) (beta : Scalar * Scalar * Scalar)
    (own : Vec) : Vec :=
  let '(beta0, beta1, beta_1) := beta in
  let t0 := vscale (sneg beta0) own in
  let t1 := match W !! Multiindex.inc mu m with
            | Some x1 => vadd t0 (vscale beta1 (view x1))
            | None => t0
            end in
  match Multiindex.dec mu m with
  | Some nu =>
      match W !! nu with
      | Some x2 => vadd t1 (vscale beta_1 (view x2))
      | None => t1
      end
  | None => t1
  end.

(** The contribution of dimension [m], with coefficient [(am_f, am_rv)],
    added to what has been accumulated. *)
Definition add_dimension (W : gmap Multiindex.t Vec) (view : Vec → Vec)
    (assemble_m : CoefFun → Op) (mu : Multiindex.t) (own : Vec)
    (acc : Vec) (mt : nat * (CoefFun * RV)) : Vec :=
  let '(m, (am_f, am_rv)) := mt in
  vadd acc (op_apply (assemble_m am_f)
              (neighbour_sum W view mu m
                 (get_beta am_rv (Multiindex.getitem mu m)) own)).

(** The component [mu] of the result: the mean-field contribution
    [A0·w[mu]] plus the contributions of the dimensions [m ∈ [0, maxm)],
    summed in this order.  [assemble_m f] is the operator for the
    coefficient function [f]. *)
Definition component_spec (cf : CoefficientField) (W : gmap Multiindex.t Vec)
    (view : Vec → Vec) (A0 : Op) (assemble_m : CoefFun → Op) (maxm : nat)
    (mu : Multiindex.t) (own : Vec) : Vec :=
  foldl (add_dimension W view assemble_m mu own)
        (op_apply A0 own)
        (zip (seq 0 maxm) (take maxm (cf_terms cf))).

(** The number of dimensions the operator visits. *)
Definition effective_maxm (cf : CoefficientField) (W : gmap Multiindex.t Vec) : nat :=
  if cf_len cf <? max_order W then cf_len cf else max_order W.

(** The warning the operator logs, if any. *)
Definition length_warning (cf : CoefficientField) (W : gmap Multiindex.t Vec)
    : list LogRecord :=
  if cf_len cf <? max_order W
  then [Warn_insufficient_length (cf_len cf) (max_order W)]
  else [].

(** [[w[m].basis.mesh for m in mus]] *)
Definition mesh_list (W : gmap Multiindex.t Vec) (mus : list Multiindex.t)
    : list Mesh :=
  omap (λ m, (λ y, basis_mesh (vec_basis y)) <$> W !! m) mus.

(** The basis [Vfine] that [multi_operator.MultiOperator.apply] works on for
    the component [x = w[mu]]. *)
Definition working_basis (assembly_type : multi_operator.ASSEMBLY_TYPE)
    (W : gmap Multiindex.t Vec) (maxm : nat) (mu : Multiindex.t) (x : Vec)
    : Basis :=
  match assembly_type with
  | multi_operator.JOINT_GLOBAL =>
      match active_indices W with
      | mu0 :: _ =>
          match W !! mu0 with
          | Some x0 =>
              basis_copy_joint (vec_basis x0)
                (create_joint_mesh (mesh_list W (active_indices W)))
          | None => vec_basis x
          end
      | [] => vec_basis x
      end
  | multi_operator.JOINT_MU =>
      if has_mesh (vec_basis x) then
        basis_copy (vec_basis x)
          (joint_mesh_fst
             (create_joint_mesh
                (mesh_list W
                   (multi_operator.MultiOperator.joint_indices mu maxm
                      (active_indices W)))))
      else vec_basis x
  | multi_operator.MU => vec_basis x
  end.

End OperatorSpec.

(* ===================================================================== *)
(** * Runs of a program *)

Section Runs.
Context `{B : Backend}.

(** The warnings among the log records. *)
Definition warnings (l : list LogRecord) : list LogRecord :=
  filter (λ r, is_warning r = true) l.

(** A store seen through its heap and the warnings logged so far. *)
Definition St (H : gmap loc (gmap Multiindex.t Vec)) (WL : list LogRecord)
    (s : Store) : Prop :=
  heap s = H ∧ warnings (log s) = WL.

(** [runs c H WL a H' WL']: from every store with heap [H] and warnings
    [WL] the program [c] returns [a], without raising, in a store with
    heap [H'] and warnings [WL']. *)
Definition runs {A} (c : M A) (H : gmap loc (gmap Multiindex.t Vec))
    (WL : list LogRecord) (a : A) (H' : gmap loc (gmap Multiindex.t Vec))
    (WL' : list LogRecord) : Prop :=
  ∀ s, St H WL s → ∃ s', c s = Ok (a, s') ∧ St H' WL' s'.

(** The dictionary after [v[mu] = r mu x] for the items [(mu, x)] of a
    list, in order. *)
Definition set_all (r : Multiindex.t → Vec → Vec)
    (kvs : list (Multiindex.t * Vec)) (V : gmap Multiindex.t Vec)
    : gmap Multiindex.t Vec :=
  foldl (λ V kv, <[ kv.1 := r kv.1 kv.2 ]> V) V kvs.

End Runs.

(* ===================================================================== *)
(** * The components of the results *)

Section Components.
Context `{B : Backend}.

(** [multi_operator.MultiOperator.apply]: every component is projected onto
    the working basis, and the sum is projected back onto the basis of
    [w[mu]]. *)
Definition mo_apply_component (self : multi_operator.MultiOperator.t)
    (W : gmap Multiindex.t Vec) (mu : Multiindex.t) (x : Vec) : Vec :=
  let cf := multi_operator.MultiOperator._coeff_field self in
  let maxm := effective_maxm cf W in
  let Vfine :=
    working_basis (multi_operator.MultiOperator._assembly_type self) W maxm mu x in
  project_onto (vec_basis x)
    (component_spec cf W (project_onto Vfine)
       (multi_operator.MultiOperator._assemble_0 self
          (ABasis Vfine) (ACoef (mean_func cf)))
       (λ f, multi_operator.MultiOperator._assemble_m self (ABasis Vfine) (ACoef f))
       maxm mu (project_onto Vfine x)).

(** The global joint basis that [multi_operator.MultiOperator.apply] builds
    before its loop when the assembly type is JOINT_GLOBAL. *)
Definition global_basis (self : multi_operator.MultiOperator.t)
    (W : gmap Multiindex.t Vec) : option Basis :=
  if multi_operator.is_JOINT_GLOBAL (multi_operator.MultiOperator._assembly_type self) then
    match active_indices W with
    | mu0 :: _ =>
        match W !! mu0 with
        | Some x0 => Some (basis_copy_joint (vec_basis x0)
                             (create_joint_mesh (mesh_list W (active_indices W))))
        | None => None
        end
    | [] => None
    end
  else None.

(** [multi_operator.MultiOperator.apply_A]: the neighbours are projected
    onto the basis of [w[mu]]. *)
Definition mo_apply_A_component (self : multi_operator.MultiOperator.t)
    (W : gmap Multiindex.t Vec) (mu : Multiindex.t) (x : Vec) : Vec :=
  let cf := multi_operator.MultiOperator._coeff_field self in
  component_spec cf W (project_onto (vec_basis x))
    (multi_operator.MultiOperator._assemble_0 self
       (ABasis (vec_basis x)) (ACoef (mean_func cf)))
    (λ f, multi_operator.MultiOperator._assemble_m self
            (ABasis (vec_basis x)) (ACoef f))
    (effective_maxm cf W) mu x.

(** [PreconditioningOperator.apply], the same in both files: the mean-field
    solve operator on the basis of [w[mu]], applied to [w[mu]]. *)
Definition mo_precond_component (self : multi_operator.PreconditioningOperator.t)
    (mu : Multiindex.t) (x : Vec) : Vec :=
  op_apply
    (multi_operator.PreconditioningOperator._assemble_solver self
       (ABasis (vec_basis x))
       (ACoef (multi_operator.PreconditioningOperator._mean_func self)))
    x.

Definition mo2_precond_component (self : multi_operator2.PreconditioningOperator.t)
    (mu : Multiindex.t) (x : Vec) : Vec :=
  op_apply
    (multi_operator2.PreconditioningOperator._assemble_solver self
       (ABasis (vec_basis x))
       (ACoef (multi_operator2.PreconditioningOperator._mean_func self)))
    x.

Context `{SB : !SharedBasis}.

(** [multi_operator2.MultiOperator.apply]: the components as they are, the
    operators on the shared basis. *)
Definition mo2_apply_component (self : multi_operator2.MultiOperator.t)
    (W : gmap Multiindex.t Vec) (mu : Multiindex.t) (x : Vec) : Vec :=
  let cf := multi_operator2.MultiOperator._coeff_field self in
  component_spec cf W id
    (multi_operator2.MultiOperator._assemble_0 self
       (ABasis (mv_basis_basis W)) (ACoef (mean_func cf)))
    (λ f, multi_operator2.MultiOperator._assemble_m self
            (ABasis (mv_basis_basis W)) (ACoef f))
    (effective_maxm cf W) mu x.

(** [multi_operator2.MultiOperator.apply_A]: the assembly callables get the
    coefficient first and the basis of [w[mu]] second. *)
Definition mo2_apply_A_component (self : multi_operator2.MultiOperator.t)
    (W : gmap Multiindex.t Vec) (mu : Multiindex.t) (x : Vec) : Vec :=
  let cf := multi_operator2.MultiOperator._coeff_field self in
  component_spec cf W id
    (multi_operator2.MultiOperator._assemble_0 self
       (ACoef (mean_func cf)) (ABasis (vec_basis x)))
    (λ f, multi_operator2.MultiOperator._assemble_m self
            (ACoef f) (ABasis (vec_basis x)))
    (effective_maxm cf W) mu x.

(** The heap after an operator has run on [w]: one new MultiVector, whose
    components are those of [0 * w] overwritten by [r]. *)
Definition heap_after (r : Multiindex.t → Vec → Vec)
    (H : gmap loc (gmap Multiindex.t Vec)) (W : gmap Multiindex.t Vec)
    : gmap loc (gmap Multiindex.t Vec) :=
  <[ fresh (dom H) := set_all r (map_to_list W) (vscale int_zero <$> W) ]> H.

End Components.

(* ===================================================================== *)
(** * A one-dimensional backend, for concrete runs *)

Module Scalar1D.

(** Every space has dimension one: a vector is an integer, an operator
    multiplies by an integer, a projection changes nothing. *)
#[export] Instance backend : Backend := {|
  Scalar := Z;
  Vec := Z;
  Basis := unit;
  Mesh := unit;
  JointMesh := unit;
  Op := Z;
  CoefFun := Z;
  RV := unit;
  int_zero := 0%Z;
  sneg := Z.opp;
  vscale := Z.mul;
  vadd := Z.add;
  op_apply := Z.mul;
  vec_basis := λ _, tt;
  project_onto := λ _ x, x;
  has_mesh := λ _, true;
  basis_mesh := λ _, tt;
  create_joint_mesh := λ _, tt;
  joint_mesh_fst := λ _, tt;
  basis_copy := λ _ _, tt;
  basis_copy_joint := λ _ _, tt;
  get_beta := λ _ n, (Z.of_nat n, 1%Z, Z.of_nat n);
|}.

#[export] Instance shared_basis : SharedBasis := {| mv_basis_basis := λ _, tt |}.

(** The operator for a coefficient multiplies by it. *)
Definition assemble : Assembler :=
  λ a b, match a, b with
         | ACoef f, _ => f
         | _, ACoef f => f
         | _, _ => 0%Z
         end.

(** A coefficient field with mean 2 and one term. *)
Definition cf1 : CoefficientField :=
  {| mean_func := 2%Z; cf_terms := [(3%Z, tt)] |}.

(** The multi-indices [(0)], [(1)] and [(0, 1)]. *)
Definition mu0 : Multiindex.t := Multiindex.zero.
Definition mu1 : Multiindex.t := Multiindex.inc mu0 0.
Definition mu01 : Multiindex.t := Multiindex.inc mu0 1.

(** A MultiVector with the components [w[(0)] = 5] and [w[(1)] = 7]. *)
Definition W2 : gmap Multiindex.t Vec := <[ mu1 := 7%Z ]> (<[ mu0 := 5%Z ]> ∅).

(** A MultiVector that has the index [(0, 1)] as well: its order is 2. *)
Definition W3 : gmap Multiindex.t Vec := <[ mu01 := 11%Z ]> W2.

Definition store_of (W : gmap Multiindex.t Vec) : Store :=
  {| heap := {[ 0 := W ]}; log := [] |}.

Definition op (ty : multi_operator.ASSEMBLY_TYPE) : multi_operator.MultiOperator.t :=
  multi_operator.MultiOperator.__init__ cf1 assemble None None None ty.

Definition op2 : multi_operator2.MultiOperator.t :=
  multi_operator2.MultiOperator.__init__ cf1 assemble None None None.

Definition precond : multi_operator.PreconditioningOperator.t :=
  multi_operator.PreconditioningOperator.__init__ 2%Z assemble None None.

Definition precond2 : multi_operator2.PreconditioningOperator.t :=
  multi_operator2.PreconditioningOperator.__init__ 2%Z assemble None None.

End Scalar1D.

(* ===================================================================== *)
(** * [polyquad/_polynomials.py]: recurrence coefficients *)

(** [range(a, b)] over the integers. *)
Definition range (a b : Z) : list Z :=
  (λ i : nat, (a + Z.of_nat i)%Z) <$> seq 0 (Z.to_nat (b - a)).

(** [max(a, b)]: the first of the largest arguments. *)
Definition Qmax2 (a b : Q) : Q := if Qle_bool b a then a else b.

(** [min(a, b)]: the first of the smallest arguments. *)
Definition Qmin2 (a b : Q) : Q := if Qle_bool a b then a else b.

(** [scipy.factorial(n)]: [n!], and zero for a negative [n]. *)
Definition factorial (n : Z) : Z :=
  if (n <? 0)%Z then 0%Z else Z.of_nat (fact (Z.to_nat n)).

Module _polynomials.
Local Open Scope Q_scope.

(** Recurrence coefficients [(a, b, c)] of
    [p_{n+1}(x) = (a_n + x b_n) p_n(x) - c_n p_{n-1}(x)].  Floats are read as
    rationals; a division concerns a nonzero divisor in all the uses
    below, which the theorems state. *)
Definition RC : Type := Q * Q * Q.

Definition rc_b (rc : RC) : Q := rc.1.2.     (* [rc[1]] *)
Definition rc_c (rc : RC) : Q := rc.2.       (* [rc[2]] *)

Definition rc4_to_rc3 (a : Q * Q * Q * Q) : RC :=
  let '(a0, a1, a2, a3) := a in
  (a1 / a0, a2 / a0, a3 / a0).

Definition sqnorm_from_rc (rc_func : Z → RC) (n : Z) : Q :=
  let b0 := rc_b (rc_func 0%Z) in
  let bn := rc_b (rc_func n) in
  let h := b0 / bn in
  foldl (λ h i, let c := rc_c (rc_func i) in h * c) h (range 1 (n + 1)).

Definition rc_stoch_hermite (n : Z) : RC := (0, 1, inject_Z n).

Definition sqnorm_stoch_hermite (n : Z) : Q := inject_Z (factorial n).

Definition rc_legendre (n : Z) : RC :=
  let n := inject_Z n in
  rc4_to_rc3 (Qmax2 0 n + 1, 0, 2 * n + 1, n).

Definition sqnorm_legendre (n : Z) : Q :=
  let n := inject_Z n in
  1 / (2 * n + 1).

End _polynomials.

(* ===================================================================== *)
(** * [residual_estimator.py]: the local projection error *)

(** Computations that may raise, without a store. *)
Definition rbind {A C} (c : Result A) (k : A → Result C) : Result C :=
  match c with
  | Ok a => k a
  | Raise e => Raise e
  end.

Notation "x <~ c ;; k" := (rbind c (λ x, k))
  (at level 100, c at next level, right associativity) : py_scope.

(** [min(l)] and [max(l)] of a sequence; an empty sequence raises. *)
Definition py_min (l : list Q) : Result Q :=
  match l with
  | [] => Raise ValueError
  | x :: l' => Ok (foldl Qmin2 x l')
  end.

Definition py_max (l : list Q) : Result Q :=
  match l with
  | [] => Raise ValueError
  | x :: l' => Ok (foldl Qmax2 x l')
  end.

(** [a / b] *)
Definition py_div (a b : Q) : Result Q :=
  if Qeq_bool b 0 then Raise ZeroDivisionError else Ok (a / b)%Q.

(** [a // b]: the quotient rounded down to an integer. *)
Definition py_floordiv (a b : Q) : Result Q :=
  if Qeq_bool b 0 then Raise ZeroDivisionError
  else Ok (inject_Z (Qfloor (a / b)))%Q.

(** What the estimator consumes from FEniCS. *)
Class EstimatorBackend : Type := {
  FVec : Type;                       (* a discrete function with its space *)
  ECoef : Type;                      (* a coefficient function *)
  ERV : Type;                        (* a random variable *)
  fs_project : FVec → FVec → FVec;
(* [u.functionspace.project(v, pt)]: [v] on the space of [u] *)
fvec_sub : FVec → FVec → FVec;     (* [u - v] *)
grad_sqnorm : FVec → Q;
(* [assemble(inner(grad(e), grad(e))*dx)] *)
at_coordinates : ECoef → FVec → list Q;
(* [f(u.mesh.coordinates())] *)
recurrence_coefficients : ERV → nat → Q * Q * Q;
(* [rv.orth_poly.recurrence_coefficients(n)] *)
}.

Module residual_estimator.
Section ResidualEstimator.
Context `{E : EstimatorBackend}.

(** The caches of projected vectors: a MultiVector of MultiVectors. *)
Abbreviation Cache := (gmap Multiindex.t (gmap Multiindex.t FVec)).

(** [d[k]] *)
Definition dict_getitem {V} (d : gmap Multiindex.t V) (k : option Multiindex.t)
    : Result V :=
  match k with
  | Some mu => match d !! mu with Some x => Ok x | None => Raise KeyError end
  | None => Raise KeyError
  end.

(** [CF[m]] *)
Definition CF_getitem (CF : list (ECoef * ERV)) (m : nat) : Result (ECoef * ERV) :=
  match CF !! m with Some t => Ok t | None => Raise IndexError end.

(** [if nu not in cache[mu].keys(): cache[mu][nu] = value], with [cache[mu]]
    present; [value] is computed only when the key is missing. *)
Definition cache_setdefault (cache : Cache) (mu nu : Multiindex.t)
    (value : Result FVec) : Result Cache :=
  inner <~ dict_getitem cache (Some mu) ;;
  match inner !! nu with
  | Some _ => Ok cache
  | None => x <~ value ;; Ok (<[ mu := <[ nu := x ]> inner ]> cache)
  end.

(** The part of [_evaluateProjections] for one neighbour [nu] of [mu] with
    the recurrence coefficient [beta_nu]; a neighbour index that does not
    exist (a decrement below zero) is a key of no dictionary. *)
Definition neighbour_error (wN : gmap Multiindex.t FVec) (mu : Multiindex.t)
    (nu : option Multiindex.t) (beta_nu : Q)
    (projected_wN projected_back_wN : Cache) : Result (Q * Cache * Cache) :=
  match nu with
  | None => Raise KeyError
  | Some nu =>
      projected_wN <~ cache_setdefault projected_wN mu nu
                        (w_mu <~ dict_getitem wN (Some mu) ;;
                         w_nu <~ dict_getitem wN (Some nu) ;;
                         Ok (fs_project w_mu w_nu)) ;;
      projected_back_wN <~ cache_setdefault projected_back_wN mu nu
                        (w_nu <~ dict_getitem wN (Some nu) ;;
                         inner <~ dict_getitem projected_wN (Some mu) ;;
                         p <~ dict_getitem inner (Some nu) ;;
                         Ok (fs_project w_nu p)) ;;
(* evaluate H1 semi-norm of projection error *)
inner <~ dict_getitem projected_back_wN (Some mu) ;;
pb <~ dict_getitem inner (Some nu) ;;
w_mu <~ dict_getitem wN (Some mu) ;;
let error := fvec_sub pb w_mu in
let a := grad_sqnorm error in
Ok ((beta_nu * a)%Q, projected_wN, projected_back_wN)
end.

(** [_evaluateProjections].  The caches are the objects bound to the
    parameters after the two [if not ..:] lines: an empty [projected_wN] is
    replaced by a new MultiVector, and so it is when [projected_back_wN] is
    empty. *)
Definition _evaluateProjections (rv : ERV) (wN : gmap Multiindex.t FVec)
    (mu : Multiindex.t) (m : nat) (projected_wN projected_back_wN : Cache)
    : Result (Q * Q * Cache * Cache) :=
(* prepare cache data structures *)
let projected_wN : Cache :=
  if bool_decide (projected_wN = ∅) then ∅ else projected_wN in
let projected_wN : Cache :=
  if bool_decide (projected_back_wN = ∅) then ∅ else projected_wN in
let projected_wN : Cache :=
  match projected_wN !! mu with
  | Some _ => projected_wN
  | None => <[ mu := ∅ ]> projected_wN
  end in
let projected_back_wN : Cache :=
  match projected_back_wN !! mu with
  | Some _ => projected_back_wN
  | None => <[ mu := ∅ ]> projected_back_wN
  end in
(* prepare polynom coefficients *)
let '(a, b, c) := recurrence_coefficients rv (Multiindex.getitem mu m) in
beta0 <~ py_div a b ;;
beta1 <~ py_div 1 b ;;
beta_1 <~ py_div c b ;;
(* mu+1 *)
let mu1 := Some (Multiindex.inc mu m) in
r1 <~ neighbour_error wN mu mu1 beta1 projected_wN projected_back_wN ;;
let '(zeta1, projected_wN, projected_back_wN) := r1 in
(* mu-1 *)
let mu2 := Multiindex.dec mu m in
r2 <~ neighbour_error wN mu mu2 beta_1 projected_wN projected_back_wN ;;
let '(zeta2, projected_wN, projected_back_wN) := r2 in
Ok (zeta1, zeta2, projected_wN, projected_back_wN).

Definition evaluateLocalProjectionError (rv : ERV) (wN : gmap Multiindex.t FVec)
    (mu : Multiindex.t) (m : nat) (CF : list (ECoef * ERV))
    (projected_wN projected_back_wN : Cache) : Result (Q * Q * Cache * Cache) :=
(* determine ||a_m/\overline{a}||_{L\infty(D)} *)
t0 <~ CF_getitem CF 0 ;;
let '(a0_f, a0_rv) := t0 in
tm <~ CF_getitem CF m ;;
let '(am_f, am_rv) := tm in
w_mu <~ dict_getitem wN (Some mu) ;;
amin <~ py_min (at_coordinates a0_f w_mu) ;;
w_mu <~ dict_getitem wN (Some mu) ;;
ammax <~ py_max (at_coordinates am_f w_mu) ;;
ainfty <~ py_floordiv ammax amin ;;
(* prepare projections of wN *)
r <~ _evaluateProjections am_rv wN mu m projected_wN projected_back_wN ;;
let '(zeta1, zeta2, projected_wN, projected_back_wN) := r in
let zeta1 := (zeta1 * ainfty)%Q in
let zeta2 := (zeta2 * ainfty)%Q in
Ok (zeta1, zeta2, projected_wN, projected_back_wN).

(** *** What the specification says *)

(** [‖a_m/a0‖_∞] over the mesh coordinates: the largest absolute value of
    the pointwise quotient (0 over no coordinates). *)
Definition sup_norm_ratio (am_values a0_values : list Q) : Q :=
  foldl Qmax2 0%Q (zip_with (λ am a0, Qabs (am / a0)) am_values a0_values).

(** The local error term for the neighbour [nu] of [mu]: the gradient-L2
    difference between the projected-back neighbour component and [w[mu]],
    times the recurrence coefficient, times the weight [‖a_m/a0‖_∞]. *)
Definition projection_error_spec (w_mu w_nu : FVec) (beta_nu : Q)
    (am_f a0_f : ECoef) : Q :=
  (sup_norm_ratio (at_coordinates am_f w_mu) (at_coordinates a0_f w_mu)
   * (beta_nu
      * grad_sqnorm (fvec_sub (fs_project w_nu (fs_project w_mu w_nu)) w_mu)))%Q.

End ResidualEstimator.
End residual_estimator.

(** A one-dimensional estimator backend: a function is a number, its
    gradient norm the square of the number, a coefficient is constant and the
    mesh has a single coordinate; the random variables have the recurrence
    [(0, 1, n)] of the stochastic Hermite polynomials. *)
Module Estimator1D.

#[export] Instance backend : EstimatorBackend := {|
  FVec := Q;
  ECoef := Q;
  ERV := unit;
  fs_project := λ _ v, v;
  fvec_sub := Qminus;
  grad_sqnorm := λ e, (e * e)%Q;
  at_coordinates := λ f _, [f];
  recurrence_coefficients := λ _ n, (0%Q, 1%Q, inject_Z (Z.of_nat n));
|}.

(** Mean coefficient [a0 = 1], first coefficient [a1 = 1/2]. *)
Definition CF : list (ECoef * ERV) := [(1%Q, tt); ((1 # 2)%Q, tt)].

Definition mu : Multiindex.t := Multiindex.inc Multiindex.zero 1.
Definition mu_up : Multiindex.t := Multiindex.inc mu 1.
Definition mu_down : Multiindex.t := Multiindex.zero.

(** [w[(0,0)] = 1], [w[(0,1)] = 3], [w[(0,2)] = 6]. *)
Definition wN : gmap Multiindex.t FVec :=
  <[ mu_up := 6%Q ]> (<[ mu := 3%Q ]> (<[ mu_down := 1%Q ]> ∅)).

(** The two error terms that the code returns. *)
Definition zetas (r : Result (Q * Q * gmap Multiindex.t (gmap Multiindex.t FVec)
                              * gmap Multiindex.t (gmap Multiindex.t FVec)))
    : option (Q * Q) :=
  match r with
  | Ok (zeta1, zeta2, _, _) => Some (zeta1, zeta2)
  | Raise _ => None
  end.

End Estimator1D.

(* ===================================================================== *)
(** * [adaptive_solver.py]: the refinement loop *)

(** What the loop consumes from the solver, the estimator and the marking
    (PCG, [ResidualEstimator.evaluateError], [Marking.mark],
    [Marking.refine]) and from the FEM backend.  The tuning parameters that
    the loop only hands on are one value of type [Tuning]. *)
Class SolverEnv : Type := {
  MV : Type;                 (* a MultiVector together with its meshes *)
  Payload : Type;            (* a list or dictionary stored in a statistics record *)
  Indicators : Type;         (* [resind], [projind], [mierror] *)
  NewIndices : Type;         (* the dictionary of new multi-indices *)
  Tuning : Type;
  prepare_rhs : MV → MV;
  pcg : Tuning → MV → MV → MV * Q * nat;          (* [pcg(A, b, P, w0=w, ..)] *)
  operator_A : MV → MV;                           (* [A * w] *)
  error_norm_L2 : MV → MV → Q;
  error_norm_energy : MV → MV → Q;
  dofs : MV → Z;    (* [sum(b[mu]._fefunc.function_space().dim() ..)] *)
  cells : MV → Z;   (* [sum(b[mu]._fefunc.function_space().mesh().num_cells() ..)] *)
  mv_items : MV → Payload;   (* [[(mu, vec.basis.dim) for mu, vec in w.iteritems()]] *)
  mv_keys : MV → list Multiindex.t;
  mv_max_order_of : MV → nat;
  all_cells : MV → Multiindex.t → list nat;
(* [[c.index() for c in cells(vec._fefunc.function_space().mesh())]] *)
evaluateError :
Tuning → MV → Q →
Q * Indicators * Indicators * Indicators * (Q * Q * Q) * (Q * Q * Q)
* gmap string (Q + Payload);
errors_by_mu : Indicators → Payload;
(* [[(mu, sqrt(sum(ind[mu].coeffs ** 2))) for mu in ind.keys()]] *)
mark :
Tuning → Indicators → Indicators → Indicators → nat → Q →
gmap Multiindex.t (gset nat) * gmap Multiindex.t (gset nat)
* NewIndices * (Q * Q) * Payload;
new_indices_keys : NewIndices → list Multiindex.t;   (* [d.keys()] *)
new_indices_empty : NewIndices;                      (* [{}] *)
refine : MV → gmap Multiindex.t (gset nat) → list Multiindex.t → MV;
(* [Marking.refine(w, mesh_markers, keys, factory)]: [w] afterwards *)
elapsed_pcg : Z → Q;          (* the times that [timing] measures *)
elapsed_estimator : Z → Q;
elapsed_marking : Z → Q;
}.

Module adaptive_solver.
Section AdaptiveSolver.
Context `{Env : SolverEnv}.
Local Open Scope Z_scope.

(** A value of a statistics dictionary: a number, or a list or dictionary. *)
Definition StatVal : Type := Q + Payload.
Definition VNum (q : Q) : StatVal := inl q.
Definition VObj (o : Payload) : StatVal := inr o.

Abbreviation Stats := (gmap string StatVal).

(** [v >= x] for a number [x]: between numbers the order of the numbers; a
    list or dictionary compares greater than every number in Python 2. *)
Definition val_ge (v : StatVal) (x : Q) : bool :=
  match v with
  | inl q => Qle_bool x q
  | inr _ => true
  end.

(** The calls of the collaborators and the messages of the three exits. *)
Inductive Event : Type :=
| EvPcgSolve (k : Z)
| EvEvaluateError (k : Z)
| EvMark (k : Z)
| EvRefine (k : Z)
| InfoSkippingRefinement (k : Z)
(* "SKIPPING REFINEMENT after FINAL SOLUTION in ITERATION %i" *)
| InfoReachedDofs (k : Z)      (* "REACHED %i DOFS, EXITING refinement loop" *)
| InfoReachedAccuracy (k : Z). (* "error reached requested accuracy, xi=%f" *)

Record DoRefinement : Type := {
  RES : bool;
  PROJ : bool;
  MI : bool;
}.

(** The keyword arguments that steer the loop. *)
Record Params : Type := {
  tuning : Tuning;
  error_eps : Q;
  max_refinements : Z;
  max_dof : Q;
  do_refinement : DoRefinement;
  do_uniform_refinement : bool;
}.

(** What the loop works on: [w], the two caller-owned lists and the
    events so far.  The history holds the value of [w] at the time of the
    append. *)
Record LoopState : Type := {
  ls_w : MV;
  ls_w_history : option (list MV);
  ls_sim_stats : list Stats;
  ls_trace : list Event;
}.

Definition pcg_solve (p : Params) (w : MV) (stats : Stats) : MV * Q * Stats :=
  let b := prepare_rhs w in
  let '(w, zeta, numit) := pcg (tuning p) b w in
  let b2 := operator_A w in
  let stats := <[ "L2"%string := VNum (error_norm_L2 b b2) ]> stats in
  let stats := <[ "H1"%string := VNum (error_norm_energy b b2) ]> stats in
  let stats := <[ "DOFS"%string := VNum (inject_Z (dofs b)) ]> stats in
  let stats := <[ "CELLS"%string := VNum (inject_Z (cells b)) ]> stats in
  (w, zeta, stats).

(** [start_iteration = max(len(sim_stats) - 1, 0)] *)
Definition start_iteration (sim_stats : list Stats) : Z :=
  Z.max (Z.of_nat (length sim_stats) - 1) 0.

(** [refinement == 0 or start_iteration < refinement] *)
Definition records (start refinement : Z) : bool :=
  (refinement =? 0) || (start <? refinement).

(** The statistics of the estimate, written after [stats.update]. *)
Definition estimate_stats (w : MV) (xi : Q) (resind projind : Indicators)
    (estparts errors : Q * Q * Q) (stats : Stats) : Stats :=
  let '(res_part, proj_part, pcg_part) := estparts in
  let '(err_res, err_proj, err_pcg) := errors in
  let stats := <[ "EST"%string := VNum xi ]> stats in
  let stats := <[ "RES-PART"%string := VNum res_part ]> stats in
  let stats := <[ "PROJ-PART"%string := VNum proj_part ]> stats in
  let stats := <[ "PCG-PART"%string := VNum pcg_part ]> stats in
  let stats := <[ "ERR-RES"%string := VNum err_res ]> stats in
  let stats := <[ "ERR-PROJ"%string := VNum err_proj ]> stats in
  let stats := <[ "ERR-PCG"%string := VNum err_pcg ]> stats in
  let stats := <[ "ETA-ERR"%string := VNum err_res ]> stats in
  let stats := <[ "DELTA-ERR"%string := VNum err_proj ]> stats in
  let stats := <[ "ZETA-ERR"%string := VNum err_pcg ]> stats in
  let stats := <[ "RES-mu"%string := VObj (errors_by_mu resind) ]> stats in
  let stats := <[ "PROJ-mu"%string := VObj (errors_by_mu projind) ]> stats in
  let stats := <[ "PROJ-MAX-ZETA"%string := VNum 0 ]> stats in
  let stats := <[ "PROJ-MAX-INACTIVE-ZETA"%string := VNum 0 ]> stats in
  let stats := <[ "MARKING-RES"%string := VNum 0 ]> stats in
  let stats := <[ "MARKING-PROJ"%string := VNum 0 ]> stats in
  let stats := <[ "MARKING-MI"%string := VNum 0 ]> stats in
  let stats := <[ "TIME-MARKING"%string := VNum 0 ]> stats in
  <[ "MI"%string := VObj (mv_items w) ]> stats.

(** What the first half of a round leaves for the second half. *)
Record Estimated : Type := {
  es_state : LoopState;
  es_xi : Q;
  es_resind : Indicators;
  es_projind : Indicators;
  es_mierror : Indicators;
  es_stats : Stats;       (* the dictionary [stats] *)
  es_recorded : bool;     (* whether [stats] is the last record of [sim_stats] *)
}.

(** The first half of round [refinement]: PCG solve, error evaluation and
    the statistics. *)
Definition solve_and_estimate (p : Params) (start refinement : Z)
    (st : LoopState) : Estimated :=
(* pcg solve *)
let stats : Stats := ∅ in
let '(w, zeta, stats) := pcg_solve p (ls_w st) stats in
let stats := <[ "TIME-PCG"%string := VNum (elapsed_pcg refinement) ]> stats in
let trace := ls_trace st ++ [EvPcgSolve refinement] in
let w_history :=
  match ls_w_history st with
  | Some h => if records start refinement then Some (h ++ [w]) else Some h
  | None => None
  end in
(* error evaluation *)
let '(xi, resind, projind, mierror, estparts, errors, timing_stats) :=
  evaluateError (tuning p) w zeta in
let stats :=
  <[ "TIME-ESTIMATOR"%string := VNum (elapsed_estimator refinement) ]> stats in
let trace := trace ++ [EvEvaluateError refinement] in
let stats := timing_stats ∪ stats in            (* stats.update(timing_stats) *)
let stats := estimate_stats w xi resind projind estparts errors stats in
let sim_stats :=
  if records start refinement then ls_sim_stats st ++ [stats]
  else ls_sim_stats st in
{| es_state := {| ls_w := w; ls_w_history := w_history;
                  ls_sim_stats := sim_stats; ls_trace := trace |};
   es_xi := xi; es_resind := resind; es_projind := projind;
   es_mierror := mierror; es_stats := stats;
   es_recorded := records start refinement |}.

(** [l[i]]: a negative index counts from the end. *)
Definition list_getitem {A} (l : list A) (i : Z) : Result A :=
  let j := if i <? 0 then Z.of_nat (length l) + i else i in
  if j <? 0 then Raise IndexError
  else match l !! Z.to_nat j with
       | Some x => Ok x
       | None => Raise IndexError
       end.

(** [sim_stats[i][key]] *)
Definition stats_getitem (sim_stats : list Stats) (i : Z) (key : string)
    : Result StatVal :=
  record <~ list_getitem sim_stats i ;;
  match record !! key with
  | None => Raise KeyError
  | Some v => Ok v
  end.

(** The three exits of a round. *)
Inductive Exit : Set := SKIPPING | REACHED_DOFS | REACHED_ACCURACY.

Definition exit_event (e : Exit) (k : Z) : Event :=
  match e with
  | SKIPPING => InfoSkippingRefinement k
  | REACHED_DOFS => InfoReachedDofs k
  | REACHED_ACCURACY => InfoReachedAccuracy k
  end.

(** The exit checks, in the order of the code. *)
Definition exit_checks (p : Params) (refinement : Z) (sim_stats : list Stats)
    (xi : Q) : Result (option Exit) :=
  if max_refinements p <? refinement then Ok (Some SKIPPING)
  else
    d <~ stats_getitem sim_stats refinement "DOFS" ;;
    if val_ge d (max_dof p) then Ok (Some REACHED_DOFS)
    else if Qle_bool xi (error_eps p) then Ok (Some REACHED_ACCURACY)
    else Ok None.

(** [sim_stats[-1][key] = v] *)
Definition set_last (key : string) (v : StatVal) (sim_stats : list Stats)
    : Result (list Stats) :=
  match reverse sim_stats with
  | [] => Raise IndexError
  | record :: rest => Ok (reverse rest ++ [<[ key := v ]> record])
  end.

(** [stats[key] = v]: [stats] is the last record when it has been appended,
    and a dictionary of its own otherwise. *)
Definition set_stats (recorded : bool) (key : string) (v : StatVal)
    (sim_stats : list Stats) : Result (list Stats) :=
  if recorded then set_last key v sim_stats else Ok sim_stats.

(** [sum([len(cell_ids) for cell_ids in markers.itervalues()])] *)
Definition count_marked (markers : gmap Multiindex.t (gset nat)) : Z :=
  foldr (λ kv acc, Z.of_nat (size kv.2) + acc) 0 (map_to_list markers).

(** The markers of the projection added to [mesh_markers]; a
    multi-index without markers so far starts from the empty set, as in a
    [defaultdict(set)]. *)
Definition add_projection_markers
    (mesh_markers markers_P : gmap Multiindex.t (gset nat))
    : gmap Multiindex.t (gset nat) :=
  foldl (λ acc kv,
           if decide (0 < size kv.2)%nat
           then <[ kv.1 := default ∅ (acc !! kv.1) ∪ kv.2 ]> acc
           else acc)
        mesh_markers (map_to_list markers_P).

(** The second half of a round that has passed the exit checks and has
    [refinement < max_refinements]: marking and refinement. *)
Definition mark_and_refine (p : Params) (refinement : Z) (es : Estimated)
    : Result LoopState :=
  let st := es_state es in
  let w := ls_w st in
  r <~ (if negb (do_uniform_refinement p) then
          let '(mesh_markers_R, mesh_markers_P, new_multiindices, proj_zeta,
                new_multiindices_all) :=
            mark (tuning p) (es_resind es) (es_projind es) (es_mierror es)
                 (mv_max_order_of w) (es_xi es) in
          let trace := ls_trace st ++ [EvMark refinement] in
          sim_stats <~ set_last "PROJ-MAX-ZETA" (VNum proj_zeta.1)
                                (ls_sim_stats st) ;;
          sim_stats <~ set_last "PROJ-MAX-INACTIVE-ZETA" (VNum proj_zeta.2)
                                sim_stats ;;
          sim_stats <~ set_last "PROJ-INACTIVE-ZETA" (VObj new_multiindices_all)
                                sim_stats ;;
          sim_stats <~ set_stats (es_recorded es) "MARKING-RES"
                         (VNum (inject_Z (count_marked mesh_markers_R)))
                         sim_stats ;;
          sim_stats <~ set_stats (es_recorded es) "MARKING-PROJ"
                         (VNum (inject_Z (count_marked mesh_markers_P)))
                         sim_stats ;;
          sim_stats <~ set_stats (es_recorded es) "MARKING-MI"
                         (VNum (inject_Z (Z.of_nat
                            (length (new_indices_keys new_multiindices)))))
                         sim_stats ;;
          let mesh_markers :=
            if RES (do_refinement p) then mesh_markers_R else ∅ in
          let mesh_markers :=
            if PROJ (do_refinement p)
            then add_projection_markers mesh_markers mesh_markers_P
            else mesh_markers in
          let new_multiindices :=
            if negb (MI (do_refinement p)) || (refinement =? max_refinements p)
            then new_indices_empty else new_multiindices in
          Ok (mesh_markers, new_multiindices, sim_stats, trace)
        else
          let mesh_markers : gmap Multiindex.t (gset nat) :=
            foldl (λ acc mu, <[ mu := list_to_set (all_cells w mu) ]> acc)
                  ∅ (mv_keys w) in
          Ok (mesh_markers, new_indices_empty, ls_sim_stats st, ls_trace st)) ;;
  let '(mesh_markers, new_multiindices, sim_stats, trace) := r in
(* carry out refinement of meshes *)
let w := refine w mesh_markers (new_indices_keys new_multiindices) in
let trace := trace ++ [EvRefine refinement] in
sim_stats <~ set_stats (es_recorded es) "TIME-MARKING"
               (VNum (elapsed_marking refinement)) sim_stats ;;
Ok {| ls_w := w; ls_w_history := ls_w_history st;
      ls_sim_stats := sim_stats; ls_trace := trace |}.

(** One round of the loop: the exit taken, if any, and the state. *)
Definition iteration (p : Params) (start refinement : Z) (st : LoopState)
    : Result (option Exit * LoopState) :=
  let es := solve_and_estimate p start refinement st in
  let st := es_state es in
(* exit when either error threshold or max_refinements or max_dof is reached *)
e <~ exit_checks p refinement (ls_sim_stats st) (es_xi es) ;;
match e with
| Some e =>
    Ok (Some e,
        {| ls_w := ls_w st; ls_w_history := ls_w_history st;
           ls_sim_stats := ls_sim_stats st;
           ls_trace := ls_trace st ++ [exit_event e refinement] |})
| None =>
(* marking *)
if refinement <? max_refinements p then
  st <~ mark_and_refine p refinement es ;; Ok (None, st)
else Ok (None, st)
end.

(** [for refinement in ks: ..]: the last value of [refinement] ([last] when
    there was no round), the exit taken, and the state. *)
Fixpoint loop (p : Params) (start : Z) (ks : list Z) (last : option Z)
    (st : LoopState) : Result (option Z * option Exit * LoopState) :=
  match ks with
  | [] => Ok (last, None, st)
  | k :: ks' =>
      r <~ iteration p start k st ;;
      match r with
      | (Some e, st) => Ok (Some k, Some e, st)
      | (None, st) => loop p start ks' (Some k) st
      end
  end.

(** The arguments of the message after the loop, evaluated when
    [refinement] is neither [None] nor 0. *)
Definition final_message (refinement : option Z) (sim_stats : list Stats)
    : Result unit :=
  match refinement with
  | None => Ok tt
  | Some k =>
      if k =? 0 then Ok tt
      else
        _ <~ stats_getitem sim_stats k "DOFS" ;;
        mi <~ stats_getitem sim_stats k "MI" ;;
        match mi with
        | inr _ => Ok tt                  (* [len] of a list *)
        | inl _ => Raise TypeError        (* [len] of a number *)
        end
  end.

Definition AdaptiveSolver (p : Params) (w0 : MV)
    (w_history : option (list MV)) (sim_stats : option (list Stats))
    : Result (MV * list Stats * option (list MV) * list Event * option Exit) :=
(* setup w and statistics *)
let w := w0 in
sim_stats <~ match sim_stats with
             | None =>
                 match w_history with
                 | None | Some [] => Ok []
                 | Some (_ :: _) => Raise AssertionError
                 end
             | Some l => Ok l
             end ;;
let start := start_iteration sim_stats in
r <~ loop p start (range start (max_refinements p + 1)) None
       {| ls_w := w; ls_w_history := w_history;
          ls_sim_stats := sim_stats; ls_trace := [] |} ;;
let '(refinement, exit, st) := r in
_ <~ final_message refinement (ls_sim_stats st) ;;
Ok (ls_w st, ls_sim_stats st, ls_w_history st, ls_trace st, exit).

(** The calls of the collaborators among the events. *)
Definition is_call (e : Event) : bool :=
  match e with
  | EvPcgSolve _ | EvEvaluateError _ | EvMark _ | EvRefine _ => true
  | _ => false
  end.

Definition is_marking_call (e : Event) : bool :=
  match e with
  | EvMark _ | EvRefine _ => true
  | _ => false
  end.

Definition calls (tr : list Event) : list Event :=
  filter (λ e, is_call e = true) tr.

Definition marking_calls (tr : list Event) : list Event :=
  filter (λ e, is_marking_call e = true) tr.

(** The rounds that were started: the [k] of the PCG solves, in order. *)
Definition solved (tr : list Event) : list Z :=
  omap (λ e, match e with EvPcgSolve k => Some k | _ => None end) tr.

(** The events of the second half of a round that marks and refines. *)
Definition marking_events (p : Params) (k : Z) : list Event :=
  (if negb (do_uniform_refinement p) then [EvMark k] else []) ++ [EvRefine k].

(** The events of a round after the error evaluation: the message of the
    exit taken, or the marking and refinement. *)
Definition round_events (p : Params) (k : Z) (e : option Exit) : list Event :=
  match e with
  | Some e => [exit_event e k]
  | None => if k <? max_refinements p then marking_events p k else []
  end.

(** The number of rounds among [ks] that append a record. *)
Definition appended (start : Z) (ks : list Z) : nat :=
  length (filter (λ k, k = 0 ∨ start < k) ks).

Definition hist_len (h : option (list MV)) : nat :=
  match h with Some l => length l | None => 0%nat end.

End AdaptiveSolver.
End adaptive_solver.

(** A solver environment on which runs can be computed: a MultiVector is
    its number of degrees of freedom, a refinement doubles it, and the
    estimate is the reciprocal of the number of degrees of freedom. *)
Module Solver1D.

#[export] Instance env : SolverEnv := {|
  MV := Z;
  Payload := unit;
  Indicators := unit;
  NewIndices := unit;
  Tuning := unit;
  prepare_rhs := λ w, w;
  pcg := λ _ b w, (w, (1 # 100)%Q, 3%nat);
  operator_A := λ w, w;
  error_norm_L2 := λ _ _, 0%Q;
  error_norm_energy := λ _ _, 0%Q;
  dofs := λ w, w;
  cells := λ w, w;
  mv_items := λ _, tt;
  mv_keys := λ _, [Multiindex.zero];
  mv_max_order_of := λ _, 0%nat;
  all_cells := λ _ _, [0%nat];
  evaluateError := λ _ w zeta,
    ((1 / inject_Z w)%Q, tt, tt, tt, (0%Q, 0%Q, zeta), (0%Q, 0%Q, zeta),
     {[ "TIME-RESIDUAL"%string := inl 1%Q ]});
  errors_by_mu := λ _, tt;
  mark := λ _ _ _ _ _ _,
    ({[ Multiindex.zero := {[ 0%nat ]} ]}, ∅, tt, (0%Q, 0%Q), tt);
  new_indices_keys := λ _, [];
  new_indices_empty := tt;
  refine := λ w _ _, (2 * w)%Z;
  elapsed_pcg := λ _, 1%Q;
  elapsed_estimator := λ _, 1%Q;
  elapsed_marking := λ _, 1%Q;
|}.

Definition params (eps : Q) (max_ref : Z) (max_dof : Q) : adaptive_solver.Params :=
  {| adaptive_solver.tuning := tt;
     adaptive_solver.error_eps := eps;
     adaptive_solver.max_refinements := max_ref;
     adaptive_solver.max_dof := max_dof;
     adaptive_solver.do_refinement :=
       {| adaptive_solver.RES := true; adaptive_solver.PROJ := true;
          adaptive_solver.MI := false |};
     adaptive_solver.do_uniform_refinement := false |}.

(** The events and the lengths of the two lists after a run. *)
Definition summary
    (r : Result (MV * list (gmap string (Q + Payload)) * option (list MV)
                 * list adaptive_solver.Event * option adaptive_solver.Exit))
    : option (list adaptive_solver.Event * nat * option nat
              * option adaptive_solver.Exit) :=
  match r with
  | Ok (_, sim_stats, w_history, trace, exit) =>
      Some (trace, length sim_stats, length <$> w_history, exit)
  | Raise _ => None
  end.

(** The statistics and solutions of three earlier rounds, of which a
    record keeps the number of degrees of freedom only. *)
Definition earlier_stats : list (gmap string (Q + Payload)) :=
  [ {[ "DOFS"%string := inl 4%Q ]}; {[ "DOFS"%string := inl 8%Q ]};
    {[ "DOFS"%string := inl 16%Q; "MI"%string := inr tt ]} ].

Definition earlier_history : list MV := [4%Z; 8%Z; 16%Z].

Definition earlier_w : MV := 16%Z.

End Solver1D.

(* ===================================================================== *)
(** * [polyquad/_polynomials.py]: evaluation and transformed recurrences *)

(** [for x in l: acc = body(acc, x)] in a computation that may raise. *)
Fixpoint rfold {A C} (l : list A) (acc : C) (body : C → A → Result C)
    : Result C :=
  match l with
  | [] => Ok acc
  | x :: l' => acc <~ body acc x ;; rfold l' acc body
  end.

(** What a function leaves whose [return] reads a local variable: a result
    or a built-in exception, or the [UnboundLocalError] of a variable that no
    statement has assigned. *)
Inductive OrUnbound (A : Type) : Type :=
| Done (r : Result A)
| UnboundLocalError.
Arguments Done {A} r.
Arguments UnboundLocalError {A}.

Module polyquad.
Import _polynomials.
Local Open Scope Q_scope.

(** A recurrence function as its callers see it: a call may raise. *)
Definition RCFunc : Type := Z → Result RC.

(** A recurrence function that returns for every [n]. *)
Definition total (rc : Z → RC) : RCFunc := λ n, Ok (rc n).

Definition _0 (x : Q) : Q := 0 * x.
Definition _1 (x : Q) : Q := 0 * x + 1.

(** [rc4_to_rc3] with its divisions checked. *)
Definition rc4_to_rc3 (a : Q * Q * Q * Q) : Result RC :=
  let '(a0, a1, a2, a3) := a in
  r1 <~ py_div a1 a0 ;;
  r2 <~ py_div a2 a0 ;;
  r3 <~ py_div a3 a0 ;;
  Ok (r1, r2, r3).

Definition rc_norm_to_rc3 (rc_norm_func : Z → Result (Q * Q)) : RCFunc :=
  λ n,
    r0 <~ rc_norm_func n ;;
    let '(alpha0, beta0) := r0 in
    r1 <~ rc_norm_func (n + 1)%Z ;;
    let '(_, beta1) := r1 in
    a <~ py_div (- alpha0) beta1 ;;
    b <~ py_div 1 beta1 ;;
    c <~ py_div beta0 beta1 ;;
    Ok (a, b, c).

(** [sqnorm_from_rc] for a recurrence function that may raise, with its
    division checked. *)
Definition sqnorm_from_rc (rc_func : RCFunc) (n : Z) : Result Q :=
  r0 <~ rc_func 0%Z ;;
  let b0 := rc_b r0 in
  rn <~ rc_func n ;;
  let bn := rc_b rn in
  h <~ py_div b0 bn ;;
  rfold (range 1 (n + 1)) h
    (λ h i, ri <~ rc_func i ;; let c := rc_c ri in Ok (h * c)).

Section Normalise.
(** [x ** 0.5] *)
Variable pow_half : Q → Result Q.

Definition normalise_rc (rc_func : RCFunc)
    (sqnorm_func : option (Z → Result Q)) : RCFunc :=
  let sqnorm_func :=
    match sqnorm_func with
    | None => λ n, sqnorm_from_rc rc_func n
    | Some f => f
    end in
  λ n,
    r <~ rc_func n ;;
    let '(a, b, c) := r in
    s2 <~ sqnorm_func (n + 1)%Z ;;
    h2 <~ pow_half s2 ;;
    s1 <~ sqnorm_func n ;;
    h1 <~ pow_half s1 ;;
    h0 <~ (if (0 <? n)%Z then
             s0 <~ sqnorm_func (n - 1)%Z ;; pow_half s0
           else Ok 0) ;;
    ra <~ py_div (a * h1) h2 ;;
    rb <~ py_div (b * h1) h2 ;;
    rc <~ py_div (c * h0) h2 ;;
    Ok (ra, rb, rc).
End Normalise.

Definition rc_shift_scale (rc_func : RCFunc) (shift scale : Q) : RCFunc :=
  λ n,
    r <~ rc_func n ;;
    let '(a, b, c) := r in
    t <~ py_div (b * shift) scale ;;
    b' <~ py_div b scale ;;
    Ok (a - t, b', c).

Definition rc_window_trans (rc_func : RCFunc) (old_domain new_domain : Q * Q)
    : Result RCFunc :=
  let '(a0, b0) := old_domain in
  let '(a1, b1) := new_domain in
  let shift := (1 # 2) * ((a1 + b1) - (a0 + b0)) in
  scale <~ py_div (a1 - b1) (a0 - b0) ;;
  Ok (rc_shift_scale rc_func shift scale).

(** The polynomials at a number [x]. *)
Definition compute_poly (rc_func : RCFunc) (n : Z) (x : Q) : Result (list Q) :=
  f <~ rfold (range 0 n) [_0 x; _1 x]
         (λ f i,
            r <~ rc_func i ;;
            let '(a, b, c) := r in
            fi1 <~ adaptive_solver.list_getitem f (i + 1)%Z ;;
            fi <~ adaptive_solver.list_getitem f i ;;
            let fn := (x * b + a) * fi1 - c * fi in
            Ok (f ++ [fn])) ;;
  Ok (drop 1 f).

Definition _compute_poly2 (rc_func : RCFunc) (n : Z) (x : Q) : Result Q :=
  if (n =? 0)%Z then
    Ok (_1 x)
  else
    h <~ rfold (range 0 n) (1, 0)
           (λ h i,
              let '(h1, h0) := h in
              r <~ rc_func i ;;
              let '(a, b, c) := r in
              Ok ((x * b + a) * h1 - c * h0, h1)) ;;
    Ok h.1.

(** Clenshaw's algorithm.  [q0] is assigned in the loop only. *)
Definition eval_clenshaw (rc_func : RCFunc) (coeffs : list Q) (x : Q)
    : OrUnbound Q :=
  let q1 := _0 x in
  let q2 := _0 x in
  let n := (Z.of_nat (length coeffs) - 1)%Z in
  match
    rfold (reverse (range 0 (n + 1))) (None, q1, q2)
      (λ (q : option Q * Q * Q) k,
         let '(_, q1, q2) := q in
         rk <~ rc_func k ;;
         let '(ak, bk, _) := rk in
         rk2 <~ rc_func (k + 1)%Z ;;
         let '(_, _, ck2) := rk2 in
         ck <~ adaptive_solver.list_getitem coeffs k ;;
         let q0 := ck + (ak + bk * x) * q1 - ck2 * q2 in
         Ok (Some q0, q0, q1))
  with
  | Raise e => Done (Raise e)
  | Ok (Some q0, _, _) => Done (Ok q0)
  | Ok (None, _, _) => UnboundLocalError
  end.

(** Forsythe's algorithm. *)
Definition eval_forsythe (rc_func : RCFunc) (coeffs : list Q) (x : Q)
    : Result Q :=
  let n := (Z.of_nat (length coeffs) - 1)%Z in
  let t0 := _1 x in
  f0 <~ adaptive_solver.list_getitem coeffs 0%Z ;;
  if (n <? 1)%Z then Ok f0
  else
    r0 <~ rc_func 0%Z ;;
    let '(a0, b0, _) := r0 in
    let t1 := a0 + b0 * x in
    c1 <~ adaptive_solver.list_getitem coeffs 1%Z ;;
    let f1 := f0 + c1 * t1 in
    let f2 := f1 in
    s <~ rfold (range 1 n) (t0, t1, f1, f2)
           (λ (s : Q * Q * Q * Q) k,
              let '(t0, t1, f1, f2) := s in
              rk <~ rc_func k ;;
              let '(ak, bk, ck) := rk in
              let t2 := (ak + bk * x) * t1 - ck * t0 in
              ck1 <~ adaptive_solver.list_getitem coeffs (k + 1)%Z ;;
              let f2 := f1 + ck1 * t2 in
              Ok (t1, t2, f2, f2)) ;;
    let '(_, _, _, f2) := s in
    Ok f2.

(** Monomials *)
Definition rc_monomials (n : Z) : RC := (0, 1, 0).

(** The structure coefficients of the stochastic Hermite polynomials for
    integers [a], [b], [c]; [s /= 2] is the division of integers. *)
Definition stc_stoch_hermite (a b c : Z) (triple : bool) : Result Q :=
  let s := (a + b + c)%Z in
  if negb (s mod 2 =? 0)%Z || (b + c <? a)%Z || (a + c <? b)%Z
     || (a + b <? c)%Z
  then Ok 0
  else
    let s := (s / 2)%Z in
    let fac := λ n, inject_Z (factorial n) in
    factor <~ (if negb triple then py_div 1 (sqnorm_stoch_hermite c)
               else Ok 1) ;;
    py_div (fac a * fac b * fac c * factor)
           (fac (s - a)%Z * fac (s - b)%Z * fac (s - c)%Z).

(** Jacobi polynomials; [n = float(n)]. *)
Definition rc_jacobi (n : Z) (alpha beta : Q) : Result RC :=
  let n := inject_Z n in
  if Qeq_bool n 0 then
    let a := (alpha - beta) / 2 in
    let b := (alpha + beta + 2) / 2 in
    let c := 0 in
    Ok (a, b, c)
  else
    let a1 := 2 * (n + 1) * (n + alpha + beta + 1) * (2 * n + alpha + beta) in
    let a2 := (2 * n + alpha + beta + 1) * (alpha * alpha - beta * beta) in
    let a3 := (2 * n + alpha + beta + 1) * (2 * n + alpha + beta)
              * (2 * n + alpha + beta + 2) in
    let a4 := 2 * (n + alpha) * (n + beta) * (2 * n + alpha + beta + 2) in
    rc4_to_rc3 (a1, a2, a3, a4).

(** Chebyshev polynomials of the first and of the second kind on [-1,1] *)
Definition rc_chebyshev_t (n : Z) : RC :=
  if (n =? 0)%Z then (0, 1, 0) else (0, 2, 1).

Definition rc_chebyshev_u (n : Z) : RC :=
  if (n =? 0)%Z then (0, 2, 0) else (0, 2, 1).

(** *** The polynomials of a recurrence, for the statements *)

(** [(p_k(x), p_{k-1}(x))] of a recurrence that returns for every [n], with
    [p_{-1} = 0 * x] and [p_0 = 0 * x + 1] as in [compute_poly]. *)
Fixpoint poly_pair (rc : Z → RC) (x : Q) (k : nat) : Q * Q :=
  match k with
  | O => (_1 x, _0 x)
  | S k' =>
      let '(p, p') := poly_pair rc x k' in
      let '(a, b, c) := rc (Z.of_nat k') in
      ((x * b + a) * p - c * p', p)
  end.

Definition poly (rc : Z → RC) (x : Q) (k : nat) : Q := (poly_pair rc x k).1.

(** [sum(coeffs[k] * p[k])] *)
Definition expansion (coeffs p : list Q) : Q :=
  foldr Qplus 0 (zip_with Qmult coeffs p).

(** The recurrence of [rc_shift_scale] where [scale] is not zero. *)
Definition shifted_scaled (rc : Z → RC) (shift scale : Q) : Z → RC :=
  λ n, let '(a, b, c) := rc n in (a - b * shift / scale, b / scale, c).

(** The recurrence of [normalise_rc] where the powers [h n] of the squared
    norms exist and the divisors are not zero. *)
Definition normalised (rc : Z → RC) (h : Z → Q) : Z → RC :=
  λ n, let '(a, b, c) := rc n in
       (a * h n / h (n + 1)%Z, b * h n / h (n + 1)%Z,
        c * (if (0 <? n)%Z then h (n - 1)%Z else 0) / h (n + 1)%Z).

End polyquad.

(** Two results that agree up to the equality of the rationals. *)
Inductive Req : Result Q → Result Q → Prop :=
| Req_Ok (p q : Q) : (p == q)%Q → Req (Ok p) (Ok q)
| Req_Raise (e : PyError) : Req (Raise e) (Raise e).

(** Two triples of recurrence coefficients that agree up to the equality of the
    rationals. *)
Definition RCeq (r s : _polynomials.RC) : Prop :=
  (r.1.1 == s.1.1 ∧ r.1.2 == s.1.2 ∧ r.2 == s.2)%Q.

(* ===================================================================== *)
(** * [polyquad/polynomials.py]: the families *)

Module polynomials.
Import _polynomials.
Local Open Scope Q_scope.

Section Families.
(** [x ** 0.5] and [math.sqrt(x)] *)
Variable pow_half : Q → Result Q.
Variable math_sqrt : Q → Result Q.

(** [BasePolynomialFamily]; [None] for an attribute that holds [None] or
    [NotImplemented]. *)
Record BasePolynomialFamily : Type := {
  _rc_func : polyquad.RCFunc;
  _sqnorm_func : option (Z → Result Q);
  _sc_func : option (Z → Z → Z → Result Q);
  _normalised : bool;
}.

Definition __init__ (rc_func : polyquad.RCFunc)
    (sqnorm_func : option (Z → Result Q))
    (sc_func : option (Z → Z → Z → Result Q)) (normalised : bool)
    : BasePolynomialFamily :=
  let sqnorm_func :=
    match sqnorm_func with
    | None => λ n, polyquad.sqnorm_from_rc rc_func n
    | Some f => f
    end in
  {| _rc_func := rc_func; _sqnorm_func := Some sqnorm_func;
     _sc_func := sc_func; _normalised := normalised |}.

Definition normalise (self : BasePolynomialFamily) : BasePolynomialFamily :=
  let rc_func :=
    polyquad.normalise_rc pow_half (_rc_func self) (_sqnorm_func self) in
  {| _rc_func := rc_func; _sqnorm_func := None;
     _sc_func := None; _normalised := true |}.

Definition recurrence_coefficients (self : BasePolynomialFamily) (n : Z)
    : Result RC :=
  _rc_func self n.

(** A call of [NotImplemented] or of [None] is a [TypeError]. *)
Definition get_structure_coefficient (self : BasePolynomialFamily)
    (a b c : Z) : Result Q :=
  match _sc_func self with
  | Some f => f a b c
  | None => Raise TypeError
  end.

Definition norm (self : BasePolynomialFamily) (n : Z) (sqrt : bool)
    : Result Q :=
  if _normalised self then Ok 1
  else
    match _sqnorm_func self with
    | None => Raise TypeError
    | Some f =>
        if sqrt then s <~ f n ;; math_sqrt s
        else f n
    end.

(** [PolynomialFamily.eval]: the last of the values of [compute_poly]. *)
Definition eval (self : BasePolynomialFamily) (n : Z) (x : Q) : Result Q :=
  l <~ polyquad.compute_poly (recurrence_coefficients self) n x ;;
  adaptive_solver.list_getitem l (-1)%Z.

(** [StochasticHermitePolynomials(mu, sigma, normalised)] *)
Definition StochasticHermitePolynomials (mu sigma : Q) (normalised : bool)
    : BasePolynomialFamily :=
  let rc_func := polyquad.total rc_stoch_hermite in
  let rc_func :=
    if negb (Qeq_bool mu 0) || negb (Qeq_bool sigma 1)
    then polyquad.rc_shift_scale rc_func mu sigma
    else rc_func in
  let self := __init__ rc_func None None false in
  if normalised then normalise self else self.

End Families.

(** [LegendrePolynomials(a, b, normalised)] *)
Record LegendrePolynomials : Type := {
  _a : Q;
  _b : Q;
  legendre_normalised : bool;
}.

Definition legendre_recurrence_coefficients (self : LegendrePolynomials)
    (n : Z) : RC :=
  rc_legendre n.

Definition legendre_norm (self : LegendrePolynomials) (n : Z) (sqrt : bool)
    : Q :=
  if legendre_normalised self then 1 else sqnorm_legendre n.

Definition legendre_eval (self : LegendrePolynomials) (n : Z) (x : Q)
    : Result Q :=
  l <~ polyquad.compute_poly
         (polyquad.total (legendre_recurrence_coefficients self)) n x ;;
  adaptive_solver.list_getitem l (-1)%Z.

End polynomials.

(* ===================================================================== *)
(** * [stochastics/random_variable.py]: the parameters of the distributions *)

Module random_variable.
Local Open Scope Q_scope.

(** A frozen SciPy distribution: its location and its scale;
    [scipy.stats.uniform(loc, scale)] is the uniform distribution on
    [[loc, loc + scale]]. *)
Record Frozen : Type := {
  dist_loc : Q;
  dist_scale : Q;
}.

Module NormalRV.
Record t : Type := {
  _dist : Frozen;
  mu : Q;
  sigma : Q;
}.

Definition __init__ (mu sigma : Q) : t :=
  {| _dist := {| dist_loc := mu; dist_scale := sigma |};
     mu := mu; sigma := sigma |}.

Definition shift (self : t) (delta : Q) : t :=
  __init__ (mu self + delta) (sigma self).

Definition scale (self : t) (scale : Q) : t :=
  __init__ (mu self) (sigma self * scale).

Definition orth_polys (pow_half : Q → Result Q) (self : t)
    : polynomials.BasePolynomialFamily :=
  polynomials.StochasticHermitePolynomials pow_half (mu self) (sigma self)
    true.
End NormalRV.

Module UniformRV.
Record t : Type := {
  a : Q;
  b : Q;
  _dist : Frozen;
}.

(** [loc] is the argument [a], not the attribute. *)
Definition __init__ (a b : Q) : t :=
  let self_a := Qmin2 a b in
  let self_b := Qmax2 a b in
  let loc := a in
  let scale := self_b - self_a in
  {| a := self_a; b := self_b;
     _dist := {| dist_loc := loc; dist_scale := scale |} |}.

Definition shift (self : t) (delta : Q) : t :=
  __init__ (a self + delta) (b self + delta).

Definition scale (self : t) (scale : Q) : t :=
  let m := (1 # 2) * (a self + b self) in
  let d := scale * (1 # 2) * (b self - a self) in
  __init__ (m - d) (m + d).

Definition orth_polys (self : t) : polynomials.LegendrePolynomials :=
  {| polynomials._a := a self; polynomials._b := b self;
     polynomials.legendre_normalised := true |}.
End UniformRV.

(** The deterministic 0 as a dummy random variable *)
Definition DeterministicPseudoRV : NormalRV.t := NormalRV.__init__ 1 0.

End random_variable.

(* ===================================================================== *)
(** * [adaptive_solver.py]: statistics that a later call can read *)

Section ReadableStatistics.
Context `{Env : SolverEnv}.

(** A record of statistics as the loop reads it back: it has a key "DOFS",
    and under the key "MI" a list. *)
Definition readable (record : gmap string adaptive_solver.StatVal) : Prop :=
  is_Some (record !! "DOFS"%string)
  ∧ ∃ o, record !! "MI"%string = Some (adaptive_solver.VObj o).

(** The last of the calls of the collaborators among the events. *)
Definition last_call (tr : list adaptive_solver.Event)
    : option adaptive_solver.Event :=
  last (adaptive_solver.calls tr).

End ReadableStatistics.

(** A power [x ** 0.5] on which examples can be computed: the square root
    rounded down to six decimal places, which is exact for 0 and 1, and the
    [ValueError] of a negative base. *)
Module Roots.

Definition pow_half (x : Q) : Result Q :=
  if Qle_bool 0 x
  then Ok (Z.sqrt (Qfloor (x * 1000000000000)) # 1000000)%Q
  else Raise ValueError.

(** The powers of the squared norms [k!] of the stochastic Hermite
    polynomials. *)
Definition h (k : Z) : Q :=
  match pow_half (_polynomials.sqnorm_stoch_hermite k) with
  | Ok r => r
  | Raise _ => 0%Q
  end.

End Roots.

(** The state in which a run resumed with the three records and solutions of
    an earlier run enters its loop. *)
Definition resumed_state : adaptive_solver.LoopState (Env := Solver1D.env) :=
  {| adaptive_solver.ls_w := Solver1D.earlier_w;
     adaptive_solver.ls_w_history := Some Solver1D.earlier_history;
     adaptive_solver.ls_sim_stats := Solver1D.earlier_stats;
     adaptive_solver.ls_trace := [] |}.

(* ===================================================================== *)
(** * [adaptive_solver.py]: the initial vector and the right-hand side *)

(** What [setup_vector] consumes from FEniCS and from the discretisation
    [pde]. *)
Class MeshEnv : Type := {
  FMesh : Type;
  FSpace : Type;
  FVector : Type;
  hmax : FMesh → Q;                            (* [mesh.hmax()] *)
  dolfin_refine : FMesh → FMesh;               (* [refine(mesh)] of dolfin *)
  function_space : FMesh → Z → FSpace;
(* [pde.function_space(mesh, degree=degree)] *)
new_vector : FSpace → FVector;               (* [FEniCSVector(Function(fs))] *)
}.

(** What [prepare_rhs] consumes from the discretisation [pde] and from the
    vectors. *)
Class RhsEnv `{B : Backend} : Type := {
  Coeffs : Type;                               (* a coefficient array *)
  Forcing : Type;                              (* a source function [f] *)
  assemble_rhs : Basis → CoefFun → bool → option Forcing → Coeffs;
(* [pde.assemble_rhs(basis=V, coeff=a, withNeumannBC=n, f=f)];
   [None] where the call leaves the default of [f] *)
set_coeffs : Vec → Coeffs → Vec;             (* [x.coeffs = c]: [x] afterwards *)
vec_copy : Vec → Vec;                        (* [x.copy()] *)
set_dirichlet_bc_entries : Vec → Vec;
(* [pde.set_dirichlet_bc_entries(x, homogeneous=True)]: [x] afterwards *)
zero_function : Basis → Forcing;             (* [zero_function(V._fefs)] *)
}.

Module solver_setup.

Section SetupVector.
Context `{E : MeshEnv}.

(** [while mesh.hmax() > maxh: mesh = refine(old_mesh); old_mesh = mesh]
    for at most [fuel] tests of the condition: the mesh with which the loop
    ends, [None] when the tests are used up. *)
Fixpoint refine_while (fuel : nat) (mesh : FMesh) (maxh : Q) : option FMesh :=
  match fuel with
  | O => None
  | S fuel' =>
      if negb (Qle_bool (hmax mesh) maxh)
      then refine_while fuel' (dolfin_refine mesh) maxh
      else Some mesh
  end.

(** [setup_vector(mesh, pde, degree, maxh)]; [maxh = None] is the default. *)
Definition setup_vector (fuel : nat) (mesh : FMesh) (degree : Z)
    (maxh : option Q) : option FVector :=
  match (match maxh with
         | Some maxh => refine_while fuel mesh maxh
         | None => Some mesh
         end) with
  | Some mesh =>
      let fs := function_space mesh degree in
      let vec := new_vector fs in
      Some vec
  | None => None
  end.

End SetupVector.

Section PrepareRhs.
Context `{R : RhsEnv}.
Local Open Scope py_scope.

(** One round [m] of the loop of [prepare_rhs]. *)
Definition prepare_rhs_round (b : loc) (coeff_field : CoefficientField)
    (zero : Multiindex.t) (zero_func : Forcing) (m : nat) : M unit :=
  let eps_m := Multiindex.inc zero m in
  t <- cf_getitem coeff_field m ;;
  let '(am_f, am_rv) := t in
  let '(beta0, beta1, _) := get_beta am_rv 0 in
  Lambda <- mv_active_indices b ;;
  (if bool_decide (eps_m ∈ Lambda) then
     x <- mv_getitem b eps_m ;;
     let g0 := vec_copy x in
     x <- mv_getitem b eps_m ;;
     let g0 := set_coeffs g0
                 (assemble_rhs (vec_basis x) am_f false (Some zero_func)) in
     let g0 := set_dirichlet_bc_entries g0 in
     x <- mv_getitem b eps_m ;;
     mv_setitem b eps_m (vadd x (vscale beta1 g0))
   else ret tt) ;;;
  x <- mv_getitem b zero ;;
  let g0 := vec_copy x in
  x <- mv_getitem b zero ;;
  let g0 := set_coeffs g0
              (assemble_rhs (vec_basis x) am_f true (Some zero_func)) in
  let g0 := set_dirichlet_bc_entries g0 in
  x <- mv_getitem b zero ;;
  mv_setitem b zero (vadd x (vscale beta0 g0)).

(** [prepare_rhs(A, w, coeff_field, pde)].  The operator [A] is not used.
    The first value of [zero_func], chosen by the rank of [pde.f], is
    overwritten before it is read. *)
Definition prepare_rhs (w : loc) (coeff_field : CoefficientField) : M loc :=
  b <- mv_rmul int_zero w ;;
  let zero := Multiindex.zero in
  x <- mv_getitem b zero ;;
  let c := assemble_rhs (vec_basis x) (mean_func coeff_field) true None in
  x <- mv_getitem b zero ;;
  mv_setitem b zero (set_coeffs x c) ;;;
  x <- mv_getitem b zero ;;
  let zero_func := zero_function (vec_basis x) in
  max_order <- mv_max_order w ;;
  for_each (seq 0 max_order)
    (prepare_rhs_round b coeff_field zero zero_func) ;;;
  ret b.

(** The term that a round adds to a component [y]: the coefficient
    [beta] times the assembled right-hand side of [am_f] on the basis of
    [y], with the Dirichlet entries set. *)
Definition rhs_term (y : Vec) (am_f : CoefFun) (neumann : bool)
    (zero_func : Forcing) (beta : Scalar) : Vec :=
  vscale beta
    (set_dirichlet_bc_entries
       (set_coeffs (vec_copy y)
          (assemble_rhs (vec_basis y) am_f neumann (Some zero_func)))).

(** The component of the zero multi-index before the loop, for the
    component [x0] of [w]. *)
Definition rhs_mean (coeff_field : CoefficientField) (x0 : Vec) : Vec :=
  let z := vscale int_zero x0 in
  set_coeffs z (assemble_rhs (vec_basis z) (mean_func coeff_field) true None).

(** The component of the zero multi-index after the rounds [ms], from the
    component [y] before them. *)
Definition rhs_zero_after (coeff_field : CoefficientField)
    (zero_func : Forcing) (y : Vec) (ms : list nat) : Vec :=
  foldl (λ y m,
           match cf_terms coeff_field !! m with
           | Some (am_f, am_rv) =>
               vadd y (rhs_term y am_f true zero_func (get_beta am_rv 0).1.1)
           | None => y
           end) y ms.

(** The dictionary of [b] after the round [m], from the one before it. *)
Definition rhs_round (coeff_field : CoefficientField) (zero_func : Forcing)
    (V : gmap Multiindex.t Vec) (m : nat) : gmap Multiindex.t Vec :=
  match cf_terms coeff_field !! m with
  | Some (am_f, am_rv) =>
      let eps_m := Multiindex.inc Multiindex.zero m in
      let V1 :=
        match V !! eps_m with
        | Some y =>
            <[ eps_m := vadd y (rhs_term y am_f false zero_func
                                  (get_beta am_rv 0).1.2) ]> V
        | None => V
        end in
      match V1 !! Multiindex.zero with
      | Some y =>
          <[ Multiindex.zero := vadd y (rhs_term y am_f true zero_func
                                          (get_beta am_rv 0).1.1) ]> V1
      | None => V1
      end
  | None => V
  end.

(** A store in which the object [b] has the dictionary [V]. *)
Definition with_object (s : Store) (b : loc) (V : gmap Multiindex.t Vec)
    : Store :=
  {| heap := <[ b := V ]> (heap s); log := log s |}.

End PrepareRhs.

End solver_setup.

(** Meshes of the unit interval, for concrete runs: a mesh is its cell
    width, a refinement halves it. *)
Module Mesh1D.

#[export] Instance env : MeshEnv := {|
  FMesh := Q;
  FSpace := Q * Z;
  FVector := Q * Z;
  hmax := λ h, h;
  dolfin_refine := λ h, (h / 2)%Q;
  function_space := λ h degree, (h, degree);
  new_vector := λ fs, fs;
|}.

End Mesh1D.

(** Right-hand sides on the one-dimensional backend: the right-hand side of
    a coefficient is the coefficient, plus one with the Neumann boundary
    term. *)
Module Rhs1D.

#[export] Instance env : RhsEnv (B := Scalar1D.backend) :=
  @Build_RhsEnv Scalar1D.backend
    Z                                            (* Coeffs *)
    unit                                         (* Forcing *)
    (λ _ (a : Z) (neumann : bool) _,
       (if neumann then a + 1 else a)%Z)         (* assemble_rhs *)
    (λ _ (c : Z), c)                             (* set_coeffs *)
    (λ x : Z, x)                                 (* vec_copy *)
    (λ x : Z, x)                                 (* set_dirichlet_bc_entries *)
    (λ _, tt).                                   (* zero_function *)

End Rhs1D.

(* ===================================================================== *)
(* ===================================================================== *)
(** * Part II: lemmas and theorems *)

(** ** Multi-indices *)

Module MultiindexFacts.
Import Multiindex.

Lemma getitem_inc_eq (mu : t) (m : nat) :
  getitem (inc mu m) m = S (getitem mu m).
Proof.
  unfold inc. unfold getitem at 1. rewrite lookup_insert_eq.
  apply SuccNat2Pos.id_succ.
Qed.

Lemma getitem_inc_ne (mu : t) (m k : nat) :
  m ≠ k → getitem (inc mu m) k = getitem mu k.
Proof.
  intros Hne. unfold inc. unfold getitem at 1 3.
  by rewrite lookup_insert_ne.
Qed.

Lemma getitem_zero (m : nat) : getitem zero m = 0.
Proof. unfold getitem, zero. by rewrite lookup_empty. Qed.

Lemma getitem_0_lookup (mu : t) (m : nat) :
  getitem mu m = 0 ↔ mu !! m = None.
Proof.
  unfold getitem. destruct (mu !! m) as [d|]; [|done].
  split; [|done]. pose proof (Pos2Nat.is_pos d). lia.
Qed.

Lemma dec_inc (mu : t) (m : nat) : dec (inc mu m) m = Some mu.
Proof.
  unfold dec. rewrite getitem_inc_eq.
  destruct (getitem mu m) as [|d] eqn:Hd.
  - apply getitem_0_lookup in Hd. unfold inc.
    f_equal. rewrite delete_insert_eq. by apply delete_id.
  - f_equal. unfold inc. rewrite insert_insert_eq.
    apply insert_id. unfold getitem in Hd.
    destruct (mu !! m) as [p|]; [|done].
    f_equal. apply Pos2Nat.inj. rewrite SuccNat2Pos.id_succ. done.
Qed.

Lemma dec_None (mu : t) (m : nat) : dec mu m = None ↔ getitem mu m = 0.
Proof.
  unfold dec. destruct (getitem mu m) as [|[|d]]; split; done.
Qed.

Lemma dec_Some_getitem (mu nu : t) (m : nat) :
  dec mu m = Some nu → S (getitem nu m) = getitem mu m.
Proof.
  unfold dec. destruct (getitem mu m) as [|[|d]] eqn:Hd; [done| |].
  - intros [= <-]. unfold getitem at 1. by rewrite lookup_delete_eq.
  - intros [= <-]. unfold getitem at 1. rewrite lookup_insert_eq.
    by rewrite SuccNat2Pos.id_succ.
Qed.

Lemma dec_Some_ne (mu nu : t) (m k : nat) :
  dec mu m = Some nu → m ≠ k → getitem nu k = getitem mu k.
Proof.
  unfold dec. destruct (getitem mu m) as [|[|d]] eqn:Hd; [done| |];
    intros [= <-] Hne; unfold getitem.
  - by rewrite lookup_delete_ne.
  - by rewrite lookup_insert_ne.
Qed.

Lemma inc_ne (mu : t) (m : nat) : inc mu m ≠ mu.
Proof.
  intros Heq. pose proof (getitem_inc_eq mu m) as H.
  rewrite Heq in H. lia.
Qed.

Lemma len_zero : len zero = 0.
Proof. unfold len, zero. by rewrite map_to_list_empty. Qed.

End MultiindexFacts.

(** ** The store monad *)

Section RunsFacts.
Context `{B : Backend}.

Implicit Types (H : gmap loc (gmap Multiindex.t Vec)) (WL : list LogRecord).
Implicit Types (W V : gmap Multiindex.t Vec) (s : Store).

Lemma warnings_app (l1 l2 : list LogRecord) :
  warnings (l1 ++ l2) = warnings l1 ++ warnings l2.
Proof. apply filter_app. Qed.

Lemma St_emit_debug H WL s r :
  is_warning r = false → St H WL s → St H WL (emit [r] s).
Proof.
  intros Hr [Hh Hw]. split; [done|]. simpl.
  rewrite warnings_app, Hw. unfold warnings.
  rewrite filter_cons_False, filter_nil, app_nil_r; [done|].
  by rewrite Hr.
Qed.

Lemma St_emit_warning H WL s r :
  is_warning r = true → St H WL s → St H (WL ++ [r]) (emit [r] s).
Proof.
  intros Hr [Hh Hw]. split; [done|]. simpl.
  rewrite warnings_app, Hw. unfold warnings.
  by rewrite filter_cons_True, filter_nil.
Qed.

Lemma runs_ret {A} (a : A) H WL : runs (ret a) H WL a H WL.
Proof. intros s Hs. by exists s. Qed.

Lemma runs_bind {A C} (c : M A) (k : A → M C) H WL a H1 WL1 b H2 WL2 :
  runs c H WL a H1 WL1 →
  runs (k a) H1 WL1 b H2 WL2 →
  runs (bind c k) H WL b H2 WL2.
Proof.
  intros Hc Hk s Hs. destruct (Hc s Hs) as (s1 & Hrun & Hs1).
  destruct (Hk s1 Hs1) as (s2 & Hrun2 & Hs2).
  exists s2. split; [|done]. unfold bind. by rewrite Hrun.
Qed.

Lemma runs_logger_debug r H WL :
  is_warning r = false → runs (logger r) H WL tt H WL.
Proof.
  intros Hr s Hs. exists (emit [r] s). split; [done|].
  by apply St_emit_debug.
Qed.

Lemma runs_logger_warning r H WL :
  is_warning r = true → runs (logger r) H WL tt H (WL ++ [r]).
Proof.
  intros Hr s Hs. exists (emit [r] s). split; [done|].
  by apply St_emit_warning.
Qed.

Lemma runs_deref w W H WL :
  H !! w = Some W → runs (deref w) H WL W H WL.
Proof.
  intros Hw s Hs. exists s. split; [|done].
  unfold deref. destruct Hs as [-> _]. by rewrite Hw.
Qed.

Lemma runs_getitem w W mu x H WL :
  H !! w = Some W → W !! mu = Some x →
  runs (mv_getitem w mu) H WL x H WL.
Proof.
  intros Hw Hmu. unfold mv_getitem.
  eapply runs_bind; [by apply runs_deref|].
  rewrite Hmu. apply runs_ret.
Qed.

Lemma runs_setitem v V mu x H WL :
  H !! v = Some V →
  runs (mv_setitem v mu x) H WL tt (<[ v := <[ mu := x ]> V ]> H) WL.
Proof.
  intros Hv s [Hh Hw]. unfold mv_setitem. rewrite Hh, Hv.
  eexists. split; [done|]. by split.
Qed.

Lemma runs_setitem_insert v V mu x H WL :
  runs (mv_setitem v mu x) (<[ v := V ]> H) WL tt
       (<[ v := <[ mu := x ]> V ]> H) WL.
Proof.
  pose proof (runs_setitem v V mu x (<[ v := V ]> H) WL) as R.
  rewrite insert_insert_eq in R. apply R. apply lookup_insert_eq.
Qed.

Lemma runs_active_indices w W H WL :
  H !! w = Some W →
  runs (mv_active_indices w) H WL (active_indices W) H WL.
Proof.
  intros Hw. unfold mv_active_indices.
  eapply runs_bind; [by apply runs_deref|]. apply runs_ret.
Qed.

Lemma runs_max_order w W H WL :
  H !! w = Some W → runs (mv_max_order w) H WL (max_order W) H WL.
Proof.
  intros Hw. unfold mv_max_order.
  eapply runs_bind; [by apply runs_deref|]. apply runs_ret.
Qed.

Lemma runs_rmul c w W H WL :
  H !! w = Some W →
  runs (mv_rmul c w) H WL (fresh (dom H))
       (<[ fresh (dom H) := vscale c <$> W ]> H) WL.
Proof.
  intros Hw s [Hh Hwl]. unfold mv_rmul. rewrite Hh, Hw.
  eexists. split; [done|]. by split.
Qed.

Lemma runs_cf_getitem cf m t H WL :
  cf_terms cf !! m = Some t → runs (cf_getitem cf m) H WL t H WL.
Proof. intros Ht. unfold cf_getitem. rewrite Ht. apply runs_ret. Qed.

Lemma runs_list_head mu Lambda H WL :
  runs (list_head (mu :: Lambda)) H WL mu H WL.
Proof. apply runs_ret. Qed.

(** A loop whose rounds leave the heap and the warnings alone. *)
Lemma runs_for_fold_pure {A C} (xs : list A) (f : C → A → M C)
    (g : C → A → C) H WL :
  (∀ acc a, a ∈ xs → runs (f acc a) H WL (g acc a) H WL) →
  ∀ acc, runs (for_fold xs acc f) H WL (foldl g acc xs) H WL.
Proof.
  induction xs as [|a xs IH]; intros Hf acc; simpl.
  - apply runs_ret.
  - eapply runs_bind.
    + apply Hf. by left.
    + apply IH. intros acc' a' Ha'. apply Hf. by right.
Qed.

Lemma runs_list_comp_pure {A C} (xs : list A) (f : A → M C) (g : A → C) H WL :
  (∀ a, a ∈ xs → runs (f a) H WL (g a) H WL) →
  runs (list_comp xs f) H WL (g <$> xs) H WL.
Proof.
  induction xs as [|a xs IH]; intros Hf; simpl.
  - apply runs_ret.
  - eapply runs_bind; [apply Hf; by left|].
    eapply runs_bind; [apply IH; intros a' Ha'; apply Hf; by right|].
    apply runs_ret.
Qed.

(** A loop whose rounds change the heap by a function of the heap. *)
Lemma runs_for_each_heap {A} (xs : list A) (f : A → M unit)
    (T : A → gmap loc (gmap Multiindex.t Vec) → gmap loc (gmap Multiindex.t Vec))
    (P : gmap loc (gmap Multiindex.t Vec) → Prop) WL :
  (∀ a H, a ∈ xs → P H → runs (f a) H WL tt (T a H) WL) →
  (∀ a H, a ∈ xs → P H → P (T a H)) →
  ∀ H, P H → runs (for_each xs f) H WL tt (foldl (λ H a, T a H) H xs) WL.
Proof.
  unfold for_each.
  induction xs as [|a xs IH]; intros Hf HP H HH; simpl.
  - apply runs_ret.
  - eapply runs_bind.
    + apply Hf; [by left|done].
    + apply IH.
      * intros a' H' Ha'. apply Hf. by right.
      * intros a' H' Ha'. apply HP. by right.
      * apply HP; [by left|done].
Qed.

(** *** Active indices *)

Lemma elem_of_active_indices W mu :
  mu ∈ active_indices W ↔ is_Some (W !! mu).
Proof.
  unfold active_indices. rewrite list_elem_of_fmap. split.
  - intros ([k x] & -> & Hin). apply elem_of_map_to_list in Hin. by exists x.
  - intros [x Hx]. exists (mu, x). split; [done|].
    by apply elem_of_map_to_list.
Qed.

Lemma NoDup_active_indices W : NoDup (active_indices W).
Proof. apply NoDup_fst_map_to_list. Qed.

Lemma active_indices_dom W mu : mu ∈ active_indices W ↔ mu ∈ dom W.
Proof. rewrite elem_of_active_indices. by rewrite elem_of_dom. Qed.

Lemma active_indices_empty : active_indices (∅ : gmap Multiindex.t Vec) = [].
Proof. unfold active_indices. by rewrite map_to_list_empty. Qed.

Lemma active_indices_nil W : active_indices W = [] → W = ∅.
Proof.
  intros HW. apply map_eq. intros mu. rewrite lookup_empty.
  destruct (W !! mu) eqn:E; [|done].
  assert (mu ∈ active_indices W) as Hin by (apply elem_of_active_indices; eauto).
  rewrite HW in Hin. by apply elem_of_nil in Hin.
Qed.

Lemma max_order_empty : max_order (∅ : gmap Multiindex.t Vec) = 0.
Proof. unfold max_order. by rewrite active_indices_empty. Qed.

Lemma bool_decide_active W mu :
  bool_decide (mu ∈ active_indices W) = bool_decide (is_Some (W !! mu)).
Proof. apply bool_decide_ext, elem_of_active_indices. Qed.

(** *** Dictionaries filled key by key *)

Lemma set_all_lookup_ne (r : Multiindex.t → Vec → Vec) kvs V mu :
  mu ∉ kvs.*1 → set_all r kvs V !! mu = V !! mu.
Proof.
  unfold set_all. revert V.
  induction kvs as [|[nu y] kvs IH]; intros V Hin; simpl; [done|].
  rewrite IH.
  - apply lookup_insert_ne. intros ->. apply Hin. simpl. by left.
  - intros Hmu. apply Hin. simpl. by right.
Qed.

Lemma set_all_lookup (r : Multiindex.t → Vec → Vec) kvs V mu x :
  NoDup kvs.*1 → (mu, x) ∈ kvs → set_all r kvs V !! mu = Some (r mu x).
Proof.
  revert V.
  induction kvs as [|[nu y] kvs IH]; intros V Hnd Hin.
  - by apply elem_of_nil in Hin.
  - simpl in Hnd. apply NoDup_cons in Hnd as [Hnu Hnd].
    apply elem_of_cons in Hin as [[= -> ->]|Hin].
    + unfold set_all. simpl. fold (set_all r kvs (<[nu := r nu y]> V)).
      rewrite set_all_lookup_ne by done. by rewrite lookup_insert_eq.
    + unfold set_all. simpl. fold (set_all r kvs (<[nu := r nu y]> V)).
      by apply IH.
Qed.

Lemma set_all_dom (r : Multiindex.t → Vec → Vec) kvs V :
  dom (set_all r kvs V) = dom V ∪ list_to_set kvs.*1.
Proof.
  unfold set_all. revert V.
  induction kvs as [|[nu y] kvs IH]; intros V; simpl.
  - set_solver.
  - rewrite IH, dom_insert_L. set_solver.
Qed.

(** The dictionary [0 * w] after every component has been overwritten. *)
Lemma set_all_items_lookup (r : Multiindex.t → Vec → Vec) W V mu x :
  W !! mu = Some x → set_all r (map_to_list W) V !! mu = Some (r mu x).
Proof.
  intros Hmu. apply set_all_lookup.
  - apply NoDup_fst_map_to_list.
  - by apply elem_of_map_to_list.
Qed.

Lemma set_all_items_dom (r : Multiindex.t → Vec → Vec) (c : Scalar) W :
  dom (set_all r (map_to_list W) (vscale c <$> W)) = dom W.
Proof.
  rewrite set_all_dom, dom_fmap_L.
  assert (list_to_set (map_to_list W).*1 = dom W) as ->; [|set_solver].
  apply set_eq. intros mu. rewrite elem_of_list_to_set.
  apply active_indices_dom.
Qed.

End RunsFacts.

(** ** The operator loops *)

Section OperatorFacts.
Context `{B : Backend}.

Implicit Types (H : gmap loc (gmap Multiindex.t Vec)) (WL : list LogRecord).
Implicit Types (W V : gmap Multiindex.t Vec) (cf : CoefficientField).

(** A loop over [range(k, k+n)] that looks the coefficient of each
    dimension up is a loop over the first coefficients with their
    indices. *)
Lemma foldl_seq_lookup {A C} (l : list A) (h : C → nat * A → C) n : ∀ k acc,
  k + n ≤ length l →
  foldl (λ acc m, match l !! m with Some t => h acc (m, t) | None => acc end)
        acc (seq k n)
  = foldl h acc (zip (seq k n) (take n (drop k l))).
Proof.
  induction n as [|n IH]; intros k acc Hlen; simpl; [done|].
  destruct (lookup_lt_is_Some_2 l k) as [t Ht]; [lia|].
  rewrite Ht. rewrite (drop_S _ _ _ Ht). simpl.
  rewrite IH by lia. done.
Qed.

Lemma foldl_range_lookup {A C} (l : list A) (h : C → nat * A → C) n acc :
  n ≤ length l →
  foldl (λ acc m, match l !! m with Some t => h acc (m, t) | None => acc end)
        acc (seq 0 n)
  = foldl h acc (zip (seq 0 n) (take n l)).
Proof. intros Hn. by rewrite foldl_seq_lookup, ?drop_0. Qed.

Lemma effective_maxm_le cf W : effective_maxm cf W ≤ cf_len cf.
Proof.
  unfold effective_maxm. destruct (Nat.ltb_spec (cf_len cf) (max_order W)); lia.
Qed.

(** The outer loop of the operator functions: round [mu] sets [v[mu]] and
    leaves the rest of the heap alone. *)
Lemma runs_outer_loop (body : Multiindex.t → M unit)
    (r : Multiindex.t → Vec → Vec) (v : loc) H WL
    (kvs : list (Multiindex.t * Vec)) :
  (∀ mu x V, (mu, x) ∈ kvs →
     runs (body mu) (<[ v := V ]> H) WL tt
          (<[ v := <[ mu := r mu x ]> V ]> H) WL) →
  ∀ V, runs (for_each kvs.*1 body) (<[ v := V ]> H) WL tt
            (<[ v := set_all r kvs V ]> H) WL.
Proof.
  unfold for_each, set_all.
  induction kvs as [|[mu x] kvs IH]; intros Hbody V; simpl.
  - apply runs_ret.
  - eapply runs_bind.
    + apply Hbody. by left.
    + apply IH. intros mu' x' V' Hin. apply Hbody. by right.
Qed.

(** The inner loop of [apply_A]: round [m] adds to [v[mu]] in place. *)
Lemma runs_accumulate_loop (step : nat → M unit) (g : Vec → nat → Vec)
    (v : loc) (mu : Multiindex.t) H WL (xs : list nat) :
  (∀ m acc V, m ∈ xs → V !! mu = Some acc →
     runs (step m) (<[ v := V ]> H) WL tt
          (<[ v := <[ mu := g acc m ]> V ]> H) WL) →
  ∀ acc V, V !! mu = Some acc →
    runs (for_each xs step) (<[ v := V ]> H) WL tt
         (<[ v := <[ mu := foldl g acc xs ]> V ]> H) WL.
Proof.
  unfold for_each.
  induction xs as [|m xs IH]; intros Hstep acc V Hacc; simpl.
  - rewrite (insert_id V mu acc) by done. apply runs_ret.
  - eapply runs_bind.
    + apply Hstep; [by left|done].
    + rewrite <- (insert_insert_eq V mu (foldl g (g acc m) xs) (g acc m)).
      apply IH.
      * intros m' acc' V' Hin. apply Hstep. by right.
      * by rewrite lookup_insert_eq.
Qed.

Lemma runs_mesh_list w W (mus : list Multiindex.t) H WL :
  H !! w = Some W → (∀ m, m ∈ mus → is_Some (W !! m)) →
  runs (list_comp mus (λ m, bind (mv_getitem w m)
                              (λ y, ret (basis_mesh (vec_basis y)))))
       H WL (mesh_list W mus) H WL.
Proof.
  intros Hw. unfold mesh_list.
  induction mus as [|m mus IH]; intros Hin; simpl.
  - apply runs_ret.
  - destruct (Hin m) as [y Hy]; [by left|]. rewrite Hy. simpl.
    eapply runs_bind.
    { eapply runs_bind; [by eapply runs_getitem|apply runs_ret]. }
    eapply runs_bind; [apply IH; intros m' Hm'; apply Hin; by right|].
    apply runs_ret.
Qed.

Lemma joint_indices_active mu maxm (Lambda : list Multiindex.t) m :
  m ∈ multi_operator.MultiOperator.joint_indices mu maxm Lambda → m ∈ Lambda.
Proof.
  unfold multi_operator.MultiOperator.joint_indices.
  rewrite elem_of_elements, elem_of_intersection, elem_of_list_to_set.
  by intros [_ ?].
Qed.

Lemma fresh_loc_lookup H : H !! fresh (dom H) = None.
Proof. apply not_elem_of_dom, is_fresh. Qed.

Lemma fresh_loc_ne H w W : H !! w = Some W → fresh (dom H) ≠ w.
Proof. intros Hw Heq. rewrite <- Heq, fresh_loc_lookup in Hw. done. Qed.

End OperatorFacts.

(** The two optional neighbour terms of a round: [rd] reads a neighbour. *)
Ltac run_neighbours W mu m rd :=
  rewrite bool_decide_active;
  destruct (W !! Multiindex.inc mu m) as [?x1|] eqn:?H1;
    [rewrite bool_decide_eq_true_2 by eauto
    |rewrite bool_decide_eq_false_2 by (by intros [? ?])];
  (eapply runs_bind;
     [first [apply runs_ret
            |eapply runs_bind; [by rd|apply runs_ret]]|]);
  (destruct (Multiindex.dec mu m) as [?nu|];
     [rewrite bool_decide_active;
      match goal with
      | |- context [bool_decide (is_Some (W !! ?nu))] =>
          destruct (W !! nu) as [?x2|] eqn:?H2;
            [rewrite bool_decide_eq_true_2 by eauto
            |rewrite bool_decide_eq_false_2 by (by intros [? ?])]
      end|]);
  (eapply runs_bind;
     [first [apply runs_ret
            |eapply runs_bind; [by rd|apply runs_ret]]|]).

(** ** [multi_operator2.MultiOperator] *)

Section MultiOperator2Facts.
Context `{B : Backend} `{SB : !SharedBasis}.
Import multi_operator2.MultiOperator.

Implicit Types (H : gmap loc (gmap Multiindex.t Vec)) (WL : list LogRecord).
Implicit Types (W V : gmap Multiindex.t Vec) (self : t).

Lemma mo2_check_maxm self W H WL :
  runs (check_maxm self (max_order W)) H WL
       (effective_maxm (_coeff_field self) W) H
       (WL ++ length_warning (_coeff_field self) W).
Proof.
  unfold check_maxm, effective_maxm, length_warning.
  destruct (cf_len (_coeff_field self) <? max_order W).
  - eapply runs_bind; [by apply runs_logger_warning|]. apply runs_ret.
  - rewrite app_nil_r. apply runs_ret.
Qed.

Lemma mo2_apply_step self w W (Vb : Basis) mu x cur_v m tm H WL :
  H !! w = Some W → W !! mu = Some x →
  cf_terms (_coeff_field self) !! m = Some tm →
  runs (apply_step self w (active_indices W) Vb mu cur_v m) H WL
       (add_dimension W id (λ f, _assemble_m self (ABasis Vb) (ACoef f))
                      mu x cur_v (m, tm)) H WL.
Proof.
  intros Hw Hmu Htm. destruct tm as [am_f am_rv].
  unfold apply_step, add_dimension, neighbour_sum.
  eapply runs_bind; [by apply runs_logger_debug|].
  eapply runs_bind; [by apply runs_cf_getitem|]. simpl.
  destruct (get_beta am_rv (Multiindex.getitem mu m)) as [[beta0 beta1] beta_1].
  eapply runs_bind; [by eapply runs_getitem|].
  run_neighbours W mu m ltac:(eapply runs_getitem); apply runs_ret.
Qed.

Lemma mo2_apply_inner self w W (Vb : Basis) mu x cur_v maxm H WL :
  H !! w = Some W → W !! mu = Some x →
  maxm ≤ cf_len (_coeff_field self) →
  runs (for_fold (seq 0 maxm) cur_v (apply_step self w (active_indices W) Vb mu))
       H WL
       (foldl (add_dimension W id (λ f, _assemble_m self (ABasis Vb) (ACoef f)) mu x)
              cur_v (zip (seq 0 maxm) (take maxm (cf_terms (_coeff_field self)))))
       H WL.
Proof.
  intros Hw Hmu Hlen.
  rewrite <- (foldl_range_lookup (cf_terms (_coeff_field self))) by done.
  apply runs_for_fold_pure. intros acc m Hm.
  apply elem_of_seq in Hm.
  destruct (lookup_lt_is_Some_2 (cf_terms (_coeff_field self)) m) as [tm Htm].
  { unfold cf_len in Hlen. lia. }
  rewrite Htm. by apply mo2_apply_step.
Qed.

Lemma mo2_apply_body self w v W mu x maxm V H WL :
  H !! w = Some W → v ≠ w → W !! mu = Some x →
  maxm ≤ cf_len (_coeff_field self) →
  runs (let a0_f := mean_func (_coeff_field self) in
        let A0 := _assemble_0 self (ABasis (mv_basis_basis W)) (ACoef a0_f) in
        bind (mv_getitem w mu) (λ x,
          let cur_v := op_apply A0 x in
          bind (for_fold (seq 0 maxm) cur_v
                  (apply_step self w (active_indices W) (mv_basis_basis W) mu))
               (λ cur_v, mv_setitem v mu cur_v)))
       (<[ v := V ]> H) WL tt
       (<[ v := <[ mu := component_spec (_coeff_field self) W id
                           (_assemble_0 self (ABasis (mv_basis_basis W))
                              (ACoef (mean_func (_coeff_field self))))
                           (λ f, _assemble_m self (ABasis (mv_basis_basis W)) (ACoef f))
                           maxm mu x ]> V ]> H) WL.
Proof.
  intros Hw Hne Hmu Hlen. simpl.
  assert (<[ v := V ]> H !! w = Some W) as Hw' by by rewrite lookup_insert_ne.
  eapply runs_bind; [by eapply runs_getitem|].
  eapply runs_bind; [by eapply mo2_apply_inner|].
  apply runs_setitem_insert.
Qed.

Theorem mo2_apply_runs self w W H WL :
  H !! w = Some W →
  runs (apply self w) H WL (fresh (dom H))
       (heap_after (mo2_apply_component self W) H W)
       (WL ++ length_warning (_coeff_field self) W).
Proof.
  intros Hw. unfold apply, heap_after.
  pose proof (fresh_loc_ne H w W Hw) as Hne.
  set (v := fresh (dom H)) in *.
  eapply runs_bind; [by apply runs_rmul|]. fold v.
  assert (∀ V, <[ v := V ]> H !! w = Some W) as Hw'
    by (intros V; by rewrite lookup_insert_ne).
  eapply runs_bind; [by eapply runs_active_indices|].
  eapply runs_bind; [by eapply runs_max_order|].
  eapply runs_bind; [apply mo2_check_maxm|].
  eapply runs_bind; [by eapply runs_deref|].
  eapply runs_bind; [|apply runs_ret].
  apply (runs_outer_loop _ (mo2_apply_component self W)).
  intros mu x V Hin. apply elem_of_map_to_list in Hin.
  apply mo2_apply_body; try done. apply effective_maxm_le.
Qed.

Lemma mo2_apply_A_step self w v W mu x acc m tm V H WL :
  H !! w = Some W → v ≠ w → W !! mu = Some x →
  cf_terms (_coeff_field self) !! m = Some tm →
  V !! mu = Some acc →
  runs (apply_A_step self w v (active_indices W) mu m) (<[ v := V ]> H) WL tt
       (<[ v := <[ mu := add_dimension W id
                           (λ f, _assemble_m self (ACoef f) (ABasis (vec_basis x)))
                           mu x acc (m, tm) ]> V ]> H) WL.
Proof.
  intros Hw Hne Hmu Htm Hacc. destruct tm as [am_f am_rv].
  assert (<[ v := V ]> H !! w = Some W) as Hw' by by rewrite lookup_insert_ne.
  assert (<[ v := V ]> H !! v = Some V) as Hv by by rewrite lookup_insert_eq.
  unfold apply_A_step, add_dimension, neighbour_sum.
  eapply runs_bind; [by apply runs_logger_debug|].
  eapply runs_bind; [by apply runs_cf_getitem|]. simpl.
  eapply runs_bind; [by eapply runs_getitem|].
  destruct (get_beta am_rv (Multiindex.getitem mu m)) as [[beta0 beta1] beta_1].
  eapply runs_bind; [by eapply runs_getitem|].
  run_neighbours W mu m ltac:(eapply runs_getitem);
    (eapply runs_bind; [by eapply runs_getitem|]);
    apply runs_setitem_insert.
Qed.

Lemma mo2_apply_A_body self w v W mu x V H WL :
  H !! w = Some W → v ≠ w → W !! mu = Some x →
  runs (bind (logger (Debug_apply_on mu)) (λ _,
        let a0_f := mean_func (_coeff_field self) in
        bind (mv_getitem w mu) (λ x,
          let A0 := _assemble_0 self (ACoef a0_f) (ABasis (vec_basis x)) in
          bind (mv_getitem w mu) (λ x,
            bind (mv_setitem v mu (op_apply A0 x)) (λ _,
              for_each (seq 0 (effective_maxm (_coeff_field self) W))
                       (apply_A_step self w v (active_indices W) mu))))))
       (<[ v := V ]> H) WL tt
       (<[ v := <[ mu := mo2_apply_A_component self W mu x ]> V ]> H) WL.
Proof.
  intros Hw Hne Hmu.
  assert (<[ v := V ]> H !! w = Some W) as Hw' by by rewrite lookup_insert_ne.
  eapply runs_bind; [by apply runs_logger_debug|]. simpl.
  eapply runs_bind; [by eapply runs_getitem|].
  eapply runs_bind; [by eapply runs_getitem|].
  eapply runs_bind; [apply runs_setitem_insert|].
  unfold mo2_apply_A_component, component_spec.
  rewrite <- (foldl_range_lookup (cf_terms (_coeff_field self)))
    by apply effective_maxm_le.
  match goal with
  | |- runs _ (<[ _ := <[ _ := ?a ]> _ ]> _) _ _ (<[ _ := <[ _ := ?b ]> _ ]> _) _ =>
      rewrite <- (insert_insert_eq V mu b a)
  end.
  apply runs_accumulate_loop; [|by rewrite lookup_insert_eq].
  intros m acc V' Hm Hacc. apply elem_of_seq in Hm.
  pose proof (effective_maxm_le (_coeff_field self) W) as Hle.
  destruct (lookup_lt_is_Some_2 (cf_terms (_coeff_field self)) m) as [tm Htm].
  { unfold cf_len in Hle. lia. }
  rewrite Htm. by apply mo2_apply_A_step.
Qed.

Theorem mo2_apply_A_runs self w W H WL :
  H !! w = Some W →
  runs (apply_A self w) H WL (fresh (dom H))
       (heap_after (mo2_apply_A_component self W) H W)
       (WL ++ length_warning (_coeff_field self) W).
Proof.
  intros Hw. unfold apply_A, heap_after.
  pose proof (fresh_loc_ne H w W Hw) as Hne.
  set (v := fresh (dom H)) in *.
  eapply runs_bind; [by apply runs_rmul|]. fold v.
  assert (∀ V, <[ v := V ]> H !! w = Some W) as Hw'
    by (intros V; by rewrite lookup_insert_ne).
  eapply runs_bind; [by eapply runs_active_indices|].
  eapply runs_bind; [by eapply runs_max_order|].
  eapply runs_bind; [apply mo2_check_maxm|].
  eapply runs_bind; [|apply runs_ret].
  apply (runs_outer_loop _ (mo2_apply_A_component self W)).
  intros mu x V Hin. apply elem_of_map_to_list in Hin.
  by apply mo2_apply_A_body.
Qed.

End MultiOperator2Facts.

(** ** [multi_operator.MultiOperator] *)

Section MultiOperatorFacts.
Context `{B : Backend}.
Import multi_operator multi_operator.MultiOperator.

Implicit Types (H : gmap loc (gmap Multiindex.t Vec)) (WL : list LogRecord).
Implicit Types (W V : gmap Multiindex.t Vec) (self : t).

Lemma mo_check_maxm self W H WL :
  runs (check_maxm self (max_order W)) H WL
       (effective_maxm (_coeff_field self) W) H
       (WL ++ length_warning (_coeff_field self) W).
Proof.
  unfold check_maxm, effective_maxm, length_warning.
  destruct (cf_len (_coeff_field self) <? max_order W).
  - eapply runs_bind; [by apply runs_logger_warning|]. apply runs_ret.
  - rewrite app_nil_r. apply runs_ret.
Qed.

Lemma runs_get_projection w W src dst xs xd H WL :
  H !! w = Some W → W !! src = Some xs → W !! dst = Some xd →
  runs (mv_get_projection w src dst) H WL (project_onto (vec_basis xd) xs) H WL.
Proof.
  intros Hw Hs Hd. unfold mv_get_projection.
  eapply runs_bind; [by eapply runs_getitem|].
  eapply runs_bind; [by eapply runs_getitem|]. apply runs_ret.
Qed.

(** *** The working basis *)

Lemma mo_local_Vfine self w W mu x maxm H WL :
  H !! w = Some W → W !! mu = Some x →
  _assembly_type self ≠ JOINT_GLOBAL →
  runs (local_Vfine self w mu maxm (active_indices W)) H WL
       (working_basis (_assembly_type self) W maxm mu x) H WL.
Proof.
  intros Hw Hmu Hty. unfold local_Vfine, working_basis.
  eapply runs_bind; [by eapply runs_getitem|].
  destruct (_assembly_type self); [| |done]; simpl.
  - eapply runs_bind; [by eapply runs_getitem|]. apply runs_ret.
  - destruct (has_mesh (vec_basis x)).
    + eapply runs_bind; [by apply runs_logger_debug|].
      eapply runs_bind.
      { apply runs_mesh_list; [done|]. intros m Hm.
        apply joint_indices_active in Hm.
        by apply elem_of_active_indices. }
      eapply runs_bind; [by eapply runs_getitem|]. apply runs_ret.
    + eapply runs_bind; [by eapply runs_getitem|]. apply runs_ret.
Qed.

Lemma mo_global_basis self w W H WL :
  H !! w = Some W →
  (_assembly_type self = JOINT_GLOBAL → W ≠ ∅) →
  runs (if is_JOINT_GLOBAL (_assembly_type self) then
          bind (list_comp (active_indices W)
                  (λ m, bind (mv_getitem w m)
                          (λ y, ret (basis_mesh (vec_basis y)))))
            (λ meshes,
               let mesh := create_joint_mesh meshes in
               bind (list_head (active_indices W)) (λ mu0,
                 bind (mv_getitem w mu0) (λ x0,
                   ret (Some (basis_copy_joint (vec_basis x0) mesh)))))
        else ret None)
       H WL (global_basis self W) H WL.
Proof.
  intros Hw Hne. unfold global_basis.
  destruct (_assembly_type self) eqn:Hty; simpl; try apply runs_ret.
  eapply runs_bind.
  { apply runs_mesh_list; [done|]. intros m Hm.
    by apply elem_of_active_indices. }
  simpl.
  destruct (active_indices W) as [|mu0 Lambda] eqn:HL.
  { exfalso. apply Hne; [done|]. by apply active_indices_nil. }
  assert (is_Some (W !! mu0)) as [x0 Hx0].
  { apply elem_of_active_indices. rewrite HL. by left. }
  rewrite Hx0.
  eapply runs_bind; [apply runs_list_head|].
  eapply runs_bind; [by eapply runs_getitem|]. apply runs_ret.
Qed.

Lemma mo_Vfine self w W mu x maxm H WL :
  H !! w = Some W → W !! mu = Some x →
  (_assembly_type self = JOINT_GLOBAL → W ≠ ∅) →
  runs (match global_basis self W with
        | Some Vb => ret Vb
        | None => local_Vfine self w mu maxm (active_indices W)
        end)
       H WL (working_basis (_assembly_type self) W maxm mu x) H WL.
Proof.
  intros Hw Hmu Hne.
  assert (_assembly_type self = JOINT_GLOBAL ∨ _assembly_type self ≠ JOINT_GLOBAL)
    as [Hty|Hty] by (destruct (_assembly_type self); auto).
  - unfold global_basis, working_basis. rewrite Hty. simpl.
    destruct (active_indices W) as [|mu0 Lambda] eqn:HL.
    { exfalso. apply Hne; [done|]. by apply active_indices_nil. }
    assert (is_Some (W !! mu0)) as [x0 Hx0].
    { apply elem_of_active_indices. rewrite HL. by left. }
    rewrite Hx0. apply runs_ret.
  - replace (global_basis self W) with (@None Basis);
      [by apply mo_local_Vfine|].
    unfold global_basis. by destruct (_assembly_type self).
Qed.

(** *** [apply] *)

Lemma mo_apply_step self w W (Vfine : Basis) mu x cur_v m tm H WL :
  H !! w = Some W → W !! mu = Some x →
  cf_terms (_coeff_field self) !! m = Some tm →
  runs (apply_step self w (active_indices W) Vfine mu cur_v m) H WL
       (add_dimension W (project_onto Vfine)
          (λ f, _assemble_m self (ABasis Vfine) (ACoef f))
          mu (project_onto Vfine x) cur_v (m, tm)) H WL.
Proof.
  intros Hw Hmu Htm. destruct tm as [am_f am_rv].
  unfold apply_step, add_dimension, neighbour_sum.
  eapply runs_bind; [by apply runs_logger_debug|].
  eapply runs_bind; [by apply runs_cf_getitem|]. simpl.
  destruct (get_beta am_rv (Multiindex.getitem mu m)) as [[beta0 beta1] beta_1].
  eapply runs_bind; [by eapply runs_getitem|].
  run_neighbours W mu m ltac:(eapply runs_getitem); apply runs_ret.
Qed.

Lemma mo_apply_inner self w W (Vfine : Basis) mu x cur_v maxm H WL :
  H !! w = Some W → W !! mu = Some x →
  maxm ≤ cf_len (_coeff_field self) →
  runs (for_fold (seq 0 maxm) cur_v
          (apply_step self w (active_indices W) Vfine mu))
       H WL
       (foldl (add_dimension W (project_onto Vfine)
                 (λ f, _assemble_m self (ABasis Vfine) (ACoef f))
                 mu (project_onto Vfine x))
              cur_v (zip (seq 0 maxm) (take maxm (cf_terms (_coeff_field self)))))
       H WL.
Proof.
  intros Hw Hmu Hlen.
  rewrite <- (foldl_range_lookup (cf_terms (_coeff_field self))) by done.
  apply runs_for_fold_pure. intros acc m Hm.
  apply elem_of_seq in Hm.
  destruct (lookup_lt_is_Some_2 (cf_terms (_coeff_field self)) m) as [tm Htm].
  { unfold cf_len in Hlen. lia. }
  rewrite Htm. by apply mo_apply_step.
Qed.

Theorem mo_apply_runs self w W H WL :
  H !! w = Some W →
  (_assembly_type self = JOINT_GLOBAL → W ≠ ∅) →
  runs (apply self w) H WL (fresh (dom H))
       (heap_after (mo_apply_component self W) H W)
       (WL ++ length_warning (_coeff_field self) W).
Proof.
  intros Hw Hglob. unfold apply, heap_after.
  pose proof (fresh_loc_ne H w W Hw) as Hne.
  set (v := fresh (dom H)) in *.
  eapply runs_bind; [by apply runs_rmul|]. fold v.
  assert (∀ V, <[ v := V ]> H !! w = Some W) as Hw'
    by (intros V; by rewrite lookup_insert_ne).
  eapply runs_bind; [by eapply runs_active_indices|].
  eapply runs_bind; [by eapply runs_max_order|].
  eapply runs_bind; [apply mo_check_maxm|].
  eapply runs_bind; [by eapply mo_global_basis|].
  eapply runs_bind; [|apply runs_ret].
  apply (runs_outer_loop _ (mo_apply_component self W)).
  intros mu x V Hin. apply elem_of_map_to_list in Hin.
  eapply runs_bind; [by eapply mo_Vfine|]. simpl.
  eapply runs_bind; [by eapply runs_getitem|].
  eapply runs_bind.
  { eapply mo_apply_inner; try done. apply effective_maxm_le. }
  eapply runs_bind; [by eapply runs_getitem|].
  apply runs_setitem_insert.
Qed.

(** *** [apply_A] *)

Lemma mo_apply_A_step self w v W mu x acc m tm V H WL :
  H !! w = Some W → v ≠ w → W !! mu = Some x →
  cf_terms (_coeff_field self) !! m = Some tm →
  V !! mu = Some acc →
  runs (apply_A_step self w v (active_indices W) mu m) (<[ v := V ]> H) WL tt
       (<[ v := <[ mu := add_dimension W (project_onto (vec_basis x))
                           (λ f, _assemble_m self (ABasis (vec_basis x)) (ACoef f))
                           mu x acc (m, tm) ]> V ]> H) WL.
Proof.
  intros Hw Hne Hmu Htm Hacc. destruct tm as [am_f am_rv].
  assert (<[ v := V ]> H !! w = Some W) as Hw' by by rewrite lookup_insert_ne.
  assert (<[ v := V ]> H !! v = Some V) as Hv by by rewrite lookup_insert_eq.
  unfold apply_A_step, add_dimension, neighbour_sum.
  eapply runs_bind; [by apply runs_logger_debug|].
  eapply runs_bind; [by apply runs_cf_getitem|]. simpl.
  eapply runs_bind; [by eapply runs_getitem|].
  destruct (get_beta am_rv (Multiindex.getitem mu m)) as [[beta0 beta1] beta_1].
  eapply runs_bind; [by eapply runs_getitem|].
  run_neighbours W mu m ltac:(eapply runs_get_projection);
    (eapply runs_bind; [by eapply runs_getitem|]);
    apply runs_setitem_insert.
Qed.

Lemma mo_apply_A_body self w v W mu x V H WL :
  H !! w = Some W → v ≠ w → W !! mu = Some x →
  runs (bind (logger (Debug_apply_on mu)) (λ _,
        let a0_f := mean_func (_coeff_field self) in
        bind (mv_getitem w mu) (λ x,
          let A0 := _assemble_0 self (ABasis (vec_basis x)) (ACoef a0_f) in
          bind (mv_getitem w mu) (λ x,
            bind (mv_setitem v mu (op_apply A0 x)) (λ _,
              for_each (seq 0 (effective_maxm (_coeff_field self) W))
                       (apply_A_step self w v (active_indices W) mu))))))
       (<[ v := V ]> H) WL tt
       (<[ v := <[ mu := mo_apply_A_component self W mu x ]> V ]> H) WL.
Proof.
  intros Hw Hne Hmu.
  assert (<[ v := V ]> H !! w = Some W) as Hw' by by rewrite lookup_insert_ne.
  eapply runs_bind; [by apply runs_logger_debug|]. simpl.
  eapply runs_bind; [by eapply runs_getitem|].
  eapply runs_bind; [by eapply runs_getitem|].
  eapply runs_bind; [apply runs_setitem_insert|].
  unfold mo_apply_A_component, component_spec.
  rewrite <- (foldl_range_lookup (cf_terms (_coeff_field self)))
    by apply effective_maxm_le.
  match goal with
  | |- runs _ (<[ _ := <[ _ := ?a ]> _ ]> _) _ _ (<[ _ := <[ _ := ?b ]> _ ]> _) _ =>
      rewrite <- (insert_insert_eq V mu b a)
  end.
  apply runs_accumulate_loop; [|by rewrite lookup_insert_eq].
  intros m acc V' Hm Hacc. apply elem_of_seq in Hm.
  pose proof (effective_maxm_le (_coeff_field self) W) as Hle.
  destruct (lookup_lt_is_Some_2 (cf_terms (_coeff_field self)) m) as [tm Htm].
  { unfold cf_len in Hle. lia. }
  rewrite Htm. by apply mo_apply_A_step.
Qed.

Theorem mo_apply_A_runs self w W H WL :
  H !! w = Some W →
  runs (apply_A self w) H WL (fresh (dom H))
       (heap_after (mo_apply_A_component self W) H W)
       (WL ++ length_warning (_coeff_field self) W).
Proof.
  intros Hw. unfold apply_A, heap_after.
  pose proof (fresh_loc_ne H w W Hw) as Hne.
  set (v := fresh (dom H)) in *.
  eapply runs_bind; [by apply runs_rmul|]. fold v.
  assert (∀ V, <[ v := V ]> H !! w = Some W) as Hw'
    by (intros V; by rewrite lookup_insert_ne).
  eapply runs_bind; [by eapply runs_active_indices|].
  eapply runs_bind; [by eapply runs_max_order|].
  eapply runs_bind; [apply mo_check_maxm|].
  eapply runs_bind; [|apply runs_ret].
  apply (runs_outer_loop _ (mo_apply_A_component self W)).
  intros mu x V Hin. apply elem_of_map_to_list in Hin.
  by apply mo_apply_A_body.
Qed.

End MultiOperatorFacts.

(** ** The preconditioners *)

Section PreconditionerFacts.
Context `{B : Backend}.

Implicit Types (H : gmap loc (gmap Multiindex.t Vec)) (WL : list LogRecord).
Implicit Types (W V : gmap Multiindex.t Vec).

Theorem mo_precond_runs (self : multi_operator.PreconditioningOperator.t) w W H WL :
  H !! w = Some W →
  runs (multi_operator.PreconditioningOperator.apply self w) H WL (fresh (dom H))
       (heap_after (λ mu x, mo_precond_component self mu x) H W) WL.
Proof.
  intros Hw. unfold multi_operator.PreconditioningOperator.apply, heap_after.
  pose proof (fresh_loc_ne H w W Hw) as Hne.
  set (v := fresh (dom H)) in *.
  eapply runs_bind; [by apply runs_rmul|]. fold v.
  assert (∀ V, <[ v := V ]> H !! w = Some W) as Hw'
    by (intros V; by rewrite lookup_insert_ne).
  eapply runs_bind; [by eapply runs_active_indices|].
  eapply runs_bind; [|apply runs_ret].
  apply (runs_outer_loop _ (λ mu x, mo_precond_component self mu x)).
  intros mu x V Hin. apply elem_of_map_to_list in Hin. simpl.
  eapply runs_bind; [by eapply runs_getitem|].
  eapply runs_bind; [by eapply runs_getitem|].
  apply runs_setitem_insert.
Qed.

Theorem mo2_precond_runs (self : multi_operator2.PreconditioningOperator.t) w W H WL :
  H !! w = Some W →
  runs (multi_operator2.PreconditioningOperator.apply self w) H WL (fresh (dom H))
       (heap_after (λ mu x, mo2_precond_component self mu x) H W) WL.
Proof.
  intros Hw. unfold multi_operator2.PreconditioningOperator.apply, heap_after.
  pose proof (fresh_loc_ne H w W Hw) as Hne.
  set (v := fresh (dom H)) in *.
  eapply runs_bind; [by apply runs_rmul|]. fold v.
  assert (∀ V, <[ v := V ]> H !! w = Some W) as Hw'
    by (intros V; by rewrite lookup_insert_ne).
  eapply runs_bind; [by eapply runs_active_indices|].
  eapply runs_bind; [|apply runs_ret].
  apply (runs_outer_loop _ (λ mu x, mo2_precond_component self mu x)).
  intros mu x V Hin. apply elem_of_map_to_list in Hin. simpl.
  eapply runs_bind; [by eapply runs_getitem|].
  eapply runs_bind; [by eapply runs_getitem|].
  apply runs_setitem_insert.
Qed.

End PreconditionerFacts.

(** ** What a call of an operator returns *)

Section OperatorReturns.
Context `{B : Backend}.

Implicit Types (H : gmap loc (gmap Multiindex.t Vec)) (WL : list LogRecord).
Implicit Types (W V : gmap Multiindex.t Vec) (s : Store).

Lemma runs_store {A} (c : M A) s (a : A) H' WL' :
  runs c (heap s) (warnings (log s)) a H' WL' →
  ∃ s', c s = Ok (a, s') ∧ heap s' = H' ∧ warnings (log s') = WL'.
Proof.
  intros Hr. destruct (Hr s) as (s' & Hc & Hh & Hw); [by split|].
  by exists s'.
Qed.

(** From a run that ends in [heap_after r]: the call returns a reference
    that was not allocated before, the heap is the old one plus the new
    MultiVector, which has the keys of [w] and the components [r]. *)
Lemma returns_new (c : M loc) s w W (r : Multiindex.t → Vec → Vec) WL' :
  heap s !! w = Some W →
  runs c (heap s) (warnings (log s)) (fresh (dom (heap s)))
       (heap_after r (heap s) W) WL' →
  ∃ v s' V,
    c s = Ok (v, s')
    ∧ v ≠ w ∧ heap s !! v = None
    ∧ heap s' = <[ v := V ]> (heap s)
    ∧ dom V = dom W
    ∧ (∀ mu x, W !! mu = Some x → V !! mu = Some (r mu x))
    ∧ warnings (log s') = WL'.
Proof.
  intros Hw Hr. destruct (runs_store _ _ _ _ _ Hr) as (s' & Hc & Hh & Hwl).
  exists (fresh (dom (heap s))), s',
         (set_all r (map_to_list W) (vscale int_zero <$> W)).
  split; [done|]. split; [by eapply fresh_loc_ne|].
  split; [apply fresh_loc_lookup|]. split; [done|].
  split; [apply set_all_items_dom|]. split; [|done].
  intros mu x Hmu. by apply set_all_items_lookup.
Qed.

Lemma effective_maxm_truncated cf W :
  cf_len cf < max_order W → effective_maxm cf W = cf_len cf.
Proof.
  intros Hlt. unfold effective_maxm.
  destruct (Nat.ltb_spec (cf_len cf) (max_order W)); [done|lia].
Qed.

Lemma length_warning_truncated cf W :
  cf_len cf < max_order W →
  length_warning cf W = [Warn_insufficient_length (cf_len cf) (max_order W)].
Proof.
  intros Hlt. unfold length_warning.
  destruct (Nat.ltb_spec (cf_len cf) (max_order W)); [done|lia].
Qed.

Lemma max_order_pos_nonempty W : 0 < max_order W → W ≠ ∅.
Proof. intros Hlt HW. subst W. pose proof max_order_empty as E. lia. Qed.

Lemma lookup_nonempty W mu x : W !! mu = Some x → W ≠ ∅.
Proof. intros Hmu ->. by rewrite lookup_empty in Hmu. Qed.

Lemma neighbour_sum_alone W (view : Vec → Vec) mu m beta0 beta1 beta_1 own :
  W !! Multiindex.inc mu m = None →
  (∀ nu, Multiindex.dec mu m = Some nu → W !! nu = None) →
  neighbour_sum W view mu m (beta0, beta1, beta_1) own
  = vscale (sneg beta0) own.
Proof.
  intros Hinc Hdec. unfold neighbour_sum. rewrite Hinc.
  destruct (Multiindex.dec mu m) as [nu|]; [|done].
  by rewrite (Hdec nu).
Qed.

Lemma neighbour_sum_both W (view : Vec → Vec) mu m beta0 beta1 beta_1 own nu x1 x2 :
  W !! Multiindex.inc mu m = Some x1 →
  Multiindex.dec mu m = Some nu → W !! nu = Some x2 →
  neighbour_sum W view mu m (beta0, beta1, beta_1) own
  = vadd (vadd (vscale (sneg beta0) own) (vscale beta1 (view x1)))
         (vscale beta_1 (view x2)).
Proof.
  intros Hinc Hdec Hnu. unfold neighbour_sum.
  by rewrite Hinc, Hdec, Hnu.
Qed.

End OperatorReturns.

(** ** Recurrence coefficients and squared norms *)

Section PolynomialFacts.
Import _polynomials.
Local Open Scope Q_scope.

Lemma range_1_succ (k : nat) :
  range 1 (Z.of_nat k + 1) = (λ i : nat, Z.of_nat (S i)) <$> seq 0 k.
Proof.
  unfold range. replace (Z.to_nat (Z.of_nat k + 1 - 1)) with k by lia.
  apply list_fmap_ext. intros _ i _. lia.
Qed.

Lemma foldl_scale (c : Z → Q) (l : list Z) (h : Q) :
  foldl (λ h i, h * c i) h l == h * foldl (λ h i, h * c i) 1 l.
Proof.
  revert h. induction l as [|i l IH]; intros h; simpl.
  - ring.
  - rewrite IH. rewrite (IH (1 * c i)). ring.
Qed.

Lemma inject_Z_S (k : nat) : inject_Z (Z.of_nat (S k)) == inject_Z (Z.of_nat k) + 1.
Proof. rewrite Nat2Z.inj_succ. unfold Z.succ. rewrite inject_Z_plus. reflexivity. Qed.

Lemma inject_Z_nat_nonneg (k : nat) : 0 <= inject_Z (Z.of_nat k).
Proof. change 0 with (inject_Z 0). rewrite <- Zle_Qle. lia. Qed.

Lemma Qmax2_0_nonneg (q : Q) : 0 <= q → Qmax2 0 q == q.
Proof.
  intros Hq. unfold Qmax2. destruct (Qle_bool q 0) eqn:E; [|reflexivity].
  apply Qle_bool_iff in E. by apply Qle_antisym.
Qed.

(** The product of the [c_i] of the Legendre recurrence telescopes. *)
Lemma legendre_product (k : nat) :
  foldl (λ h i, h * rc_c (rc_legendre i)) 1
        ((λ i : nat, Z.of_nat (S i)) <$> seq 0 k)
  == 1 / (inject_Z (Z.of_nat k) + 1).
Proof.
  induction k as [|k IH].
  - simpl. reflexivity.
  - rewrite seq_S, fmap_app, foldl_app. simpl. rewrite IH.
    unfold rc_c, rc_legendre, rc4_to_rc3. simpl.
    pose proof (inject_Z_nat_nonneg k) as Hk.
    pose proof (inject_Z_nat_nonneg (S k)) as HSk.
    rewrite (Qmax2_0_nonneg _ HSk). rewrite inject_Z_S.
    field. split; lra.
Qed.

Lemma hermite_product (k : nat) :
  foldl (λ h i, h * rc_c (rc_stoch_hermite i)) 1
        ((λ i : nat, Z.of_nat (S i)) <$> seq 0 k)
  == inject_Z (Z.of_nat (fact k)).
Proof.
  induction k as [|k IH].
  - simpl. reflexivity.
  - rewrite seq_S, fmap_app, foldl_app. simpl foldl. rewrite IH.
    unfold rc_c, rc_stoch_hermite. simpl snd.
    rewrite <- inject_Z_mult. apply inject_Z_injective.
    change (fact (S k)) with (S k * fact k)%nat. lia.
Qed.

Lemma sqnorm_legendre_closed (k : nat) :
  sqnorm_from_rc rc_legendre (Z.of_nat k) == sqnorm_legendre (Z.of_nat k).
Proof.
  unfold sqnorm_from_rc. rewrite range_1_succ.
  rewrite (foldl_scale (λ i, rc_c (rc_legendre i))).
  rewrite legendre_product.
  unfold sqnorm_legendre, rc_b, rc_legendre, rc4_to_rc3. simpl fst. simpl snd.
  pose proof (inject_Z_nat_nonneg k) as Hk.
  rewrite (Qmax2_0_nonneg _ Hk).
  rewrite (Qmax2_0_nonneg (inject_Z 0)) by (apply Qle_refl).
  change (inject_Z 0) with 0.
  field. repeat split; lra.
Qed.

Lemma sqnorm_stoch_hermite_closed (k : nat) :
  sqnorm_from_rc rc_stoch_hermite (Z.of_nat k)
  == sqnorm_stoch_hermite (Z.of_nat k).
Proof.
  unfold sqnorm_from_rc. rewrite range_1_succ.
  rewrite (foldl_scale (λ i, rc_c (rc_stoch_hermite i))).
  rewrite hermite_product.
  unfold sqnorm_stoch_hermite, factorial, rc_b, rc_stoch_hermite. simpl fst. simpl snd.
  destruct (Z.ltb_spec (Z.of_nat k) 0); [lia|].
  rewrite Nat2Z.id. field.
Qed.

Lemma legendre_divisors (k : nat) :
  ¬ Qmax2 0 (inject_Z (Z.of_nat k)) + 1 == 0
  ∧ ¬ rc_b (rc_legendre (Z.of_nat k)) == 0
  ∧ ¬ 2 * inject_Z (Z.of_nat k) + 1 == 0.
Proof.
  pose proof (inject_Z_nat_nonneg k) as Hk.
  unfold rc_b, rc_legendre, rc4_to_rc3. simpl fst. simpl snd.
  rewrite (Qmax2_0_nonneg _ Hk).
  split; [lra|]. split; [|lra].
  intros E.
  assert ((2 * inject_Z (Z.of_nat k) + 1) / (inject_Z (Z.of_nat k) + 1)
            * (inject_Z (Z.of_nat k) + 1) == 2 * inject_Z (Z.of_nat k) + 1) as E2
    by (field; lra).
  rewrite E in E2. lra.
Qed.

End PolynomialFacts.

(** ** The refinement loop *)

Section AdaptiveSolverFacts.
Context `{Env : SolverEnv}.
Import adaptive_solver.
Local Open Scope Z_scope.

Implicit Types (p : Params) (st : LoopState) (k start : Z).

Lemma records_spec start k : records start k = true ↔ k = 0 ∨ start < k.
Proof. unfold records. rewrite orb_true_iff, Z.eqb_eq, Z.ltb_lt. done. Qed.

Lemma range_nil a b : b ≤ a → range a b = [].
Proof. intros Hle. unfold range. by replace (Z.to_nat (b - a)) with 0%nat by lia. Qed.

Lemma range_cons a b : a < b → range a b = a :: range (a + 1) b.
Proof.
  intros Hlt. unfold range.
  replace (Z.to_nat (b - a)) with (S (Z.to_nat (b - (a + 1)))) by lia.
  simpl. f_equal; [lia|].
  rewrite <- fmap_S_seq, <- list_fmap_compose.
  apply list_fmap_ext. intros _ i _. simpl. lia.
Qed.

(** *** The first half of a round *)

Lemma sae_trace p start k st :
  ls_trace (es_state (solve_and_estimate p start k st))
  = ls_trace st ++ [EvPcgSolve k; EvEvaluateError k].
Proof.
  unfold solve_and_estimate, pcg_solve.
  destruct (pcg _ _ _) as [[w zeta] numit].
  destruct (evaluateError _ _ _) as [[[[[[xi ri] pj] mi] ep] er] ts]. simpl.
  by rewrite <- app_assoc.
Qed.

Lemma sae_recorded p start k st :
  es_recorded (solve_and_estimate p start k st) = records start k.
Proof.
  unfold solve_and_estimate, pcg_solve.
  destruct (pcg _ _ _) as [[w zeta] numit].
  by destruct (evaluateError _ _ _) as [[[[[[xi ri] pj] mi] ep] er] ts].
Qed.

Lemma sae_sim_stats p start k st :
  ls_sim_stats (es_state (solve_and_estimate p start k st))
  = if records start k
    then ls_sim_stats st ++ [es_stats (solve_and_estimate p start k st)]
    else ls_sim_stats st.
Proof.
  unfold solve_and_estimate, pcg_solve.
  destruct (pcg _ _ _) as [[w zeta] numit].
  by destruct (evaluateError _ _ _) as [[[[[[xi ri] pj] mi] ep] er] ts].
Qed.

Lemma sae_w_history p start k st :
  ls_w_history (es_state (solve_and_estimate p start k st))
  = match ls_w_history st with
    | Some h =>
        if records start k
        then Some (h ++ [ls_w (es_state (solve_and_estimate p start k st))])
        else Some h
    | None => None
    end.
Proof.
  unfold solve_and_estimate, pcg_solve.
  destruct (pcg _ _ _) as [[w zeta] numit].
  by destruct (evaluateError _ _ _) as [[[[[[xi ri] pj] mi] ep] er] ts].
Qed.

Lemma estimate_stats_marking w xi ri pj ep er (stats : gmap string StatVal) :
  let s := estimate_stats w xi ri pj ep er stats in
  s !! "MARKING-RES"%string = Some (VNum 0)
  ∧ s !! "MARKING-PROJ"%string = Some (VNum 0)
  ∧ s !! "MARKING-MI"%string = Some (VNum 0).
Proof.
  destruct ep as [[e1 e2] e3], er as [[r1 r2] r3]. unfold estimate_stats.
  cbv zeta. repeat split.
  - rewrite !lookup_insert_ne by done. by rewrite lookup_insert_eq.
  - rewrite !lookup_insert_ne by done. by rewrite lookup_insert_eq.
  - rewrite !lookup_insert_ne by done. by rewrite lookup_insert_eq.
Qed.

Lemma estimate_stats_dofs w xi ri pj ep er (stats : gmap string StatVal) :
  estimate_stats w xi ri pj ep er stats !! "DOFS"%string = stats !! "DOFS"%string.
Proof.
  destruct ep as [[e1 e2] e3], er as [[r1 r2] r3]. unfold estimate_stats.
  cbv zeta. by rewrite !lookup_insert_ne by done.
Qed.

Lemma sae_marking_zero p start k st :
  let s := es_stats (solve_and_estimate p start k st) in
  s !! "MARKING-RES"%string = Some (VNum 0)
  ∧ s !! "MARKING-PROJ"%string = Some (VNum 0)
  ∧ s !! "MARKING-MI"%string = Some (VNum 0).
Proof.
  unfold solve_and_estimate, pcg_solve.
  destruct (pcg _ _ _) as [[w zeta] numit].
  destruct (evaluateError _ _ _) as [[[[[[xi ri] pj] mi] ep] er] ts].
  apply estimate_stats_marking.
Qed.

Lemma sae_dofs_is_Some p start k st :
  is_Some (es_stats (solve_and_estimate p start k st) !! "DOFS"%string).
Proof.
  unfold solve_and_estimate, pcg_solve.
  destruct (pcg _ _ _) as [[w zeta] numit].
  destruct (evaluateError _ _ _) as [[[[[[xi ri] pj] mi] ep] er] ts]. simpl.
  rewrite estimate_stats_dofs. apply lookup_union_is_Some. right.
  rewrite !lookup_insert_ne by done. rewrite lookup_insert_eq. eauto.
Qed.

(** The record holds the number of degrees of freedom that [pcg_solve]
    counted, unless the timing dictionary of the estimator has a key
    "DOFS" of its own. *)
Lemma sae_dofs p start k st :
  (∀ w zeta, (evaluateError (tuning p) w zeta).2 !! "DOFS"%string = None) →
  es_stats (solve_and_estimate p start k st) !! "DOFS"%string
  = Some (VNum (inject_Z (dofs (prepare_rhs (ls_w st))))).
Proof.
  intros Hts. unfold solve_and_estimate, pcg_solve.
  destruct (pcg _ _ _) as [[w zeta] numit].
  specialize (Hts w zeta).
  destruct (evaluateError _ _ _) as [[[[[[xi ri] pj] mi] ep] er] ts]. simpl in *.
  rewrite estimate_stats_dofs. rewrite lookup_union_r by done.
  rewrite !lookup_insert_ne by done. by rewrite lookup_insert_eq.
Qed.

(** *** Writing into the last record *)

Lemma set_last_ok key v (l : list (gmap string StatVal)) :
  l ≠ [] → ∃ l', set_last key v l = Ok l' ∧ length l' = length l.
Proof.
  intros Hne. unfold set_last.
  destruct (reverse l) as [|record rest] eqn:Hrev.
  - apply (f_equal reverse) in Hrev. rewrite reverse_involutive in Hrev. done.
  - eexists. split; [done|].
    apply (f_equal length) in Hrev. rewrite length_reverse in Hrev.
    rewrite length_app, length_reverse. simpl in *. lia.
Qed.

Lemma set_stats_ok recorded key v (l : list (gmap string StatVal)) :
  l ≠ [] → ∃ l', set_stats recorded key v l = Ok l' ∧ length l' = length l.
Proof.
  intros Hne. unfold set_stats. destruct recorded; [by apply set_last_ok|].
  by exists l.
Qed.

Lemma length_nonempty {A} (l l' : list A) : l ≠ [] → length l' = length l → l' ≠ [].
Proof. intros Hne Hlen ->. destruct l; [done|]. simpl in Hlen. lia. Qed.

(** *** The second half of a round *)

Lemma mark_and_refine_ok p k (es : Estimated) :
  ls_sim_stats (es_state es) ≠ [] →
  ∃ st',
    mark_and_refine p k es = Ok st'
    ∧ length (ls_sim_stats st') = length (ls_sim_stats (es_state es))
    ∧ ls_w_history st' = ls_w_history (es_state es)
    ∧ ls_trace st' = ls_trace (es_state es) ++ marking_events p k.
Proof.
  intros Hne. unfold mark_and_refine, marking_events.
  destruct (do_uniform_refinement p); simpl.
  - destruct (set_stats_ok (es_recorded es) "TIME-MARKING"
                (VNum (elapsed_marking k)) _ Hne) as (l & -> & Hl). simpl.
    eexists. split; [done|]. simpl. done.
  - destruct (mark _ _ _ _ _ _) as [[[[mR mP] nm] pz] nall].
    destruct (set_last_ok "PROJ-MAX-ZETA" (VNum pz.1) _ Hne) as (l1 & -> & H1).
    simpl.
    destruct (set_last_ok "PROJ-MAX-INACTIVE-ZETA" (VNum pz.2) l1)
      as (l2 & -> & H2); [by eapply length_nonempty|]. simpl.
    destruct (set_last_ok "PROJ-INACTIVE-ZETA" (VObj nall) l2)
      as (l3 & -> & H3); [eapply length_nonempty; [exact Hne|lia]|]. simpl.
    destruct (set_stats_ok (es_recorded es) "MARKING-RES"
                (VNum (inject_Z (count_marked mR))) l3)
      as (l4 & -> & H4); [eapply length_nonempty; [exact Hne|lia]|]. simpl.
    destruct (set_stats_ok (es_recorded es) "MARKING-PROJ"
                (VNum (inject_Z (count_marked mP))) l4)
      as (l5 & -> & H5); [eapply length_nonempty; [exact Hne|lia]|]. simpl.
    destruct (set_stats_ok (es_recorded es) "MARKING-MI"
                (VNum (inject_Z (Z.of_nat (length (new_indices_keys nm))))) l5)
      as (l6 & -> & H6); [eapply length_nonempty; [exact Hne|lia]|]. simpl.
    destruct (set_stats_ok (es_recorded es) "TIME-MARKING"
                (VNum (elapsed_marking k)) l6)
      as (l7 & -> & H7); [eapply length_nonempty; [exact Hne|lia]|]. simpl.
    eexists. split; [done|]. simpl.
    split; [lia|]. split; [done|]. by rewrite <- app_assoc.
Qed.

Lemma stats_getitem_nonempty (l : list (gmap string StatVal)) i key v :
  stats_getitem l i key = Ok v → l ≠ [].
Proof.
  intros Hg ->. unfold stats_getitem, list_getitem in Hg.
  rewrite lookup_nil in Hg. by destruct (_ <? 0) in Hg.
Qed.

(** *** A round *)

Lemma exit_checks_None_nonempty p k (l : list (gmap string StatVal)) xi :
  exit_checks p k l xi = Ok None → l ≠ [].
Proof.
  unfold exit_checks. destruct (max_refinements p <? k); [done|].
  destruct (stats_getitem l k "DOFS") as [d|] eqn:Hd; [|done].
  intros _. by eapply stats_getitem_nonempty.
Qed.

(** A round raises exactly when its exit checks raise; otherwise it takes
    the exit that the checks give, or marks and refines when they give
    none and [k < max_refinements]. *)
Lemma iteration_cases p start k st :
  let es := solve_and_estimate p start k st in
  match exit_checks p k (ls_sim_stats (es_state es)) (es_xi es) with
  | Raise err => iteration p start k st = Raise err
  | Ok e =>
      ∃ st', iteration p start k st = Ok (e, st')
        ∧ length (ls_sim_stats st') = length (ls_sim_stats (es_state es))
        ∧ ls_w_history st' = ls_w_history (es_state es)
        ∧ ls_trace st' = ls_trace (es_state es) ++ round_events p k e
  end.
Proof.
  intros es. unfold iteration. fold es.
  destruct (exit_checks _ _ _ _) as [[e|]|err] eqn:Hchk; simpl; [| |done].
  - eexists. split; [done|]. done.
  - destruct (k <? max_refinements p) eqn:Hk.
    + destruct (mark_and_refine_ok p k es) as (st' & -> & Hlen & Hh & Htr).
      { by eapply exit_checks_None_nonempty. }
      simpl. exists st'. done.
    + eexists. split; [done|]. simpl. by rewrite app_nil_r.
Qed.

Lemma iteration_inv p start k st e st' :
  iteration p start k st = Ok (e, st') →
  let es := solve_and_estimate p start k st in
  exit_checks p k (ls_sim_stats (es_state es)) (es_xi es) = Ok e
  ∧ length (ls_sim_stats st') = length (ls_sim_stats (es_state es))
  ∧ ls_w_history st' = ls_w_history (es_state es)
  ∧ ls_trace st' = ls_trace (es_state es) ++ round_events p k e.
Proof.
  intros Hit. cbv zeta. pose proof (iteration_cases p start k st) as Hc.
  cbv zeta in Hc. destruct (exit_checks _ _ _ _) as [e0|err].
  - destruct Hc as (st0 & Hit0 & ?). rewrite Hit0 in Hit.
    injection Hit as <- <-. done.
  - rewrite Hc in Hit. done.
Qed.

Lemma solved_app (a b : list Event) : solved (a ++ b) = solved a ++ solved b.
Proof. apply omap_app. Qed.

Lemma solved_round_events p k e : solved (round_events p k e) = [].
Proof.
  unfold round_events, marking_events.
  destruct e as [[]|]; try done.
  destruct (k <? max_refinements p); [|done].
  by destruct (do_uniform_refinement p).
Qed.

Lemma marking_calls_round_events p k e :
  marking_calls (round_events p k e) ≠ [] ↔ e = None ∧ k < max_refinements p.
Proof.
  unfold round_events, marking_events.
  destruct e as [[]|]; simpl.
  1-3: split; [done|by intros [? _]].
  destruct (Z.ltb_spec k (max_refinements p)).
  - split; [done|]. intros _. by destruct (do_uniform_refinement p).
  - split; [done|]. intros [_ ?]. lia.
Qed.

Lemma round_events_refine p k :
  k < max_refinements p → EvRefine k ∈ round_events p k None.
Proof.
  intros Hk. unfold round_events, marking_events.
  destruct (Z.ltb_spec k (max_refinements p)); [|lia].
  apply elem_of_app. right. by left.
Qed.

Lemma appended_cons start k ks :
  appended start (k :: ks)
  = ((if records start k then 1 else 0) + appended start ks)%nat.
Proof.
  unfold appended. destruct (records start k) eqn:Hr.
  - rewrite filter_cons_True by by apply records_spec. done.
  - rewrite filter_cons_False; [done|].
    intros Hk. apply records_spec in Hk. congruence.
Qed.

Lemma sae_lengths p start k st :
  let st1 := es_state (solve_and_estimate p start k st) in
  length (ls_sim_stats st1)
  = (length (ls_sim_stats st) + (if records start k then 1 else 0))%nat
  ∧ (is_Some (ls_w_history st) → is_Some (ls_w_history st1))
  ∧ (ls_w_history st = None → ls_w_history st1 = None)
  ∧ (is_Some (ls_w_history st) →
     hist_len (ls_w_history st1)
     = (hist_len (ls_w_history st) + (if records start k then 1 else 0))%nat).
Proof.
  simpl. rewrite sae_sim_stats, sae_w_history.
  destruct (records start k), (ls_w_history st) as [h|]; simpl;
    rewrite ?length_app; simpl;
    repeat split; try done; try lia; try (by intros [? ?]); eauto.
Qed.

(** *** The loop *)

Lemma loop_inv p start ks : ∀ last st last' e st',
  loop p start ks last st = Ok (last', e, st') →
  ∃ rounds new,
    rounds `prefix_of` ks
    ∧ ls_trace st' = ls_trace st ++ new
    ∧ solved new = rounds
    ∧ (last' = if decide (rounds = []) then last else list.last rounds)
    ∧ length (ls_sim_stats st')
      = (length (ls_sim_stats st) + appended start rounds)%nat
    ∧ (ls_w_history st = None → ls_w_history st' = None)
    ∧ (is_Some (ls_w_history st) →
       is_Some (ls_w_history st')
       ∧ hist_len (ls_w_history st')
         = (hist_len (ls_w_history st) + appended start rounds)%nat).
Proof.
  induction ks as [|k ks IH]; intros last st last' e st' Hloop; simpl in Hloop.
  - injection Hloop as <- <- <-. exists [], [].
    rewrite app_nil_r. unfold appended. simpl.
    repeat split; try done; try lia.
  - destruct (iteration p start k st) as [[e1 st1]|err] eqn:Hit; [|done].
    simpl in Hloop.
    pose proof (iteration_inv _ _ _ _ _ _ Hit) as (Hchk & Hlen & Hh & Htr).
    pose proof (sae_lengths p start k st) as (Hl1 & Hs1 & Hn1 & Hh1).
    simpl in *. rewrite sae_trace in Htr.
    destruct e1 as [e1|].
    + injection Hloop as <- <- <-.
      exists [k], ([EvPcgSolve k; EvEvaluateError k] ++ round_events p k (Some e1)).
      split; [by apply prefix_cons, prefix_nil|].
      split; [by rewrite Htr, <- app_assoc|].
      split; [by rewrite solved_app, solved_round_events|].
      split; [done|].
      rewrite appended_cons. unfold appended at 1 2. simpl.
      rewrite Hlen, Hh.
      split; [lia|]. split; [done|]. intros HS. split; [by apply Hs1|].
      rewrite Hh1 by done. lia.
    + destruct (IH _ _ _ _ _ Hloop)
        as (rounds & new & Hpre & Htr' & Hsol & Hlast & Hlen' & Hn' & Hh').
      exists (k :: rounds),
             (([EvPcgSolve k; EvEvaluateError k] ++ round_events p k None) ++ new).
      split; [by apply prefix_cons|].
      split; [by rewrite Htr', Htr, <- !app_assoc|].
      split; [by rewrite !solved_app, solved_round_events, Hsol|].
      split.
      { rewrite Hlast. destruct rounds as [|k' rounds']; [done|].
        rewrite decide_False by done. rewrite decide_False by done. done. }
      rewrite appended_cons. rewrite Hlen', Hlen.
      split; [lia|]. rewrite Hh in *.
      split; [by intros ?; apply Hn', Hn1|].
      intros HS. destruct (Hh' (Hs1 HS)) as [HS' Hhl].
      split; [done|]. rewrite Hhl, Hh1 by done. lia.
Qed.

End AdaptiveSolverFacts.

(* ===================================================================== *)
(** * The operator: claims C1, C3, C4, C5 and C6 *)

(** C4. Incrementing a multi-index in dimension [m] and decrementing it again
    gives the multi-index back, and a decrement fails exactly when the degree
    it would produce is negative, that is when [mu[m] = 0]; where it
    succeeds, the degree of dimension [m] has gone down by one. *)
Theorem C4_inc_dec_roundtrip (mu : Multiindex.t) (m : nat) :
  Multiindex.dec (Multiindex.inc mu m) m = Some mu
  ∧ (Multiindex.dec mu m = None ↔ Multiindex.getitem mu m = 0)
  ∧ (∀ nu, Multiindex.dec mu m = Some nu →
       S (Multiindex.getitem nu m) = Multiindex.getitem mu m).
Proof.
  split; [apply MultiindexFacts.dec_inc|].
  split; [apply MultiindexFacts.dec_None|].
  intros nu. apply MultiindexFacts.dec_Some_getitem.
Qed.

(** The round trip and the failure on the multi-indices [(0, 1)] and [(0)]. *)
Lemma C4_witness :
  Multiindex.dec (Multiindex.inc Scalar1D.mu01 1) 1 = Some Scalar1D.mu01
  ∧ Multiindex.dec Scalar1D.mu0 0 = None.
Proof.
  split.
  - apply (C4_inc_dec_roundtrip Scalar1D.mu01 1).
  - apply (C4_inc_dec_roundtrip Scalar1D.mu0 0). reflexivity.
Defined.

(** C1. For a MultiVector [w] with components [W] and an active index [mu]
    with [w[mu] = x], [MultiOperator.apply(w)] returns a MultiVector whose
    component for [mu] is the mean-field contribution plus, for every
    stochastic dimension [m < maxm], the operator of dimension [m] applied to
    [-β0·w[mu] + β1·w[mu+e_m] + β(-1)·w[mu-e_m]] with
    [β = get_beta(mu[m])] ([component_spec]): in [multi_operator2.py] on the
    components as they are, in [multi_operator.py] on their projections onto
    the working basis, the sum projected back onto the basis of [w[mu]].  A
    neighbour that is not active contributes nothing: with both neighbours
    inactive only [-β0·w[mu]] is left. *)
Theorem C1_apply_component `{B : Backend} `{SB : !SharedBasis}
    (self : multi_operator.MultiOperator.t)
    (self2 : multi_operator2.MultiOperator.t)
    (s : Store) (w : loc) (W : gmap Multiindex.t Vec)
    (mu : Multiindex.t) (x : Vec) :
  heap s !! w = Some W →
  W !! mu = Some x →
  (∃ v s' V,
      multi_operator.MultiOperator.apply self w s = Ok (v, s')
      ∧ heap s' !! v = Some V
      ∧ V !! mu = Some (mo_apply_component self W mu x))
  ∧ (∃ v s' V,
      multi_operator2.MultiOperator.apply self2 w s = Ok (v, s')
      ∧ heap s' !! v = Some V
      ∧ V !! mu = Some (mo2_apply_component self2 W mu x))
  ∧ (∀ (view : Vec → Vec) m beta0 beta1 beta_1 own,
      W !! Multiindex.inc mu m = None →
      (∀ nu, Multiindex.dec mu m = Some nu → W !! nu = None) →
      neighbour_sum W view mu m (beta0, beta1, beta_1) own
      = vscale (sneg beta0) own)
  ∧ (∀ (view : Vec → Vec) m beta0 beta1 beta_1 own nu x1 x2,
      W !! Multiindex.inc mu m = Some x1 →
      Multiindex.dec mu m = Some nu → W !! nu = Some x2 →
      neighbour_sum W view mu m (beta0, beta1, beta_1) own
      = vadd (vadd (vscale (sneg beta0) own) (vscale beta1 (view x1)))
             (vscale beta_1 (view x2))).
Proof.
  intros Hw Hmu. split; [|split; [|split]].
  - destruct (returns_new (multi_operator.MultiOperator.apply self w) s w W
                (mo_apply_component self W)
                (warnings (log s)
                   ++ length_warning (multi_operator.MultiOperator._coeff_field self) W)
                Hw)
      as (v & s' & V & Hc & _ & _ & Hh & _ & HV & _).
    { apply mo_apply_runs; [done|]. intros _. by eapply lookup_nonempty. }
    exists v, s', V. split; [done|]. split; [|by apply HV].
    rewrite Hh. apply lookup_insert_eq.
  - destruct (returns_new (multi_operator2.MultiOperator.apply self2 w) s w W
                (mo2_apply_component self2 W)
                (warnings (log s)
                   ++ length_warning (multi_operator2.MultiOperator._coeff_field self2) W)
                Hw)
      as (v & s' & V & Hc & _ & _ & Hh & _ & HV & _).
    { by apply mo2_apply_runs. }
    exists v, s', V. split; [done|]. split; [|by apply HV].
    rewrite Hh. apply lookup_insert_eq.
  - intros view m beta0 beta1 beta_1 own. apply neighbour_sum_alone.
  - intros view m beta0 beta1 beta_1 own nu x1 x2. apply neighbour_sum_both.
Qed.

(** The component [(1)] of the operator applied to the MultiVector with the
    components [(0)], [(1)] and [(0, 1)]. *)
Lemma C1_witness :
  ∃ v s' V,
    multi_operator.MultiOperator.apply
      (Scalar1D.op multi_operator.JOINT_MU) 0 (Scalar1D.store_of Scalar1D.W3)
    = Ok (v, s')
    ∧ heap s' !! v = Some V
    ∧ V !! Scalar1D.mu1
      = Some (mo_apply_component (Scalar1D.op multi_operator.JOINT_MU)
                Scalar1D.W3 Scalar1D.mu1 7%Z).
Proof.
  refine (proj1 (C1_apply_component (SB := Scalar1D.shared_basis) (Scalar1D.op multi_operator.JOINT_MU)
                   Scalar1D.op2 (Scalar1D.store_of Scalar1D.W3) 0 Scalar1D.W3
                   Scalar1D.mu1 7%Z _ _));
    reflexivity.
Defined.

(** C3. When the order of the MultiVector exceeds the length of the
    coefficient field, [apply] and [apply_A] of both files do not raise: they
    log the warning, visit the dimensions [0 .. len(coeff_field) - 1] only,
    and return the result. *)
Theorem C3_short_coefficient_field_not_fatal `{B : Backend} `{SB : !SharedBasis}
    (cf : CoefficientField) (assemble_0 : Assembler)
    (assemble_m : option Assembler) (domain codomain : option Basis)
    (assembly_type : multi_operator.ASSEMBLY_TYPE)
    (s : Store) (w : loc) (W : gmap Multiindex.t Vec) :
  let self := multi_operator.MultiOperator.__init__
                cf assemble_0 assemble_m domain codomain assembly_type in
  let self2 := multi_operator2.MultiOperator.__init__
                 cf assemble_0 assemble_m domain codomain in
  let warning := Warn_insufficient_length (cf_len cf) (max_order W) in
  heap s !! w = Some W →
  cf_len cf < max_order W →
  effective_maxm cf W = cf_len cf
  ∧ (∃ v s' V,
      multi_operator.MultiOperator.apply self w s = Ok (v, s')
      ∧ warnings (log s') = warnings (log s) ++ [warning]
      ∧ heap s' !! v = Some V
      ∧ ∀ mu x, W !! mu = Some x →
          V !! mu = Some (mo_apply_component self W mu x))
  ∧ (∃ v s' V,
      multi_operator.MultiOperator.apply_A self w s = Ok (v, s')
      ∧ warnings (log s') = warnings (log s) ++ [warning]
      ∧ heap s' !! v = Some V
      ∧ ∀ mu x, W !! mu = Some x →
          V !! mu = Some (mo_apply_A_component self W mu x))
  ∧ (∃ v s' V,
      multi_operator2.MultiOperator.apply self2 w s = Ok (v, s')
      ∧ warnings (log s') = warnings (log s) ++ [warning]
      ∧ heap s' !! v = Some V
      ∧ ∀ mu x, W !! mu = Some x →
          V !! mu = Some (mo2_apply_component self2 W mu x))
  ∧ (∃ v s' V,
      multi_operator2.MultiOperator.apply_A self2 w s = Ok (v, s')
      ∧ warnings (log s') = warnings (log s) ++ [warning]
      ∧ heap s' !! v = Some V
      ∧ ∀ mu x, W !! mu = Some x →
          V !! mu = Some (mo2_apply_A_component self2 W mu x)).
Proof.
  intros self self2 warning Hw Hlt. subst warning.
  assert (W ≠ ∅) as Hne by (apply max_order_pos_nonempty; lia).
  pose proof (length_warning_truncated cf W Hlt) as Hlw.
  split; [by apply effective_maxm_truncated|].
  split; [|split; [|split]].
  - destruct (returns_new (multi_operator.MultiOperator.apply self w) s w W
                (mo_apply_component self W) (warnings (log s)
                   ++ [Warn_insufficient_length (cf_len cf) (max_order W)]) Hw)
      as (v & s' & V & Hc & _ & _ & Hh & _ & HV & Hwl).
    { rewrite <- Hlw. by apply mo_apply_runs. }
    exists v, s', V. repeat split; try done. rewrite Hh. apply lookup_insert_eq.
  - destruct (returns_new (multi_operator.MultiOperator.apply_A self w) s w W
                (mo_apply_A_component self W) (warnings (log s)
                   ++ [Warn_insufficient_length (cf_len cf) (max_order W)]) Hw)
      as (v & s' & V & Hc & _ & _ & Hh & _ & HV & Hwl).
    { rewrite <- Hlw. by apply mo_apply_A_runs. }
    exists v, s', V. repeat split; try done. rewrite Hh. apply lookup_insert_eq.
  - destruct (returns_new (multi_operator2.MultiOperator.apply self2 w) s w W
                (mo2_apply_component self2 W) (warnings (log s)
                   ++ [Warn_insufficient_length (cf_len cf) (max_order W)]) Hw)
      as (v & s' & V & Hc & _ & _ & Hh & _ & HV & Hwl).
    { rewrite <- Hlw. by apply mo2_apply_runs. }
    exists v, s', V. repeat split; try done. rewrite Hh. apply lookup_insert_eq.
  - destruct (returns_new (multi_operator2.MultiOperator.apply_A self2 w) s w W
                (mo2_apply_A_component self2 W) (warnings (log s)
                   ++ [Warn_insufficient_length (cf_len cf) (max_order W)]) Hw)
      as (v & s' & V & Hc & _ & _ & Hh & _ & HV & Hwl).
    { rewrite <- Hlw. by apply mo2_apply_A_runs. }
    exists v, s', V. repeat split; try done. rewrite Hh. apply lookup_insert_eq.
Qed.

(** A MultiVector of order 2 on a coefficient field with one term: [apply]
    returns and the log holds the warning. *)
Lemma C3_witness :
  ∃ v s' V,
    multi_operator2.MultiOperator.apply (SB := Scalar1D.shared_basis)
      Scalar1D.op2 0 (Scalar1D.store_of Scalar1D.W3) = Ok (v, s')
    ∧ warnings (log s') = [Warn_insufficient_length 1 2]
    ∧ heap s' !! v = Some V
    ∧ ∀ mu x, Scalar1D.W3 !! mu = Some x →
        V !! mu = Some (mo2_apply_component (SB := Scalar1D.shared_basis)
                          Scalar1D.op2 Scalar1D.W3 mu x).
Proof.
  refine (proj1 (proj2 (proj2 (proj2
            (C3_short_coefficient_field_not_fatal (SB := Scalar1D.shared_basis)
               Scalar1D.cf1 Scalar1D.assemble
               None None None multi_operator.JOINT_MU
               (Scalar1D.store_of Scalar1D.W3) 0 Scalar1D.W3 _ _))))).
  - reflexivity.
  - vm_compute. lia.
Defined.




(** C6. [PreconditioningOperator.apply(w)] returns a MultiVector with the
    active indices of [w] whose component for [mu] is the mean-field solve
    operator, assembled on the basis of [w[mu]] with the mean coefficient,
    applied to [w[mu]]: nothing else of [w] enters it. *)
Theorem C6_preconditioner_mean_field_only `{B : Backend}
    (self : multi_operator.PreconditioningOperator.t)
    (self2 : multi_operator2.PreconditioningOperator.t)
    (s : Store) (w : loc) (W : gmap Multiindex.t Vec) :
  heap s !! w = Some W →
  (∃ v s' V,
      multi_operator.PreconditioningOperator.apply self w s = Ok (v, s')
      ∧ heap s' !! v = Some V
      ∧ dom V = dom W
      ∧ ∀ mu x, W !! mu = Some x →
          V !! mu
          = Some (op_apply
                    (multi_operator.PreconditioningOperator._assemble_solver self
                       (ABasis (vec_basis x))
                       (ACoef (multi_operator.PreconditioningOperator._mean_func self)))
                    x))
  ∧ (∃ v s' V,
      multi_operator2.PreconditioningOperator.apply self2 w s = Ok (v, s')
      ∧ heap s' !! v = Some V
      ∧ dom V = dom W
      ∧ ∀ mu x, W !! mu = Some x →
          V !! mu
          = Some (op_apply
                    (multi_operator2.PreconditioningOperator._assemble_solver self2
                       (ABasis (vec_basis x))
                       (ACoef (multi_operator2.PreconditioningOperator._mean_func self2)))
                    x)).
Proof.
  intros Hw. split.
  - destruct (returns_new (multi_operator.PreconditioningOperator.apply self w) s w W
                (λ mu x, mo_precond_component self mu x) (warnings (log s)) Hw)
      as (v & s' & V & Hc & _ & _ & Hh & Hdom & HV & _).
    { by apply mo_precond_runs. }
    exists v, s', V. repeat split; try done. rewrite Hh. apply lookup_insert_eq.
  - destruct (returns_new (multi_operator2.PreconditioningOperator.apply self2 w) s w W
                (λ mu x, mo2_precond_component self2 mu x) (warnings (log s)) Hw)
      as (v & s' & V & Hc & _ & _ & Hh & Hdom & HV & _).
    { by apply mo2_precond_runs. }
    exists v, s', V. repeat split; try done. rewrite Hh. apply lookup_insert_eq.
Qed.

Lemma C6_witness :
  ∃ v s' V,
    multi_operator.PreconditioningOperator.apply Scalar1D.precond 0
      (Scalar1D.store_of Scalar1D.W2) = Ok (v, s')
    ∧ heap s' !! v = Some V
    ∧ dom V = dom Scalar1D.W2
    ∧ ∀ mu x, Scalar1D.W2 !! mu = Some x → V !! mu = Some (2 * x)%Z.
Proof.
  refine (proj1 (C6_preconditioner_mean_field_only Scalar1D.precond
                   Scalar1D.precond2 (Scalar1D.store_of Scalar1D.W2) 0
                   Scalar1D.W2 _)).
  reflexivity.
Defined.

(* ===================================================================== *)
(** * The orthogonal polynomials: claim C10 *)



(* ===================================================================== *)
(** * The refinement loop: claims C2, C7 and C8 *)

Section AdaptiveSolverRuns.
Context `{Env : SolverEnv}.
Import adaptive_solver.
Local Open Scope Z_scope.

(** The state in which a call without statistics enters the loop. *)
Lemma fresh_call p w0 hist :
  hist = None ∨ hist = Some [] →
  AdaptiveSolver p w0 hist None
  = rbind (loop p 0 (range 0 (max_refinements p + 1)) None
             {| ls_w := w0; ls_w_history := hist;
                ls_sim_stats := []; ls_trace := [] |})
      (λ r, let '(refinement, exit, st) := r in
            rbind (final_message refinement (ls_sim_stats st))
              (λ _, Ok (ls_w st, ls_sim_stats st, ls_w_history st,
                        ls_trace st, exit))).
Proof. by intros [-> | ->]. Qed.

(** The first round of a call without statistics: the record is appended
    and the exit checks read its "DOFS". *)
Lemma fresh_round p w0 hist :
  0 ≤ max_refinements p →
  let st0 := {| ls_w := w0; ls_w_history := hist;
                ls_sim_stats := []; ls_trace := [] |} in
  let es := solve_and_estimate p 0 0 st0 in
  ∃ d e st',
    es_stats es !! "DOFS"%string = Some d
    ∧ ls_sim_stats (es_state es) = [es_stats es]
    ∧ e = (if val_ge d (max_dof p) then Some REACHED_DOFS
           else if Qle_bool (es_xi es) (error_eps p) then Some REACHED_ACCURACY
           else None)
    ∧ iteration p 0 0 st0 = Ok (e, st')
    ∧ length (ls_sim_stats st') = 1%nat
    ∧ (∀ key v, e ≠ None → es_stats es !! key = Some v →
         ∃ record, ls_sim_stats st' = [record] ∧ record !! key = Some v)
    ∧ ls_trace st' = [EvPcgSolve 0; EvEvaluateError 0] ++ round_events p 0 e.
Proof.
  intros Hmax st0 es.
  destruct (sae_dofs_is_Some p 0 0 st0) as [d Hd]. fold es in Hd.
  assert (ls_sim_stats (es_state es) = [es_stats es]) as Hss
    by (unfold es; by rewrite sae_sim_stats).
  pose proof (iteration_cases p 0 0 st0) as Hc. cbv zeta in Hc. fold es in Hc.
  assert (exit_checks p 0 (ls_sim_stats (es_state es)) (es_xi es)
          = Ok (if val_ge d (max_dof p) then Some REACHED_DOFS
                else if Qle_bool (es_xi es) (error_eps p)
                     then Some REACHED_ACCURACY else None)) as Hchk.
  { unfold exit_checks. destruct (Z.ltb_spec (max_refinements p) 0); [lia|].
    rewrite Hss. unfold stats_getitem, list_getitem. simpl. rewrite Hd. simpl.
    by destruct (val_ge d (max_dof p)), (Qle_bool (es_xi es) (error_eps p)). }
  rewrite Hchk in Hc. destruct Hc as (st' & Hit & Hlen & Hh & Htr).
  eexists d, _, st'. split; [done|]. split; [done|]. split; [reflexivity|].
  split; [done|]. split; [by rewrite Hlen, Hss|]. split.
  - intros key v Hne Hv. exists (es_stats es). split; [|done].
    unfold iteration in Hit. fold es in Hit. rewrite Hchk in Hit. simpl in Hit.
    destruct (val_ge d (max_dof p)).
    + injection Hit as <-. done.
    + destruct (Qle_bool (es_xi es) (error_eps p)); [|done].
      injection Hit as <-. done.
  - rewrite Htr. unfold es. by rewrite sae_trace.
Qed.

Lemma calls_round_events_exit p (e : Exit) k :
  calls (round_events p k (Some e)) = []
  ∧ marking_calls (round_events p k (Some e)) = [].
Proof. by destruct e. Qed.

(** C8. A call without earlier statistics and with [max_refinements = 0]
    (whatever [error_eps] is, 0 in particular) returns after one PCG solve
    and one error evaluation, with exactly one statistics record, and calls
    neither [Marking.mark] nor [Marking.refine]. *)
Theorem C8_single_round_without_marking (p : Params) (w0 : MV)
    (w_history : option (list MV)) :
  w_history = None ∨ w_history = Some [] →
  max_refinements p = 0 →
  ∃ w record w_history' trace exit,
    AdaptiveSolver p w0 w_history None
    = Ok (w, [record], w_history', trace, exit)
    ∧ calls trace = [EvPcgSolve 0; EvEvaluateError 0]
    ∧ marking_calls trace = [].
Proof.
  intros Hh Hmax. rewrite (fresh_call p w0 w_history Hh). rewrite Hmax.
  change (range 0 (0 + 1)) with [0]. simpl loop.
  destruct (fresh_round p w0 w_history) as (d & e & st' & _ & _ & _ & Hit & Hlen & _ & Htr);
    [lia|].
  rewrite Hit. simpl.
  destruct (ls_sim_stats st') as [|record [|? ?]] eqn:Hss; try done.
  destruct e as [e|]; simpl; rewrite Hss.
  - exists (ls_w st'), record, (ls_w_history st'), (ls_trace st'), (Some e).
    split; [done|]. rewrite Htr.
    destruct (calls_round_events_exit p e 0) as [Hc Hm].
    unfold calls, marking_calls in *. rewrite !filter_app, Hc, Hm. done.
  - exists (ls_w st'), record, (ls_w_history st'), (ls_trace st'), None.
    split; [done|]. rewrite Htr. unfold round_events. rewrite Hmax. done.
Qed.

(** C2. In a round [k], after the solve and the estimate, the exits are
    tried in this order: [k > max_refinements], then
    [sim_stats[k]["DOFS"] >= max_dof], then [xi <= error_eps]; the round
    marks and refines exactly when no exit is taken and
    [k < max_refinements].  A call without earlier statistics and with
    [max_refinements >= 0] whose [max_dof] does not exceed the number of
    degrees of freedom of the initial vector leaves the loop in round 0 by
    the second exit, with one record whose marking statistics are zero;
    the number in the record is the one that [pcg_solve] counted provided
    that the timing dictionary of the estimator has no key "DOFS". *)
Theorem C2_exit_checks_in_order (p : Params) :
  (∀ (start k : Z) (st : LoopState) (d : StatVal),
      let es := solve_and_estimate p start k st in
      (k ≤ max_refinements p →
       stats_getitem (ls_sim_stats (es_state es)) k "DOFS" = Ok d) →
      ∃ e st',
        iteration p start k st = Ok (e, st')
        ∧ (max_refinements p < k → e = Some SKIPPING)
        ∧ (k ≤ max_refinements p → val_ge d (max_dof p) = true →
           e = Some REACHED_DOFS)
        ∧ (k ≤ max_refinements p → val_ge d (max_dof p) = false →
           Qle_bool (es_xi es) (error_eps p) = true →
           e = Some REACHED_ACCURACY)
        ∧ (k ≤ max_refinements p → val_ge d (max_dof p) = false →
           Qle_bool (es_xi es) (error_eps p) = false →
           e = None)
        ∧ ∃ new,
            ls_trace st' = ls_trace (es_state es) ++ new
            ∧ (marking_calls new ≠ [] ↔ e = None ∧ k < max_refinements p)
            ∧ (e = None → k < max_refinements p → EvRefine k ∈ new))
  ∧ (∀ (w0 : MV) (w_history : option (list MV)),
      w_history = None ∨ w_history = Some [] →
      0 ≤ max_refinements p →
      (∀ w zeta, (evaluateError (tuning p) w zeta).2 !! "DOFS"%string = None) →
      (max_dof p <= inject_Z (dofs (prepare_rhs w0)))%Q →
      ∃ w record w_history',
        AdaptiveSolver p w0 w_history None
        = Ok (w, [record], w_history',
              [EvPcgSolve 0; EvEvaluateError 0; InfoReachedDofs 0],
              Some REACHED_DOFS)
        ∧ record !! "MARKING-RES"%string = Some (VNum 0)
        ∧ record !! "MARKING-PROJ"%string = Some (VNum 0)
        ∧ record !! "MARKING-MI"%string = Some (VNum 0)).
Proof.
  split.
  - intros start k st d es Hd.
    pose proof (iteration_cases p start k st) as Hc. cbv zeta in Hc. fold es in Hc.
    unfold exit_checks in Hc.
    destruct (Z.ltb_spec (max_refinements p) k) as [Hk|Hk].
    + destruct Hc as (st' & Hit & _ & _ & Htr).
      exists (Some SKIPPING), st'. split; [done|]. split; [done|].
      split; [lia|]. split; [lia|]. split; [lia|].
      exists (round_events p k (Some SKIPPING)). split; [done|].
      split; [apply marking_calls_round_events|done].
    + rewrite (Hd Hk) in Hc. simpl in Hc.
      destruct (val_ge d (max_dof p)) eqn:Hge;
        [|destruct (Qle_bool (es_xi es) (error_eps p)) eqn:Hxi];
        destruct Hc as (st' & Hit & _ & _ & Htr);
        eexists _, st'; (split; [exact Hit|]);
        (split; [lia|]); (split; [done|]); (split; [done|]); (split; [done|]);
        eexists; (split; [exact Htr|]);
        (split; [apply marking_calls_round_events|]); try done.
      intros _. apply round_events_refine.
  - intros w0 w_history Hh Hmax Hts Hdof.
    rewrite (fresh_call p w0 w_history Hh).
    rewrite range_cons by lia. simpl loop.
    destruct (fresh_round p w0 w_history Hmax)
      as (d & e & st' & Hd & _ & He & Hit & Hlen & Hrec & Htr).
    rewrite (sae_dofs p 0 0 _ Hts) in Hd. injection Hd as <-.
    simpl in He, Hdof.
    assert (e = Some REACHED_DOFS) as ->.
    { rewrite He. unfold val_ge, VNum.
      apply Qle_bool_iff in Hdof. by rewrite Hdof. }
    rewrite Hit. simpl.
    pose proof (sae_marking_zero p 0 0
                  {| ls_w := w0; ls_w_history := w_history;
                     ls_sim_stats := []; ls_trace := [] |}) as (M1 & M2 & M3).
    destruct (Hrec _ _ ltac:(done) M1) as (record & Hss & R1).
    destruct (Hrec _ _ ltac:(done) M2) as (record2 & Hss2 & R2).
    destruct (Hrec _ _ ltac:(done) M3) as (record3 & Hss3 & R3).
    rewrite Hss in Hss2, Hss3. injection Hss2 as <-. injection Hss3 as <-.
    exists (ls_w st'), record, (ls_w_history st').
    rewrite Hss, Htr. done.
Qed.

(** C7. A call with an earlier statistics history [sim_stats] and solution
    history [w_history] that returns has run the rounds
    [start, start + 1, ..] with [start = max(len(sim_stats) - 1, 0)]; a
    round [k] appends its statistics record, and the solution, exactly when
    [k = 0] or [start < k]; so both lists have grown by the number
    [appended start rounds] of such rounds, and they have the same length afterwards when they had the
    same length before. *)
Theorem C7_resume_keeps_histories_aligned (p : Params) (w0 : MV)
    (w_history : list MV) (sim_stats : list (gmap string StatVal))
    (r : MV * list (gmap string StatVal) * option (list MV) * list Event
         * option Exit) :
  AdaptiveSolver p w0 (Some w_history) (Some sim_stats) = Ok r →
  let start := Z.max (Z.of_nat (length sim_stats) - 1) 0 in
  let '(w, sim_stats', w_history', trace, exit) := r in
  ∃ rounds h',
    w_history' = Some h'
    ∧ solved trace = rounds
    ∧ rounds `prefix_of` range start (max_refinements p + 1)
    ∧ length sim_stats'
      = (length sim_stats + appended start rounds)%nat
    ∧ length h'
      = (length w_history + appended start rounds)%nat
    ∧ (length w_history = length sim_stats → length h' = length sim_stats')
    ∧ (∀ k st,
        let es := solve_and_estimate p start k st in
        ls_sim_stats (es_state es)
        = (if decide (k = 0 ∨ start < k)
           then ls_sim_stats st ++ [es_stats es] else ls_sim_stats st)
        ∧ ls_w_history (es_state es)
          = (λ h, if decide (k = 0 ∨ start < k)
                  then h ++ [ls_w (es_state es)] else h) <$> ls_w_history st).
Proof.
  intros Hrun start. unfold AdaptiveSolver in Hrun. simpl in Hrun.
  fold start in Hrun. change (start_iteration sim_stats) with start in Hrun.
  destruct (loop p start _ None _) as [[[last e] st']|err] eqn:Hloop; [|done].
  simpl in Hrun.
  destruct (final_message last (ls_sim_stats st')) as [[]|err]; [|done].
  simpl in Hrun. injection Hrun as <-.
  destruct (loop_inv _ _ _ _ _ _ _ _ Hloop)
    as (rounds & new & Hpre & Htr & Hsol & _ & Hlen & _ & Hh).
  simpl in *. destruct Hh as [[h' Hh'] Hhl]; [eauto|].
  rewrite Hh' in Hhl. simpl in Hhl.
  exists rounds, h'. split; [done|]. split; [by rewrite Htr|].
  split; [done|]. split; [done|]. split; [done|]. split; [lia|].
  intros k st. rewrite sae_sim_stats, sae_w_history.
  pose proof (records_spec start k) as Hspec.
  destruct (records start k), (decide (k = 0 ∨ start < k)) as [Hk|Hk];
    try (by destruct (ls_w_history st)).
  - exfalso. apply Hk. by apply Hspec.
  - apply Hspec in Hk. done.
Qed.

End AdaptiveSolverRuns.

(** A call with [max_refinements = 0] on the one-dimensional environment. *)
Lemma C8_witness :
  ∃ w record w_history' trace exit,
    adaptive_solver.AdaptiveSolver (Solver1D.params 0%Q 0 1000%Q) 4%Z None None
    = Ok (w, [record], w_history', trace, exit)
    ∧ adaptive_solver.calls trace
      = [adaptive_solver.EvPcgSolve 0; adaptive_solver.EvEvaluateError 0]
    ∧ adaptive_solver.marking_calls trace = [].
Proof.
  apply (C8_single_round_without_marking (Solver1D.params 0%Q 0 1000%Q) 4%Z None).
  - left. reflexivity.
  - reflexivity.
Defined.

(** A vector with 4 degrees of freedom and [max_dof = 3]. *)
Lemma C2_witness :
  ∃ w record w_history',
    adaptive_solver.AdaptiveSolver (Solver1D.params 0%Q 3 3%Q) 4%Z None None
    = Ok (w, [record], w_history',
          [adaptive_solver.EvPcgSolve 0; adaptive_solver.EvEvaluateError 0;
           adaptive_solver.InfoReachedDofs 0],
          Some adaptive_solver.REACHED_DOFS)
    ∧ record !! "MARKING-RES"%string = Some (adaptive_solver.VNum 0)
    ∧ record !! "MARKING-PROJ"%string = Some (adaptive_solver.VNum 0)
    ∧ record !! "MARKING-MI"%string = Some (adaptive_solver.VNum 0).
Proof.
  apply (proj2 (C2_exit_checks_in_order (Solver1D.params 0%Q 3 3%Q)) 4%Z None).
  - left. reflexivity.
  - vm_compute. discriminate.
  - intros w zeta. reflexivity.
  - vm_compute. discriminate.
Defined.

(** A run resumed with the three records and solutions of an earlier run:
    it returns, and the two lists have the same length afterwards. *)
Lemma C7_witness :
  ∃ w sim_stats' h' trace exit,
    adaptive_solver.AdaptiveSolver (Solver1D.params 0%Q 4 1000%Q)
      Solver1D.earlier_w (Some Solver1D.earlier_history)
      (Some Solver1D.earlier_stats)
    = Ok (w, sim_stats', Some h', trace, exit)
    ∧ length h' = length sim_stats'.
Proof.
  destruct (adaptive_solver.AdaptiveSolver (Solver1D.params 0%Q 4 1000%Q)
              Solver1D.earlier_w (Some Solver1D.earlier_history)
              (Some Solver1D.earlier_stats))
    as [[[[[w sim_stats'] hh] trace] exit]|err] eqn:Hrun.
  - pose proof (C7_resume_keeps_histories_aligned _ _ _ _ _ Hrun) as H.
    cbv beta zeta iota in H.
    destruct H as (rounds & h' & -> & _ & _ & _ & _ & Hal & _).
    exists w, sim_stats', h', trace, exit. split; [reflexivity|].
    apply Hal. reflexivity.
  - assert (is_ok (adaptive_solver.AdaptiveSolver (Solver1D.params 0%Q 4 1000%Q)
                     Solver1D.earlier_w (Some Solver1D.earlier_history)
                     (Some Solver1D.earlier_stats)) = true) as Hok
      by (vm_compute; reflexivity).
    rewrite Hrun in Hok. discriminate Hok.
Defined.

(* ===================================================================== *)
(** * The projection error: claim C9 *)


(* ===================================================================== *)
(** * The polynomial evaluators *)

Section EvaluatorFacts.
Import _polynomials.
Local Open Scope Q_scope.

Lemma rfold_app {A C} (l1 l2 : list A) (acc : C) (body : C → A → Result C) :
  rfold (l1 ++ l2) acc body = rbind (rfold l1 acc body) (λ acc, rfold l2 acc body).
Proof.
  revert acc. induction l1 as [|x l1 IH]; intros acc; simpl; [done|].
  destruct (body acc x); simpl; [apply IH|done].
Qed.

Lemma rfold_ext {A C} (l : list A) (acc : C) (f g : C → A → Result C) :
  (∀ c x, x ∈ l → f c x = g c x) →
  rfold l acc f = rfold l acc g.
Proof.
  revert acc. induction l as [|x l IH]; intros acc Hfg; simpl; [done|].
  rewrite Hfg by left. destruct (g acc x); simpl; [|done].
  apply IH. intros c y Hy. apply Hfg. by right.
Qed.

Lemma range_snoc (a b : Z) : (a ≤ b)%Z → range a (b + 1) = range a b ++ [b].
Proof.
  intros Hab. unfold range.
  replace (Z.to_nat (b + 1 - a)) with (S (Z.to_nat (b - a))) by lia.
  rewrite seq_S, fmap_app. simpl. do 2 f_equal. lia.
Qed.

Lemma elem_of_range (a b i : Z) : i ∈ range a b ↔ (a ≤ i < b)%Z.
Proof.
  unfold range. rewrite list_elem_of_fmap. split.
  - intros (k & -> & Hk). apply elem_of_seq in Hk. lia.
  - intros Hi. exists (Z.to_nat (i - a)). split; [lia|].
    apply elem_of_seq. lia.
Qed.

Lemma list_getitem_nat {A} (l : list A) (k : nat) (x : A) :
  l !! k = Some x → adaptive_solver.list_getitem l (Z.of_nat k) = Ok x.
Proof.
  intros Hk. unfold adaptive_solver.list_getitem.
  destruct (Z.ltb_spec (Z.of_nat k) 0); [lia|].
  destruct (Z.ltb_spec (Z.of_nat k) 0); [lia|].
  by rewrite Nat2Z.id, Hk.
Qed.

Lemma list_getitem_last {A} (l : list A) (x : A) :
  adaptive_solver.list_getitem (l ++ [x]) (-1) = Ok x.
Proof.
  unfold adaptive_solver.list_getitem. simpl.
  rewrite length_app. simpl.
  destruct (Z.ltb_spec (Z.of_nat (length l + 1) + -1) 0); [lia|].
  replace (Z.to_nat (Z.of_nat (length l + 1) + -1)) with (length l) by lia.
  by rewrite list_lookup_middle.
Qed.

(** *** [compute_poly] and [_compute_poly2] step by step *)

Lemma two_loops_in_step (rc_func : polyquad.RCFunc) (x : Q) (m : nat) :
  ∀ (k : nat) (f : list Q) (y0 y1 h0 h1 : Q),
    length f = k → y0 == h0 → y1 == h1 →
    match rfold (range (Z.of_nat k) (Z.of_nat k + Z.of_nat m)) (f ++ [y0; y1])
            (λ f i,
               r <~ rc_func i ;;
               let '(a, b, c) := r in
               fi1 <~ adaptive_solver.list_getitem f (i + 1)%Z ;;
               fi <~ adaptive_solver.list_getitem f i ;;
               let fn := (x * b + a) * fi1 - c * fi in
               Ok (f ++ [fn])),
          rfold (range (Z.of_nat k) (Z.of_nat k + Z.of_nat m)) (h1, h0)
            (λ h i,
               let '(h1, h0) := h in
               r <~ rc_func i ;;
               let '(a, b, c) := r in
               Ok ((x * b + a) * h1 - c * h0, h1))
    with
    | Ok F, Ok (h1', h0') =>
        ∃ f' z0 z1, F = f' ++ [z0; z1] ∧ length f' = (k + m)%nat
                    ∧ z0 == h0' ∧ z1 == h1'
    | Raise e, Raise e' => e = e'
    | _, _ => False
    end.
Proof.
  induction m as [|m IH]; intros k f y0 y1 h0 h1 Hlen H0 H1.
  - rewrite range_nil by lia. simpl. exists f, y0, y1.
    split; [done|]. split; [lia|]. done.
  - rewrite range_cons by lia. cbn [rfold].
    destruct (rc_func (Z.of_nat k)) as [[[a b] c]|e]; cbn [rbind]; [|done].
    replace (Z.of_nat k + Z.of_nat (S m))%Z with (Z.of_nat (S k) + Z.of_nat m)%Z by lia.
    replace (Z.of_nat k + 1)%Z with (Z.of_nat (S k)) by lia.
    rewrite (list_getitem_nat (f ++ [y0; y1]) (S k) y1); last first.
    { rewrite lookup_app_r by lia. by replace (S k - length f)%nat with 1%nat by lia. }
    cbn [rbind].
    rewrite (list_getitem_nat (f ++ [y0; y1]) k y0); last first.
    { rewrite lookup_app_r by lia. by replace (k - length f)%nat with 0%nat by lia. }
    cbn [rbind].
    replace ((f ++ [y0; y1]) ++ [(x * b + a) * y1 - c * y0])
      with ((f ++ [y0]) ++ [y1; (x * b + a) * y1 - c * y0])
      by (by rewrite <- !app_assoc).
    specialize (IH (S k) (f ++ [y0]) y1 ((x * b + a) * y1 - c * y0) h1
                   ((x * b + a) * h1 - c * h0)).
    lapply IH; [clear IH; intros IH|rewrite length_app; simpl; lia].
    specialize (IH H1). lapply IH; [clear IH; intros IH|by rewrite H0, H1].
    destruct (rfold _ ((f ++ [y0]) ++ _) _) as [F|e];
      destruct (rfold _ (_, h1) _) as [[h1' h0']|e']; try done.
    destruct IH as (f' & z0 & z1 & -> & Hl & Hz0 & Hz1).
    exists f', z0, z1. split; [done|]. split; [lia|]. done.
Qed.

(** X1. [_compute_poly2(rc_func, n, x)] is the last of the values of
    [compute_poly(rc_func, n, x)] up to the equality of the rationals, for
    every integer [n] and every recurrence function: both return, or both
    raise the exception of the same call of [rc_func]. *)
Theorem compute_poly2_is_last_of_compute_poly (rc_func : polyquad.RCFunc)
    (n : Z) (x : Q) :
  Req (l <~ polyquad.compute_poly rc_func n x ;;
       adaptive_solver.list_getitem l (-1))
      (polyquad._compute_poly2 rc_func n x).
Proof.
  unfold polyquad.compute_poly, polyquad._compute_poly2.
  destruct (Z.eqb_spec n 0) as [->|Hn0].
  { rewrite range_nil by lia. simpl. by constructor. }
  destruct (Z.le_gt_cases n 0) as [Hneg|Hpos].
  { rewrite range_nil by lia. simpl. constructor.
    unfold polyquad._1. ring. }
  pose proof (two_loops_in_step rc_func x (Z.to_nat n) 0 []
                (polyquad._0 x) (polyquad._1 x) 0 1) as H.
  replace (Z.of_nat 0 + Z.of_nat (Z.to_nat n))%Z with n in H by lia.
  change (Z.of_nat 0) with 0%Z in H. change ([] ++ ?l) with l in H.
  lapply H; [clear H; intros H|done].
  lapply H; [clear H; intros H|unfold polyquad._0; ring].
  lapply H; [clear H; intros H|unfold polyquad._1; ring].
  destruct (rfold _ [_; _] _) as [F|e];
    destruct (rfold _ (1, 0) _) as [[h1' h0']|e']; try done; cbn [rbind].
  - destruct H as (f' & z0 & z1 & -> & Hl & Hz0 & Hz1).
    replace (drop 1 (f' ++ [z0; z1])) with (drop 1 (f' ++ [z0]) ++ [z1]).
    + rewrite list_getitem_last. by constructor.
    + destruct f' as [|y f']; simpl; [done|].
      rewrite !drop_0. by rewrite <- (app_assoc f' [z0] [z1]).
  - subst. constructor.
Qed.

(** *** The values of [compute_poly] for a recurrence that returns *)

Lemma poly_pair_snd (rc : Z → RC) (x : Q) (k : nat) :
  (polyquad.poly_pair rc x (S k)).2 = polyquad.poly rc x k.
Proof.
  unfold polyquad.poly. simpl.
  destruct (polyquad.poly_pair rc x k) as [p p'].
  by destruct (rc (Z.of_nat k)) as [[a b] c].
Qed.

Lemma poly_S (rc : Z → RC) (x : Q) (k : nat) :
  polyquad.poly rc x (S k)
  = (x * rc_b (rc (Z.of_nat k)) + (rc (Z.of_nat k)).1.1) * polyquad.poly rc x k
    - rc_c (rc (Z.of_nat k)) * (polyquad.poly_pair rc x k).2.
Proof.
  unfold polyquad.poly, rc_b, rc_c. simpl.
  destruct (polyquad.poly_pair rc x k) as [p p'].
  by destruct (rc (Z.of_nat k)) as [[a b] c].
Qed.

Lemma compute_poly_loop (rc : Z → RC) (x : Q) (m : nat) :
  ∀ k : nat,
    rfold (range (Z.of_nat k) (Z.of_nat k + Z.of_nat m))
      (polyquad._0 x :: (polyquad.poly rc x <$> seq 0 (S k)))
      (λ f i,
         r <~ polyquad.total rc i ;;
         let '(a, b, c) := r in
         fi1 <~ adaptive_solver.list_getitem f (i + 1)%Z ;;
         fi <~ adaptive_solver.list_getitem f i ;;
         let fn := (x * b + a) * fi1 - c * fi in
         Ok (f ++ [fn]))
    = Ok (polyquad._0 x :: (polyquad.poly rc x <$> seq 0 (S (k + m)))).
Proof.
  induction m as [|m IH]; intros k.
  - rewrite range_nil by lia. simpl. by rewrite Nat.add_0_r.
  - rewrite range_cons by lia. cbn [rfold]. unfold polyquad.total at 1.
    cbn [rbind].
    pose proof (poly_S rc x k) as HS. unfold rc_b, rc_c in HS.
    destruct (rc (Z.of_nat k)) as [[a b] c] eqn:Hrc. simpl in HS.
    replace (Z.of_nat k + 1)%Z with (Z.of_nat (S k)) by lia.
    rewrite (list_getitem_nat _ (S k) (polyquad.poly rc x k)); last first.
    { change ((polyquad.poly rc x <$> seq 0 (S k)) !! k
              = Some (polyquad.poly rc x k)).
      by rewrite list_lookup_fmap, lookup_seq_lt by lia. }
    cbn [rbind].
    rewrite (list_getitem_nat _ k (polyquad.poly_pair rc x k).2); last first.
    { destruct k as [|j]; [done|].
      rewrite poly_pair_snd.
      change ((polyquad.poly rc x <$> seq 0 (S (S j))) !! j
              = Some (polyquad.poly rc x j)).
      by rewrite list_lookup_fmap, lookup_seq_lt by lia. }
    cbn [rbind]. rewrite <- HS.
    replace (Z.of_nat (S k) + Z.of_nat m)%Z with (Z.of_nat k + Z.of_nat (S m))%Z
      in IH by lia.
    replace (Z.of_nat k + Z.of_nat (S m))%Z
      with (Z.of_nat (S k) + Z.of_nat m)%Z by lia.
    replace ((polyquad._0 x :: (polyquad.poly rc x <$> seq 0 (S k)))
             ++ [polyquad.poly rc x (S k)])
      with (polyquad._0 x :: (polyquad.poly rc x <$> seq 0 (S (S k)))).
    + rewrite IH. do 4 f_equal. lia.
    + rewrite (seq_S (S k)), fmap_app. done.
Qed.

Lemma compute_poly_total (rc : Z → RC) (n : Z) (x : Q) :
  polyquad.compute_poly (polyquad.total rc) n x
  = Ok (polyquad.poly rc x <$> seq 0 (S (Z.to_nat n))).
Proof.
  unfold polyquad.compute_poly.
  destruct (Z.le_gt_cases n 0) as [Hn|Hn].
  - rewrite range_nil by lia. replace (Z.to_nat n) with 0%nat by lia. done.
  - pose proof (compute_poly_loop rc x (Z.to_nat n) 0) as H.
    replace (Z.of_nat 0 + Z.of_nat (Z.to_nat n))%Z with n in H by lia.
    change (Z.of_nat 0) with 0%Z in H.
    change (polyquad._0 x :: (polyquad.poly rc x <$> seq 0 1))
      with [polyquad._0 x; polyquad._1 x] in H.
    cbv zeta in H. rewrite H. done.
Qed.

(** *** Expansions *)

Lemma expansion_snoc (cs ps : list Q) (c p : Q) :
  length cs = length ps →
  polyquad.expansion (cs ++ [c]) (ps ++ [p]) == polyquad.expansion cs ps + c * p.
Proof.
  revert ps. induction cs as [|c' cs IH]; intros [|p' ps] Hlen;
    simpl in Hlen; try discriminate.
  - unfold polyquad.expansion. simpl. ring.
  - unfold polyquad.expansion in *. simpl. rewrite IH by lia. ring.
Qed.

(** The expansion up to the degree [j - 1]. *)
Lemma expansion_S (rc : Z → RC) (x : Q) (coeffs : list Q) (j : nat) (c : Q) :
  coeffs !! j = Some c →
  polyquad.expansion (take (S j) coeffs) (polyquad.poly rc x <$> seq 0 (S j))
  == polyquad.expansion (take j coeffs) (polyquad.poly rc x <$> seq 0 j)
     + c * polyquad.poly rc x j.
Proof.
  intros Hc. rewrite (take_S_r _ _ _ Hc), seq_S, fmap_app. simpl.
  apply expansion_snoc.
  apply lookup_lt_Some in Hc.
  rewrite length_take, length_fmap, length_seq. lia.
Qed.

Lemma forsythe_loop (rc : Z → RC) (x : Q) (coeffs : list Q) (m : nat) :
  ∀ (k : nat) (t0 t1 f1 : Q),
    (1 ≤ k)%nat → (k + m < length coeffs)%nat →
    t0 == polyquad.poly rc x (k - 1) →
    t1 == polyquad.poly rc x k →
    f1 == polyquad.expansion (take (S k) coeffs)
            (polyquad.poly rc x <$> seq 0 (S k)) →
    ∃ t0' t1' f',
      rfold (range (Z.of_nat k) (Z.of_nat k + Z.of_nat m)) (t0, t1, f1, f1)
        (λ (s : Q * Q * Q * Q) k,
           let '(t0, t1, f1, f2) := s in
           rk <~ polyquad.total rc k ;;
           let '(ak, bk, ck) := rk in
           let t2 := (ak + bk * x) * t1 - ck * t0 in
           ck1 <~ adaptive_solver.list_getitem coeffs (k + 1)%Z ;;
           let f2 := f1 + ck1 * t2 in
           Ok (t1, t2, f2, f2))
      = Ok (t0', t1', f', f')
      ∧ t1' == polyquad.poly rc x (k + m)
      ∧ f' == polyquad.expansion (take (S (k + m)) coeffs)
                (polyquad.poly rc x <$> seq 0 (S (k + m))).
Proof.
  induction m as [|m IH]; intros k t0 t1 f1 Hk Hlen Ht0 Ht1 Hf1.
  - rewrite range_nil by lia. simpl. exists t0, t1, f1.
    rewrite Nat.add_0_r. done.
  - rewrite range_cons by lia. cbn [rfold]. unfold polyquad.total at 1.
    cbn [rbind].
    pose proof (poly_S rc x k) as HS. unfold rc_b, rc_c in HS.
    destruct (rc (Z.of_nat k)) as [[a b] c] eqn:Hrc. simpl in HS.
    destruct (lookup_lt_is_Some_2 coeffs (S k)) as [c' Hc']; [lia|].
    replace (Z.of_nat k + 1)%Z with (Z.of_nat (S k)) by lia.
    rewrite (list_getitem_nat _ _ _ Hc'). cbn [rbind].
    replace (Z.of_nat k + Z.of_nat (S m))%Z
      with (Z.of_nat (S k) + Z.of_nat m)%Z by lia.
    assert ((a + b * x) * t1 - c * t0 == polyquad.poly rc x (S k)) as Ht2.
    { rewrite HS. destruct k as [|j]; [lia|].
      rewrite poly_pair_snd. rewrite Ht1, Ht0.
      replace (S j - 1)%nat with j by lia. ring. }
    destruct (IH (S k) t1 ((a + b * x) * t1 - c * t0)
                 (f1 + c' * ((a + b * x) * t1 - c * t0)))
      as (t0' & t1' & f' & Hrun & Ht1' & Hf'); [lia|lia| | | |].
    + by replace (S k - 1)%nat with k by lia.
    + done.
    + rewrite (expansion_S rc x coeffs (S k) c' Hc'). by rewrite Hf1, Ht2.
    + exists t0', t1', f'. cbv zeta in Hrun. cbv zeta. rewrite Hrun.
      replace (k + S m)%nat with (S k + m)%nat by lia. done.
Qed.

(** X2. For a recurrence function that returns and a sequence [coeffs] that
    is not empty, [eval_forsythe(rc_func, coeffs, x)] is the sum of
    [coeffs[k] * p_k(x)] over the values [p_k(x)] of
    [compute_poly(rc_func, len(coeffs) - 1, x)], up to the equality of the
    rationals; for an empty sequence it raises [IndexError], whatever the
    recurrence function. *)
Theorem eval_forsythe_is_the_expansion (rc : Z → RC) (coeffs : list Q) (x : Q) :
  (coeffs ≠ [] →
   ∃ p q,
     polyquad.compute_poly (polyquad.total rc)
       (Z.of_nat (length coeffs) - 1) x = Ok p
     ∧ polyquad.eval_forsythe (polyquad.total rc) coeffs x = Ok q
     ∧ q == polyquad.expansion coeffs p)
  ∧ (∀ rc_func : polyquad.RCFunc,
       polyquad.eval_forsythe rc_func [] x = Raise IndexError).
Proof.
  split; [|done]. intros Hne.
  rewrite compute_poly_total.
  replace (S (Z.to_nat (Z.of_nat (length coeffs) - 1))) with (length coeffs)
    by (destruct coeffs; [done|simpl; lia]).
  eexists. unfold polyquad.eval_forsythe.
  destruct coeffs as [|c0 [|c1 cs]]; [done| |].
  - exists c0. split; [done|]. split; [done|].
    change (c0 == c0 * (0 * x + 1) + 0). ring.
  - set (coeffs := c0 :: c1 :: cs).
    change (adaptive_solver.list_getitem coeffs 0) with (Ok (A := Q) c0).
    change (adaptive_solver.list_getitem coeffs 1) with (Ok (A := Q) c1).
    cbn [rbind].
    destruct (Z.ltb_spec (Z.of_nat (length coeffs) - 1) 1) as [Hl|Hl];
      [simpl in Hl; lia|].
    unfold polyquad.total at 1. cbn [rbind].
    pose proof (poly_S rc x 0) as HS. unfold rc_b, rc_c in HS.
    change (Z.of_nat 0) with 0%Z in HS.
    destruct (rc 0%Z) as [[a0 b0] c] eqn:Hrc. simpl in HS.
    destruct (forsythe_loop rc x coeffs (length cs) 1
                (polyquad._1 x) (a0 + b0 * x) (c0 + c1 * (a0 + b0 * x)))
      as (t0' & t1' & f' & Hrun & _ & Hf'); [lia|simpl; lia|done| | |].
    + rewrite HS.
      change (a0 + b0 * x == (x * b0 + a0) * (0 * x + 1) - c * (0 * x)). ring.
    + change (c0 + c1 * (a0 + b0 * x)
              == c0 * (0 * x + 1) + (c1 * polyquad.poly rc x 1 + 0)).
      rewrite HS.
      change (c0 + c1 * (a0 + b0 * x)
              == c0 * (0 * x + 1)
                 + (c1 * ((x * b0 + a0) * (0 * x + 1) - c * (0 * x)) + 0)).
      ring.
    + replace (Z.of_nat (length coeffs) - 1)%Z
        with (1 + Z.of_nat (length cs))%Z by (simpl; lia).
      change (Z.of_nat 1) with 1%Z in Hrun.
      cbv zeta in Hrun. cbv zeta. rewrite Hrun. cbn [rbind].
      exists f'. split; [done|]. split; [done|].
      rewrite Hf'. replace (S (1 + length cs)) with (length coeffs) by done.
      by rewrite firstn_all.
Qed.

Lemma clenshaw_loop (rc : Z → RC) (x : Q) (coeffs : list Q) (m : nat) :
  ∀ (o : option Q) (q1 q2 : Q),
    (m ≤ length coeffs)%nat →
    ∃ o' q1' q2',
      rfold (reverse (range 0 (Z.of_nat m))) (o, q1, q2)
        (λ (q : option Q * Q * Q) k,
           let '(_, q1, q2) := q in
           rk <~ polyquad.total rc k ;;
           let '(ak, bk, _) := rk in
           rk2 <~ polyquad.total rc (k + 1)%Z ;;
           let '(_, _, ck2) := rk2 in
           ck <~ adaptive_solver.list_getitem coeffs k ;;
           let q0 := ck + (ak + bk * x) * q1 - ck2 * q2 in
           Ok (Some q0, q0, q1))
      = Ok (o', q1', q2')
      ∧ q1' == polyquad.expansion (take m coeffs)
                 (polyquad.poly rc x <$> seq 0 m)
               + q1 * polyquad.poly rc x m
               - rc_c (rc (Z.of_nat m)) * q2 * (polyquad.poly_pair rc x m).2
      ∧ (m = 0%nat → o' = o)
      ∧ (m ≠ 0%nat → o' = Some q1').
Proof.
  induction m as [|m IH]; intros o q1 q2 Hlen.
  - exists o, q1, q2. split; [done|]. split; [|done].
    change (q1 == 0 + q1 * (0 * x + 1)
                  - rc_c (rc (Z.of_nat 0)) * q2 * (0 * x)).
    ring.
  - replace (Z.of_nat (S m)) with (Z.of_nat m + 1)%Z by lia.
    rewrite range_snoc by lia. rewrite reverse_snoc. cbn [rfold].
    unfold polyquad.total at 1 2. cbn [rbind].
    pose proof (poly_S rc x m) as HS. unfold rc_b in HS.
    destruct (rc (Z.of_nat m)) as [[a b] c] eqn:Hrc. simpl in HS.
    replace (Z.of_nat m + 1)%Z with (Z.of_nat (S m)) by lia.
    destruct (rc (Z.of_nat (S m))) as [[a2 b2] c2] eqn:Hrc2.
    destruct (lookup_lt_is_Some_2 coeffs m) as [cm Hcm]; [lia|].
    rewrite (list_getitem_nat _ _ _ Hcm). cbn [rbind].
    destruct (IH (Some (cm + (a + b * x) * q1 - c2 * q2))
                 (cm + (a + b * x) * q1 - c2 * q2) q1)
      as (o' & q1' & q2' & Hrun & Hq & Ho0 & Ho); [lia|].
    exists o', q1', q2'. cbv zeta in Hrun. cbv zeta. rewrite Hrun.
    split; [done|]. split; [|split; [lia|]].
    + rewrite Hq. rewrite (expansion_S rc x coeffs m cm Hcm).
      rewrite poly_pair_snd. rewrite HS. unfold rc_c. cbn [snd]. ring.
    + intros _. destruct m as [|m'].
      * rewrite Ho0 by done. simpl in Hrun. by injection Hrun as <- <- <-.
      * by apply Ho.
Qed.


End EvaluatorFacts.

(* ===================================================================== *)
(** * Transformed recurrences and the families *)

Section RecurrenceFacts.
Import _polynomials.
Local Open Scope Q_scope.

Lemma compute_poly_ext (f g : polyquad.RCFunc) (n : Z) (x : Q) :
  (∀ i, (0 ≤ i < n)%Z → f i = g i) →
  polyquad.compute_poly f n x = polyquad.compute_poly g n x.
Proof.
  intros Hfg. unfold polyquad.compute_poly. f_equal.
  apply rfold_ext. intros l i Hi. apply elem_of_range in Hi.
  by rewrite Hfg.
Qed.

Lemma py_div_Ok (a b : Q) : ¬ b == 0 → py_div a b = Ok (a / b).
Proof.
  intros Hb. unfold py_div.
  destruct (Qeq_bool b 0) eqn:E; [|done].
  by apply Qeq_bool_eq in E.
Qed.

Lemma py_div_zero (a b : Q) : b == 0 → py_div a b = Raise ZeroDivisionError.
Proof. intros Hb. unfold py_div. by rewrite (Qeq_eq_bool _ _ Hb). Qed.

(** Two pairs of values that agree up to the equality of the rationals. *)
Lemma poly_pair_rel (rc rc' : Z → RC) (x x' : Q) (k : nat) :
  (∀ i p1 p0 p1' p0', (i < k)%nat → p1 == p1' → p0 == p0' →
     (x * rc_b (rc (Z.of_nat i)) + (rc (Z.of_nat i)).1.1) * p1
       - rc_c (rc (Z.of_nat i)) * p0
     == (x' * rc_b (rc' (Z.of_nat i)) + (rc' (Z.of_nat i)).1.1) * p1'
        - rc_c (rc' (Z.of_nat i)) * p0') →
  (polyquad.poly_pair rc x k).1 == (polyquad.poly_pair rc' x' k).1
  ∧ (polyquad.poly_pair rc x k).2 == (polyquad.poly_pair rc' x' k).2.
Proof.
  induction k as [|k IH]; intros Hstep.
  - simpl. unfold polyquad._1, polyquad._0. split; ring.
  - destruct IH as [IH1 IH0]; [intros; apply Hstep; [lia|done..]|].
    specialize (Hstep k _ _ _ _ (Nat.lt_succ_diag_r k) IH1 IH0).
    unfold rc_b, rc_c in Hstep. simpl.
    destruct (polyquad.poly_pair rc x k) as [p1 p0].
    destruct (polyquad.poly_pair rc' x' k) as [p1' p0'].
    destruct (rc (Z.of_nat k)) as [[a b] c].
    destruct (rc' (Z.of_nat k)) as [[a' b'] c'].
    simpl in *. done.
Qed.

Lemma poly_proper (rc : Z → RC) (x x' : Q) (k : nat) :
  x == x' → polyquad.poly rc x k == polyquad.poly rc x' k.
Proof.
  intros Hx. apply (poly_pair_rel rc rc x x' k).
  intros i p1 p0 p1' p0' _ H1 H0. by rewrite Hx, H1, H0.
Qed.

Lemma shifted_scaled_spec (rc : Z → RC) (shift scale : Q) (i : Z) :
  ¬ scale == 0 →
  polyquad.rc_shift_scale (polyquad.total rc) shift scale i
  = Ok (polyquad.shifted_scaled rc shift scale i).
Proof.
  intros Hs. unfold polyquad.rc_shift_scale, polyquad.shifted_scaled,
    polyquad.total. cbn [rbind].
  destruct (rc i) as [[a b] c]. by rewrite !py_div_Ok by done.
Qed.

Lemma shifted_scaled_poly (rc : Z → RC) (shift scale x : Q) (k : nat) :
  ¬ scale == 0 →
  polyquad.poly (polyquad.shifted_scaled rc shift scale) x k
  == polyquad.poly rc ((x - shift) / scale) k.
Proof.
  intros Hs. apply poly_pair_rel.
  intros i p1 p0 p1' p0' _ H1 H0.
  unfold polyquad.shifted_scaled, rc_b, rc_c.
  destruct (rc (Z.of_nat i)) as [[a b] c]. simpl.
  rewrite H1, H0. field. done.
Qed.

Lemma shift_scale_values (rc : Z → RC) (shift scale : Q) (n : Z) (x y : Q) :
  ¬ scale == 0 → y == (x - shift) / scale →
  ∃ p p',
    polyquad.compute_poly
      (polyquad.rc_shift_scale (polyquad.total rc) shift scale) n x = Ok p
    ∧ polyquad.compute_poly (polyquad.total rc) n y = Ok p'
    ∧ Forall2 Qeq p p'.
Proof.
  intros Hs Hy.
  rewrite (compute_poly_ext _
             (polyquad.total (polyquad.shifted_scaled rc shift scale)))
    by (intros i _; by apply shifted_scaled_spec).
  rewrite !compute_poly_total. eexists _, _. split; [done|]. split; [done|].
  apply Forall2_fmap, Forall_Forall2_diag, Forall_forall. intros k _.
  rewrite shifted_scaled_poly by done. apply poly_proper. by rewrite Hy.
Qed.



(** *** Values of the families *)

Lemma Qpower_succ_nat (x : Q) (k : nat) :
  x ^ Z.of_nat (S k) == x * x ^ Z.of_nat k.
Proof.
  destruct k as [|k].
  - change (x == x * 1). ring.
  - change (Qpower_positive x (Pos.succ (Pos.of_succ_nat k))
            == x * Qpower_positive x (Pos.of_succ_nat k)).
    apply (Ring_theory.pow_pos_succ Q_Setoid Qmult_comp Qmult_assoc).
Qed.

Lemma poly_lookup (rc : Z → RC) (x : Q) (m k : nat) (y : Q) :
  (polyquad.poly rc x <$> seq 0 m) !! k = Some y →
  (k < m)%nat ∧ y = polyquad.poly rc x k.
Proof.
  rewrite list_lookup_fmap. intros H.
  destruct (seq 0 m !! k) as [j|] eqn:E; [|done].
  apply lookup_seq in E as [-> ?]. simpl in H. injection H as <-. done.
Qed.


Lemma poly_pair_S (rc : Z → RC) (x : Q) (k : nat) :
  polyquad.poly_pair rc x (S k)
  = ((x * rc_b (rc (Z.of_nat k)) + (rc (Z.of_nat k)).1.1)
       * (polyquad.poly_pair rc x k).1
     - rc_c (rc (Z.of_nat k)) * (polyquad.poly_pair rc x k).2,
     (polyquad.poly_pair rc x k).1).
Proof.
  unfold rc_b, rc_c. simpl.
  destruct (polyquad.poly_pair rc x k) as [p p'].
  by destruct (rc (Z.of_nat k)) as [[a b] c].
Qed.

Lemma rc_legendre_nat (k : nat) :
  RCeq (rc_legendre (Z.of_nat k))
    (0, (2 * inject_Z (Z.of_nat k) + 1) / (inject_Z (Z.of_nat k) + 1),
     inject_Z (Z.of_nat k) / (inject_Z (Z.of_nat k) + 1)).
Proof.
  pose proof (inject_Z_nat_nonneg k) as Hk.
  unfold RCeq, rc_legendre, rc4_to_rc3. cbn [fst snd].
  rewrite (Qmax2_0_nonneg _ Hk).
  split; [field; lra|]. split; reflexivity.
Qed.

Lemma legendre_at_1 (k : nat) :
  (polyquad.poly_pair rc_legendre 1 k).1 == 1
  ∧ (k ≠ 0%nat → (polyquad.poly_pair rc_legendre 1 k).2 == 1).
Proof.
  induction k as [|k [IH1 IH0]].
  - split; [|done]. change (0 * 1 + 1 == 1). ring.
  - rewrite poly_pair_S. cbn [fst snd]. split; [|done].
    destruct (rc_legendre_nat k) as (Ha & Hb & Hc). cbn [fst snd] in *.
    unfold rc_b, rc_c. rewrite Ha, Hb, Hc, IH1.
    pose proof (inject_Z_nat_nonneg k) as Hk.
    destruct k as [|k].
    + change (inject_Z (Z.of_nat 0)) with 0. field.
    + rewrite IH0 by done. field. lra.
Qed.

Lemma chebyshev_t_at_1 (k : nat) :
  (polyquad.poly_pair polyquad.rc_chebyshev_t 1 k).1 == 1
  ∧ (k ≠ 0%nat → (polyquad.poly_pair polyquad.rc_chebyshev_t 1 k).2 == 1).
Proof.
  induction k as [|k [IH1 IH0]].
  - split; [|done]. change (0 * 1 + 1 == 1). ring.
  - rewrite poly_pair_S. cbn [fst snd]. split; [|done].
    unfold rc_b, rc_c, polyquad.rc_chebyshev_t. rewrite IH1.
    destruct k as [|k].
    + simpl. ring.
    + rewrite IH0 by done.
      destruct (Z.eqb_spec (Z.of_nat (S k)) 0); [lia|]. simpl. ring.
Qed.

Lemma chebyshev_u_at_1 (k : nat) :
  (polyquad.poly_pair polyquad.rc_chebyshev_u 1 k).1
  == inject_Z (Z.of_nat k) + 1
  ∧ (k ≠ 0%nat →
     (polyquad.poly_pair polyquad.rc_chebyshev_u 1 k).2
     == inject_Z (Z.of_nat k)).
Proof.
  induction k as [|k [IH1 IH0]].
  - split; [|done]. change (0 * 1 + 1 == 0 + 1). ring.
  - rewrite poly_pair_S. cbn [fst snd]. split; [|by rewrite IH1, inject_Z_S].
    unfold rc_b, rc_c, polyquad.rc_chebyshev_u. rewrite IH1, inject_Z_S.
    destruct k as [|k].
    + simpl. change (inject_Z 0) with 0. ring.
    + rewrite IH0 by done.
      destruct (Z.eqb_spec (Z.of_nat (S k)) 0); [lia|]. simpl. ring.
Qed.


(** X8. For a recurrence whose coefficients [a_n] are all zero (the
    monomials, the stochastic Hermite, the Legendre and both Chebyshev
    recurrences of the module) the polynomial of degree [k] of
    [compute_poly] is even for an even [k] and odd for an odd [k]:
    its value at [-x] is [(-1) ** k] times its value at [x]. *)
Theorem zero_a_gives_parity (rc : Z → RC) (n : Z) (x : Q) :
  (∀ i, (rc i).1.1 == 0) →
  ∃ p p',
    polyquad.compute_poly (polyquad.total rc) n (- x) = Ok p
    ∧ polyquad.compute_poly (polyquad.total rc) n x = Ok p'
    ∧ length p = length p'
    ∧ ∀ (k : nat) (y y' : Q),
        p !! k = Some y → p' !! k = Some y' →
        y == (-1) ^ Z.of_nat k * y'.
Proof.
  intros Ha. rewrite !compute_poly_total. eexists _, _.
  split; [done|]. split; [done|].
  split; [by rewrite !length_fmap|].
  intros k y y' Hy Hy'.
  apply poly_lookup in Hy as [_ ->]. apply poly_lookup in Hy' as [_ ->].
  clear n.
  assert ((polyquad.poly_pair rc (- x) k).1
          == (-1) ^ Z.of_nat k * (polyquad.poly_pair rc x k).1
          ∧ (polyquad.poly_pair rc (- x) k).2
            == - ((-1) ^ Z.of_nat k) * (polyquad.poly_pair rc x k).2)
    as [H _]; [|exact H].
  induction k as [|k [IH1 IH0]].
  - change (0 * - x + 1 == 1 * (0 * x + 1) ∧ 0 * - x == - (1) * (0 * x)).
    split; ring.
  - rewrite !poly_pair_S. cbn [fst snd].
    rewrite IH1, IH0, Qpower_succ_nat, (Ha (Z.of_nat k)). split; ring.
Qed.

(** *** Jacobi and the structure coefficients *)

Lemma inject_Z_pos (n : Z) : (0 < n)%Z → 0 < inject_Z n.
Proof. intros Hn. change 0 with (inject_Z 0). by rewrite <- Zlt_Qlt. Qed.


Lemma factorial_pos (n : Z) : (0 ≤ n)%Z → 0 < inject_Z (factorial n).
Proof.
  intros Hn. unfold factorial. destruct (Z.ltb_spec n 0); [lia|].
  apply inject_Z_pos. pose proof (lt_O_fact (Z.to_nat n)). lia.
Qed.

Lemma factorial_succ (n : Z) :
  (0 ≤ n)%Z →
  inject_Z (factorial (n + 1)) == (inject_Z n + 1) * inject_Z (factorial n).
Proof.
  intros Hn. unfold factorial.
  destruct (Z.ltb_spec n 0); [lia|]. destruct (Z.ltb_spec (n + 1) 0); [lia|].
  replace (Z.to_nat (n + 1)) with (S (Z.to_nat n)) by lia.
  change (fact (S (Z.to_nat n))) with (S (Z.to_nat n) * fact (Z.to_nat n))%nat.
  rewrite Nat2Z.inj_mul, inject_Z_mult.
  replace (Z.of_nat (S (Z.to_nat n))) with (n + 1)%Z by lia.
  by rewrite inject_Z_plus.
Qed.

(** The branch of [stc_stoch_hermite] that divides: the sum is even and
    the triangle inequalities hold. *)
Lemma stc_divides (a b c : Z) :
  negb ((a + b + c) mod 2 =? 0)%Z || (b + c <? a)%Z || (a + c <? b)%Z
    || (a + b <? c)%Z = false →
  (0 ≤ a ∧ 0 ≤ b ∧ 0 ≤ c)%Z
  ∧ (0 ≤ (a + b + c) / 2 - a ∧ 0 ≤ (a + b + c) / 2 - b
     ∧ 0 ≤ (a + b + c) / 2 - c)%Z
  ∧ (a + b + c = 2 * ((a + b + c) / 2))%Z.
Proof.
  intros H. apply orb_false_iff in H as [H H4].
  apply orb_false_iff in H as [H H3]. apply orb_false_iff in H as [H1 H2].
  apply negb_false_iff, Z.eqb_eq in H1.
  apply Z.ltb_ge in H2, H3, H4.
  pose proof (Z.div_mod (a + b + c) 2) as Hdm. lia.
Qed.

Lemma stc_value (a b c : Z) (triple : bool) :
  negb ((a + b + c) mod 2 =? 0)%Z || (b + c <? a)%Z || (a + c <? b)%Z
    || (a + b <? c)%Z = false →
  polyquad.stc_stoch_hermite a b c triple
  = Ok (inject_Z (factorial a) * inject_Z (factorial b) * inject_Z (factorial c)
        * (if negb triple then 1 / sqnorm_stoch_hermite c else 1)
        / (inject_Z (factorial ((a + b + c) / 2 - a))
           * inject_Z (factorial ((a + b + c) / 2 - b))
           * inject_Z (factorial ((a + b + c) / 2 - c)))).
Proof.
  intros H. unfold polyquad.stc_stoch_hermite. rewrite H.
  apply stc_divides in H as ((Ha & Hb & Hc) & (Hsa & Hsb & Hsc) & _).
  pose proof (factorial_pos _ Hc) as Fc.
  pose proof (factorial_pos _ Hsa) as Fsa.
  pose proof (factorial_pos _ Hsb) as Fsb.
  pose proof (factorial_pos _ Hsc) as Fsc.
  assert (¬ inject_Z (factorial ((a + b + c) / 2 - a))
            * inject_Z (factorial ((a + b + c) / 2 - b))
            * inject_Z (factorial ((a + b + c) / 2 - c)) == 0) as Hd.
  { intros E.
    assert (0 < inject_Z (factorial ((a + b + c) / 2 - a))
                * inject_Z (factorial ((a + b + c) / 2 - b))
                * inject_Z (factorial ((a + b + c) / 2 - c)))
      by (repeat apply Qmult_lt_0_compat; done).
    lra. }
  destruct triple; cbn [negb rbind].
  - by rewrite py_div_Ok.
  - unfold sqnorm_stoch_hermite.
    rewrite (py_div_Ok 1) by lra. cbn [rbind]. by rewrite py_div_Ok.
Qed.


Lemma stc_zero (a b c : Z) (triple : bool) :
  negb ((a + b + c) mod 2 =? 0)%Z || (b + c <? a)%Z || (a + c <? b)%Z
    || (a + b <? c)%Z = true →
  polyquad.stc_stoch_hermite a b c triple = Ok 0.
Proof. intros H. unfold polyquad.stc_stoch_hermite. by rewrite H. Qed.

Lemma stc_cond_false (a b c : Z) :
  ((a + b + c) mod 2 = 0)%Z → (a ≤ b + c)%Z → (b ≤ a + c)%Z → (c ≤ a + b)%Z →
  negb ((a + b + c) mod 2 =? 0)%Z || (b + c <? a)%Z || (a + c <? b)%Z
    || (a + b <? c)%Z = false.
Proof.
  intros H1 H2 H3 H4. rewrite H1. simpl.
  destruct (Z.ltb_spec (b + c) a); [lia|].
  destruct (Z.ltb_spec (a + c) b); [lia|].
  destruct (Z.ltb_spec (a + b) c); [lia|]. done.
Qed.

Lemma stc_cond_true (a b c : Z) :
  ((a + b + c) mod 2 ≠ 0)%Z ∨ (b + c < a)%Z ∨ (a + c < b)%Z ∨ (a + b < c)%Z →
  negb ((a + b + c) mod 2 =? 0)%Z || (b + c <? a)%Z || (a + c <? b)%Z
    || (a + b <? c)%Z = true.
Proof.
  intros H.
  destruct (Z.eqb_spec ((a + b + c) mod 2) 0); simpl; [|done].
  destruct (Z.ltb_spec (b + c) a); [done|].
  destruct (Z.ltb_spec (a + c) b); [done|].
  destruct (Z.ltb_spec (a + b) c); [done|]. lia.
Qed.


End RecurrenceFacts.

(* ===================================================================== *)
(** * Normalised polynomials and the families of the random variables *)

Section FamilyFacts.
Import _polynomials.
Local Open Scope Q_scope.

Variable pow_half : Q → Result Q.
Variable math_sqrt : Q → Result Q.

Lemma normalise_rc_spec (rc_func : polyquad.RCFunc) (rc : Z → RC)
    (sqnorm_func : Z → Result Q) (h : Z → Q) (n i : Z) :
  (∀ k, (0 ≤ k ≤ n)%Z →
     ∃ s, sqnorm_func k = Ok s ∧ pow_half s = Ok (h k) ∧ ¬ h k == 0) →
  (0 ≤ i < n)%Z →
  rc_func i = Ok (rc i) →
  polyquad.normalise_rc pow_half rc_func (Some sqnorm_func) i
  = Ok (polyquad.normalised rc h i).
Proof.
  intros Hh Hi Hrc. unfold polyquad.normalise_rc, polyquad.normalised.
  rewrite Hrc. cbn [rbind].
  destruct (rc i) as [[a b] c].
  destruct (Hh (i + 1)%Z) as (s2 & E2 & F2 & H2); [lia|].
  rewrite E2. cbn [rbind]. rewrite F2. cbn [rbind].
  destruct (Hh i) as (s1 & E1 & F1 & H1); [lia|].
  rewrite E1. cbn [rbind]. rewrite F1. cbn [rbind].
  destruct (Z.ltb_spec 0 i) as [Hpos|Hzero].
  - destruct (Hh (i - 1)%Z) as (s0 & E0 & F0 & H0); [lia|].
    rewrite E0. cbn [rbind]. rewrite F0. cbn [rbind].
    by rewrite !py_div_Ok by done.
  - cbn [rbind]. by rewrite !py_div_Ok by done.
Qed.

Lemma normalised_poly (rc : Z → RC) (h : Z → Q) (x : Q) (n k : nat) :
  (∀ j, (j ≤ n)%nat → ¬ h (Z.of_nat j) == 0) →
  h 0%Z == 1 →
  (k ≤ n)%nat →
  polyquad.poly (polyquad.normalised rc h) x k * h (Z.of_nat k)
  == polyquad.poly rc x k.
Proof.
  intros Hh H0 Hk. unfold polyquad.poly.
  assert ((polyquad.poly_pair (polyquad.normalised rc h) x k).1 * h (Z.of_nat k)
          == (polyquad.poly_pair rc x k).1
          ∧ (polyquad.poly_pair (polyquad.normalised rc h) x k).2
            * (if (0 <? Z.of_nat k)%Z then h (Z.of_nat k - 1)%Z else 0)
            == (polyquad.poly_pair rc x k).2
               * (if (0 <? Z.of_nat k)%Z then 1 else 0)) as [H _]; [|exact H].
  induction k as [|k IH].
  - change ((0 * x + 1) * h 0%Z == 0 * x + 1 ∧ 0 * x * 0 == 0 * x * 0).
    rewrite H0. split; ring.
  - destruct IH as [IH1 IH0]; [lia|].
    rewrite !poly_pair_S. cbn [fst snd].
    destruct (Z.ltb_spec 0 (Z.of_nat (S k))); [|lia].
    replace (Z.of_nat (S k) - 1)%Z with (Z.of_nat k) by lia.
    split; [|rewrite IH1; ring].
    pose proof (Hh (S k) Hk) as HS. pose proof (Hh k ltac:(lia)) as Hk0.
    set (p1 := (polyquad.poly_pair (polyquad.normalised rc h) x k).1) in *.
    set (p0 := (polyquad.poly_pair (polyquad.normalised rc h) x k).2) in *.
    set (h' := if (0 <? Z.of_nat k)%Z then h (Z.of_nat k - 1)%Z else 0) in *.
    unfold polyquad.normalised, rc_b, rc_c. fold h'.
    destruct (rc (Z.of_nat k)) as [[a b] c]. cbn [fst snd].
    replace (Z.of_nat k + 1)%Z with (Z.of_nat (S k)) by lia.
    transitivity ((x * b + a) * (p1 * h (Z.of_nat k)) - c * (p0 * h')).
    + field. done.
    + rewrite IH1, IH0.
      destruct (Z.ltb_spec 0 (Z.of_nat k)); [ring|].
      assert (k = 0%nat) as -> by lia.
      change ((polyquad.poly_pair rc x 0).2) with (0 * x). ring.
Qed.


(** *** The stochastic Hermite family *)

Lemma rfold_pure {A C} (l : list A) (acc : C) (body : C → A → Result C)
    (g : C → A → C) :
  (∀ c x, x ∈ l → body c x = Ok (g c x)) →
  rfold l acc body = Ok (foldl g acc l).
Proof.
  revert acc. induction l as [|x l IH]; intros acc Hb; simpl; [done|].
  rewrite Hb by left. cbn [rbind]. apply IH. intros c y Hy. apply Hb. by right.
Qed.

(** The checked [sqnorm_from_rc] is the one of the claims where the
    recurrence function returns and the divisor is not zero. *)
Lemma sqnorm_from_rc_total (rc_func : polyquad.RCFunc) (rc : Z → RC) (n : Z) :
  (∀ i, rc_func i = Ok (rc i)) →
  ¬ rc_b (rc n) == 0 →
  polyquad.sqnorm_from_rc rc_func n = Ok (sqnorm_from_rc rc n).
Proof.
  intros Hrc Hb. unfold polyquad.sqnorm_from_rc, sqnorm_from_rc.
  rewrite !Hrc. cbn [rbind]. rewrite py_div_Ok by done. cbn [rbind].
  apply rfold_pure. intros c i _. by rewrite Hrc.
Qed.

Lemma foldl_Qeq (c c' : Z → Q) (l : list Z) (h h' : Q) :
  h == h' → (∀ i, c i == c' i) →
  foldl (λ h i, h * c i) h l == foldl (λ h i, h * c' i) h' l.
Proof.
  intros Hh Hc. revert h h' Hh. induction l as [|i l IH]; intros h h' Hh; simpl.
  - done.
  - apply IH. by rewrite Hh, Hc.
Qed.

(** The recurrence of the family that is not normalised. *)
Lemma hermite_family_rc (mu sigma : Q) :
  ¬ sigma == 0 →
  ∃ rc,
    (∀ i, polynomials._rc_func
            (polynomials.StochasticHermitePolynomials pow_half mu sigma false) i
          = Ok (rc i))
    ∧ (∀ i, RCeq (rc i) (polyquad.shifted_scaled rc_stoch_hermite mu sigma i)).
Proof.
  intros Hs. unfold polynomials.StochasticHermitePolynomials.
  destruct (negb (Qeq_bool mu 0) || negb (Qeq_bool sigma 1)) eqn:E;
    cbn [polynomials.__init__ polynomials._rc_func].
  - exists (polyquad.shifted_scaled rc_stoch_hermite mu sigma).
    split; [intros i; by apply shifted_scaled_spec|].
    intros i. unfold RCeq. done.
  - apply orb_false_iff in E as [E1 E2].
    apply negb_false_iff, Qeq_bool_eq in E1, E2.
    exists rc_stoch_hermite. split; [done|].
    intros i. unfold RCeq, polyquad.shifted_scaled, rc_stoch_hermite.
    cbn [fst snd]. rewrite E1, E2. split; [field|]. split; [field|done].
Qed.

Lemma shifted_hermite_sqnorm (rc : Z → RC) (mu sigma : Q) (k : nat) :
  ¬ sigma == 0 →
  (∀ i, RCeq (rc i) (polyquad.shifted_scaled rc_stoch_hermite mu sigma i)) →
  ¬ rc_b (rc (Z.of_nat k)) == 0
  ∧ sqnorm_from_rc rc (Z.of_nat k) == inject_Z (Z.of_nat (fact k)).
Proof.
  intros Hs Hrc.
  assert (∀ i, rc_b (rc i) == 1 / sigma) as Hb.
  { intros i. destruct (Hrc i) as (_ & H & _). unfold rc_b. rewrite H.
    unfold polyquad.shifted_scaled, rc_stoch_hermite. done. }
  assert (∀ i, rc_c (rc i) == rc_c (rc_stoch_hermite i)) as Hc.
  { intros i. destruct (Hrc i) as (_ & _ & H). unfold rc_c. rewrite H.
    unfold polyquad.shifted_scaled, rc_stoch_hermite. done. }
  assert (¬ 1 / sigma == 0) as Hd.
  { intros E. assert (1 / sigma * sigma == 1) as E2 by (field; done).
    rewrite E in E2. lra. }
  split; [by rewrite Hb|].
  unfold sqnorm_from_rc. rewrite range_1_succ.
  rewrite (foldl_Qeq _ (λ i, rc_c (rc_stoch_hermite i)) _ _ 1); [| |done].
  - apply hermite_product.
  - rewrite !Hb. field. done.
Qed.

Lemma eval_total (rc_func : polyquad.RCFunc) (rc : Z → RC) (n : Z) (x : Q) :
  (∀ i, (0 ≤ i < n)%Z → rc_func i = Ok (rc i)) →
  (l <~ polyquad.compute_poly rc_func n x ;;
   adaptive_solver.list_getitem l (-1))
  = Ok (polyquad.poly rc x (Z.to_nat n)).
Proof.
  intros Hrc.
  rewrite (compute_poly_ext _ (polyquad.total rc)) by done.
  rewrite compute_poly_total. cbn [rbind].
  rewrite seq_S, fmap_app. simpl. by rewrite list_getitem_last.
Qed.

Lemma poly_RCeq (rc rc' : Z → RC) (x x' : Q) (k : nat) :
  (∀ i, RCeq (rc i) (rc' i)) → x == x' →
  polyquad.poly rc x k == polyquad.poly rc' x' k.
Proof.
  intros Hrc Hx. apply poly_pair_rel.
  intros i p1 p0 p1' p0' _ H1 H0.
  destruct (Hrc (Z.of_nat i)) as (Ha & Hb & Hc). unfold rc_b, rc_c.
  by rewrite Ha, Hb, Hc, Hx, H1, H0.
Qed.



(** X15. A normal random variable with [sigma = 0], as the module's
    [DeterministicPseudoRV = NormalRV(1, 0)], has no usable polynomials:
    every call of [orth_polys.recurrence_coefficients(n)] raises
    [ZeroDivisionError], and so does [orth_polys.eval(n, x)] for
    [n >= 1]. *)
Theorem DeterministicPseudoRV_polynomials_raise (n : Z) (x : Q) :
  let P := random_variable.NormalRV.orth_polys pow_half
             random_variable.DeterministicPseudoRV in
  polynomials.recurrence_coefficients P n = Raise ZeroDivisionError
  ∧ ((1 ≤ n)%Z → polynomials.eval P n x = Raise ZeroDivisionError)
  ∧ ∀ mu sigma,
      sigma == 0 →
      polynomials.recurrence_coefficients
        (random_variable.NormalRV.orth_polys pow_half
           (random_variable.NormalRV.__init__ mu sigma)) n
      = Raise ZeroDivisionError.
Proof.
  assert (∀ mu sigma i,
            sigma == 0 →
            polynomials.recurrence_coefficients
              (random_variable.NormalRV.orth_polys pow_half
                 (random_variable.NormalRV.__init__ mu sigma)) i
            = Raise ZeroDivisionError) as H.
  { intros mu sigma i Hs.
    unfold random_variable.NormalRV.orth_polys,
      random_variable.NormalRV.__init__,
      polynomials.StochasticHermitePolynomials.
    cbn [random_variable.NormalRV.mu random_variable.NormalRV.sigma].
    assert (Qeq_bool sigma 1 = false) as ->.
    { destruct (Qeq_bool sigma 1) eqn:E; [|done].
      apply Qeq_bool_eq in E. rewrite Hs in E. done. }
    rewrite orb_true_r.
    unfold polynomials.recurrence_coefficients, polynomials.normalise,
      polynomials.__init__. cbn [polynomials._rc_func].
    unfold polyquad.normalise_rc, polyquad.rc_shift_scale, polyquad.total.
    cbn [rbind]. unfold rc_stoch_hermite. by rewrite py_div_zero. }
  intros P. split; [by apply H|]. split; [|intros mu sigma; apply H].
  intros Hn. unfold polynomials.eval, polyquad.compute_poly.
  rewrite range_cons by lia. cbn [rfold].
  unfold P, random_variable.DeterministicPseudoRV. rewrite H by done. done.
Qed.

End FamilyFacts.

(* ===================================================================== *)
(** * The intervals of the uniform random variables *)

Section RandomVariableFacts.
Local Open Scope Q_scope.
Import random_variable.

Lemma Qmin2_spec (a b : Q) :
  (a <= b ∧ Qmin2 a b = a) ∨ (b < a ∧ Qmin2 a b = b).
Proof.
  unfold Qmin2. destruct (Qle_bool a b) eqn:E.
  - left. by apply Qle_bool_iff in E.
  - right. split; [|done]. apply Qnot_le_lt. intros H.
    apply Qle_bool_iff in H. congruence.
Qed.

Lemma Qmax2_spec (a b : Q) :
  (b <= a ∧ Qmax2 a b = a) ∨ (a < b ∧ Qmax2 a b = b).
Proof.
  unfold Qmax2. destruct (Qle_bool b a) eqn:E.
  - left. by apply Qle_bool_iff in E.
  - right. split; [|done]. apply Qnot_le_lt. intros H.
    apply Qle_bool_iff in H. congruence.
Qed.


End RandomVariableFacts.

(* ===================================================================== *)
(** * The operators: [apply_A] *)

(** X17. [apply_A] of both files on an allocated MultiVector [w] returns, for
    every coefficient field and every [w] (also an empty one): the result is
    a new MultiVector, [w] and the rest of the heap are as before, the keys
    are those of [w], and the component of an active [mu] is the mean-field
    term [A0 * w[mu]] plus, for every [m] below the effective order, [A_m]
    applied to [-β0·w[mu] + β1·P(w[mu+e_m]) + β(-1)·P(w[mu-e_m])] over the
    active neighbours, where [P] is the projection
    [w.get_projection(nu, mu)] onto the basis of [w[mu]] in
    [multi_operator.py] and the identity in [multi_operator2.py]; the
    operators are assembled on the basis of [w[mu]], and no result is
    projected back. *)
Theorem apply_A_component `{B : Backend} `{SB : !SharedBasis}
    (self : multi_operator.MultiOperator.t)
    (self2 : multi_operator2.MultiOperator.t)
    (s : Store) (w : loc) (W : gmap Multiindex.t Vec) :
  heap s !! w = Some W →
  (∃ v s' V,
      multi_operator.MultiOperator.apply_A self w s = Ok (v, s')
      ∧ v ≠ w ∧ heap s !! v = None
      ∧ heap s' = <[ v := V ]> (heap s)
      ∧ dom V = dom W
      ∧ ∀ mu x, W !! mu = Some x →
                V !! mu = Some (mo_apply_A_component self W mu x))
  ∧ (∃ v s' V,
      multi_operator2.MultiOperator.apply_A self2 w s = Ok (v, s')
      ∧ v ≠ w ∧ heap s !! v = None
      ∧ heap s' = <[ v := V ]> (heap s)
      ∧ dom V = dom W
      ∧ ∀ mu x, W !! mu = Some x →
                V !! mu = Some (mo2_apply_A_component self2 W mu x)).
Proof.
  intros Hw. split.
  - destruct (returns_new (multi_operator.MultiOperator.apply_A self w) s w W
                (mo_apply_A_component self W)
                (warnings (log s)
                   ++ length_warning (multi_operator.MultiOperator._coeff_field self) W)
                Hw)
      as (v & s' & V & Hc & Hne & Hnew & Hh & Hdom & HV & _).
    { by apply mo_apply_A_runs. }
    by exists v, s', V.
  - destruct (returns_new (multi_operator2.MultiOperator.apply_A self2 w) s w W
                (mo2_apply_A_component self2 W)
                (warnings (log s)
                   ++ length_warning (multi_operator2.MultiOperator._coeff_field self2) W)
                Hw)
      as (v & s' & V & Hc & Hne & Hnew & Hh & Hdom & HV & _).
    { by apply mo2_apply_A_runs. }
    by exists v, s', V.
Qed.

(** [apply_A] on the MultiVector with the components [(0)], [(1)] and
    [(0, 1)]. *)
Lemma apply_A_component_witness :
  ∃ v s' V,
    multi_operator.MultiOperator.apply_A
      (Scalar1D.op multi_operator.JOINT_MU) 0 (Scalar1D.store_of Scalar1D.W3)
    = Ok (v, s')
    ∧ v ≠ 0%nat ∧ heap (Scalar1D.store_of Scalar1D.W3) !! v = None
    ∧ heap s' = <[ v := V ]> (heap (Scalar1D.store_of Scalar1D.W3))
    ∧ dom V = dom Scalar1D.W3
    ∧ ∀ mu x, Scalar1D.W3 !! mu = Some x →
              V !! mu
              = Some (mo_apply_A_component (Scalar1D.op multi_operator.JOINT_MU)
                        Scalar1D.W3 mu x).
Proof.
  refine (proj1 (apply_A_component (SB := Scalar1D.shared_basis)
                   (Scalar1D.op multi_operator.JOINT_MU) Scalar1D.op2
                   (Scalar1D.store_of Scalar1D.W3) 0 Scalar1D.W3 _));
    reflexivity.
Defined.

(* ===================================================================== *)
(** * The refinement loop: what every call does *)

Section AdaptiveSolverReturns.
Context `{Env : SolverEnv}.
Import adaptive_solver.
Local Open Scope Z_scope.

Implicit Types (p : Params) (st : LoopState) (k start : Z).

Lemma set_last_readable key v (l : list (gmap string StatVal)) :
  l ≠ [] → key ≠ "DOFS"%string → key ≠ "MI"%string → Forall readable l →
  ∃ l', set_last key v l = Ok l' ∧ length l' = length l ∧ Forall readable l'.
Proof.
  intros Hne Hk1 Hk2 Hr. unfold set_last.
  destruct (reverse l) as [|record rest] eqn:Hrev.
  - apply (f_equal reverse) in Hrev. rewrite reverse_involutive in Hrev. done.
  - eexists. split; [done|].
    apply (f_equal reverse) in Hrev. rewrite reverse_involutive in Hrev.
    rewrite reverse_cons in Hrev. subst l.
    apply Forall_app in Hr as [Hr1 Hr2].
    assert (readable record) as [Hd [o Ho]] by (by inversion Hr2).
    split; [by rewrite !length_app|].
    apply Forall_app. split; [done|]. apply Forall_cons. split; [|done].
    split.
    + by rewrite lookup_insert_ne.
    + exists o. by rewrite lookup_insert_ne.
Qed.

Lemma set_stats_readable recorded key v (l : list (gmap string StatVal)) :
  l ≠ [] → key ≠ "DOFS"%string → key ≠ "MI"%string → Forall readable l →
  ∃ l', set_stats recorded key v l = Ok l' ∧ length l' = length l
        ∧ Forall readable l'.
Proof.
  intros Hne Hk1 Hk2 Hr. unfold set_stats.
  destruct recorded; [by apply set_last_readable|]. by exists l.
Qed.

Lemma mark_and_refine_readable p k (es : Estimated) :
  ls_sim_stats (es_state es) ≠ [] →
  Forall readable (ls_sim_stats (es_state es)) →
  ∃ st',
    mark_and_refine p k es = Ok st'
    ∧ length (ls_sim_stats st') = length (ls_sim_stats (es_state es))
    ∧ Forall readable (ls_sim_stats st').
Proof.
  intros Hne Hr. unfold mark_and_refine.
  destruct (do_uniform_refinement p); simpl.
  - destruct (set_stats_readable (es_recorded es) "TIME-MARKING"
                (VNum (elapsed_marking k)) _ Hne) as (l & -> & Hl & Hrl);
      [done..|]. simpl. eexists. split; [done|]. done.
  - destruct (mark _ _ _ _ _ _) as [[[[mR mP] nm] pz] nall].
    destruct (set_last_readable "PROJ-MAX-ZETA" (VNum pz.1) _ Hne)
      as (l1 & -> & H1 & R1); [done..|]. simpl.
    destruct (set_last_readable "PROJ-MAX-INACTIVE-ZETA" (VNum pz.2) l1)
      as (l2 & -> & H2 & R2); [by eapply length_nonempty|done..|]. simpl.
    destruct (set_last_readable "PROJ-INACTIVE-ZETA" (VObj nall) l2)
      as (l3 & -> & H3 & R3);
      [eapply length_nonempty; [exact Hne|lia]|done..|]. simpl.
    destruct (set_stats_readable (es_recorded es) "MARKING-RES"
                (VNum (inject_Z (count_marked mR))) l3)
      as (l4 & -> & H4 & R4);
      [eapply length_nonempty; [exact Hne|lia]|done..|]. simpl.
    destruct (set_stats_readable (es_recorded es) "MARKING-PROJ"
                (VNum (inject_Z (count_marked mP))) l4)
      as (l5 & -> & H5 & R5);
      [eapply length_nonempty; [exact Hne|lia]|done..|]. simpl.
    destruct (set_stats_readable (es_recorded es) "MARKING-MI"
                (VNum (inject_Z (Z.of_nat (length (new_indices_keys nm))))) l5)
      as (l6 & -> & H6 & R6);
      [eapply length_nonempty; [exact Hne|lia]|done..|]. simpl.
    destruct (set_stats_readable (es_recorded es) "TIME-MARKING"
                (VNum (elapsed_marking k)) l6)
      as (l7 & -> & H7 & R7);
      [eapply length_nonempty; [exact Hne|lia]|done..|]. simpl.
    eexists. split; [done|]. simpl. split; [lia|done].
Qed.

Lemma sae_readable p start k st :
  readable (es_stats (solve_and_estimate p start k st)).
Proof.
  split; [apply sae_dofs_is_Some|].
  unfold solve_and_estimate, pcg_solve.
  destruct (pcg _ _ _) as [[w zeta] numit].
  destruct (evaluateError _ _ _) as [[[[[[xi ri] pj] mi] [[e1 e2] e3]] [[r1 r2] r3]] ts].
  simpl. unfold estimate_stats. cbv zeta.
  eexists. by rewrite lookup_insert_eq.
Qed.

Lemma sae_readable_all p start k st :
  Forall readable (ls_sim_stats st) →
  Forall readable (ls_sim_stats (es_state (solve_and_estimate p start k st))).
Proof.
  intros Hr. rewrite sae_sim_stats. destruct (records start k); [|done].
  apply Forall_app. split; [done|].
  apply Forall_cons. split; [apply sae_readable|done].
Qed.

Lemma stats_getitem_readable (l : list (gmap string StatVal)) k :
  Forall readable l → 0 ≤ k < Z.of_nat (length l) →
  (∃ d, stats_getitem l k "DOFS" = Ok d)
  ∧ (∃ o, stats_getitem l k "MI" = Ok (VObj o)).
Proof.
  intros Hr Hk. unfold stats_getitem, list_getitem.
  destruct (Z.ltb_spec k 0); [lia|]. destruct (Z.ltb_spec k 0); [lia|].
  destruct (lookup_lt_is_Some_2 l (Z.to_nat k)) as [record Hrec]; [lia|].
  rewrite Hrec. cbn [rbind].
  rewrite Forall_lookup in Hr. destruct (Hr _ _ Hrec) as [[d Hd] [o Ho]].
  rewrite Hd, Ho. eauto.
Qed.

(** A round that finds its record returns. *)
Lemma iteration_readable p start k st :
  Forall readable (ls_sim_stats st) →
  0 ≤ k <
    Z.of_nat (length (ls_sim_stats st) + (if records start k then 1 else 0)) →
  ∃ e st',
    iteration p start k st = Ok (e, st')
    ∧ Forall readable (ls_sim_stats st')
    ∧ length (ls_sim_stats st')
      = (length (ls_sim_stats st) + (if records start k then 1 else 0))%nat.
Proof.
  intros Hr Hk.
  pose proof (iteration_cases p start k st) as Hc. cbv zeta in Hc.
  pose proof (sae_readable_all p start k st Hr) as Hr1.
  pose proof (sae_lengths p start k st) as (Hl1 & _). cbv zeta in Hl1.
  set (es := solve_and_estimate p start k st) in *.
  destruct (stats_getitem_readable (ls_sim_stats (es_state es)) k Hr1)
    as [[d Hd] _]; [lia|].
  assert (∃ e, exit_checks p k (ls_sim_stats (es_state es)) (es_xi es) = Ok e)
    as [e He].
  { unfold exit_checks. destruct (max_refinements p <? k); [eauto|].
    rewrite Hd. cbn [rbind].
    destruct (val_ge d (max_dof p)); [eauto|].
    destruct (Qle_bool (es_xi es) (error_eps p)); eauto. }
  rewrite He in Hc. destruct Hc as (st' & Hit & Hlen & _ & _).
  unfold iteration in Hit. fold es in Hit. rewrite He in Hit. cbn [rbind] in Hit.
  exists e, st'. split.
  { unfold iteration. fold es. by rewrite He. }
  split; [|lia].
  destruct e as [e|].
  - by injection Hit as <-.
  - destruct (k <? max_refinements p).
    + destruct (mark_and_refine_readable p k es) as (st2 & Hm & _ & Hr2);
        [|done|].
      { intros E. rewrite E in Hl1. simpl in Hl1. lia. }
      rewrite Hm in Hit. cbn [rbind] in Hit. by injection Hit as <-.
    + by injection Hit as <-.
Qed.

Lemma records_after_start start k : start < k → records start k = true.
Proof. intros H. apply records_spec. by right. Qed.

(** The loop over consecutive rounds returns. *)
Lemma loop_readable p start (n : nat) :
  ∀ k last st,
    start ≤ k →
    Forall readable (ls_sim_stats st) →
    0 ≤ k <
      Z.of_nat (length (ls_sim_stats st) + (if records start k then 1 else 0)) →
    ∃ last' e st',
      loop p start (range k (k + Z.of_nat n)) last st = Ok (last', e, st')
      ∧ Forall readable (ls_sim_stats st')
      ∧ ((n = 0%nat ∧ last' = last ∧ st' = st)
         ∨ ∃ j, last' = Some j
                ∧ 0 ≤ j < Z.of_nat (length (ls_sim_stats st'))).
Proof.
  induction n as [|n IH]; intros k last st Hs Hr Hk.
  - rewrite range_nil by lia. simpl. exists last, None, st.
    split; [done|]. split; [done|]. by left.
  - rewrite range_cons by lia. cbn [loop].
    destruct (iteration_readable p start k st Hr Hk)
      as (e & st1 & -> & Hr1 & Hl1). cbn [rbind].
    destruct e as [e|].
    + exists (Some k), (Some e), st1. split; [done|]. split; [done|].
      right. exists k. split; [done|]. lia.
    + replace (k + Z.of_nat (S n)) with (k + 1 + Z.of_nat n) by lia.
      destruct (IH (k + 1) (Some k) st1) as (last' & e' & st' & Hloop & Hr' & Hj);
        [lia|done| |].
      { rewrite records_after_start by lia. lia. }
      exists last', e', st'. split; [done|]. split; [done|]. right.
      destruct Hj as [(-> & -> & ->)|Hj]; [|done].
      exists k. split; [done|]. lia.
Qed.

Lemma final_message_readable (last : option Z) (l : list (gmap string StatVal)) :
  Forall readable l →
  (∀ j, last = Some j → 0 ≤ j < Z.of_nat (length l)) →
  final_message last l = Ok tt.
Proof.
  intros Hr Hj. unfold final_message. destruct last as [j|]; [|done].
  destruct (j =? 0); [done|].
  destruct (stats_getitem_readable l j Hr (Hj j eq_refl)) as [[d ->] [o ->]].
  done.
Qed.

Lemma start_iteration_bounds (l : list (gmap string StatVal)) :
  let start := start_iteration l in
  0 ≤ start
  ∧ start < Z.of_nat (length l + (if records start start then 1 else 0)).
Proof.
  cbv zeta. unfold start_iteration, records.
  destruct l as [|r [|r' l]]; simpl length.
  - simpl. lia.
  - simpl. lia.
  - replace (Z.max (Z.of_nat (S (S (length l))) - 1) 0)
      with (Z.of_nat (S (length l))) by lia.
    destruct (Z.eqb_spec (Z.of_nat (S (length l))) 0); [lia|].
    rewrite Z.ltb_irrefl. simpl orb. cbv iota. lia.
Qed.

Lemma AdaptiveSolver_readable p (w0 : MV) (w_history : option (list MV))
    (sim_stats : list (gmap string StatVal)) :
  Forall readable sim_stats →
  ∃ w sim_stats' w_history' trace exit,
    rbind (loop p (start_iteration sim_stats)
             (range (start_iteration sim_stats) (max_refinements p + 1)) None
             {| ls_w := w0; ls_w_history := w_history;
                ls_sim_stats := sim_stats; ls_trace := [] |})
      (λ r, let '(refinement, exit, st) := r in
            rbind (final_message refinement (ls_sim_stats st))
              (λ _, Ok (ls_w st, ls_sim_stats st, ls_w_history st,
                        ls_trace st, exit)))
    = Ok (w, sim_stats', w_history', trace, exit)
    ∧ Forall readable sim_stats'.
Proof.
  intros Hr. set (start := start_iteration sim_stats).
  pose proof (start_iteration_bounds sim_stats) as [Hs0 Hs1]. fold start in Hs0, Hs1.
  set (st0 := {| ls_w := w0; ls_w_history := w_history;
                 ls_sim_stats := sim_stats; ls_trace := [] |}).
  destruct (Z.le_gt_cases (max_refinements p + 1) start) as [Hle|Hgt].
  - rewrite range_nil by done. simpl. by eexists _, _, _, _, _.
  - destruct (loop_readable p start (Z.to_nat (max_refinements p + 1 - start))
                start None st0) as (last' & e & st' & Hloop & Hr' & Hj);
      [lia|done|done|].
    replace (start + Z.of_nat (Z.to_nat (max_refinements p + 1 - start)))
      with (max_refinements p + 1) in Hloop by lia.
    rewrite Hloop. cbn [rbind].
    rewrite final_message_readable; [|done|].
    + cbn [rbind]. by eexists _, _, _, _, _.
    + intros j ->. destruct Hj as [(_ & Hl & _)|(j' & Hl & Hb)]; [done|].
      by injection Hl as <-.
Qed.

(** X18. [AdaptiveSolver] returns for all parameters and every initial
    MultiVector when it is called without statistics and with no or an
    empty history, and when it resumes from statistics whose records all
    have a key "DOFS" and a list under "MI"; the statistics that it
    returns are of that kind again, so that they can be handed to a later
    call.  Without statistics and with a history that is not empty it
    raises [AssertionError]. *)
Theorem AdaptiveSolver_returns_readable_statistics p (w0 : MV)
    (w_history : option (list MV)) :
  (w_history = None ∨ w_history = Some [] →
   ∃ w sim_stats' w_history' trace exit,
     AdaptiveSolver p w0 w_history None
     = Ok (w, sim_stats', w_history', trace, exit)
     ∧ Forall readable sim_stats')
  ∧ (∀ sim_stats,
       Forall readable sim_stats →
       ∃ w sim_stats' w_history' trace exit,
         AdaptiveSolver p w0 w_history (Some sim_stats)
         = Ok (w, sim_stats', w_history', trace, exit)
         ∧ Forall readable sim_stats')
  ∧ (∀ x l,
       w_history = Some (x :: l) →
       AdaptiveSolver p w0 w_history None = Raise AssertionError).
Proof.
  split; [|split].
  - intros Hh.
    destruct (AdaptiveSolver_readable p w0 w_history [] (Forall_nil_2 _))
      as (w & s' & h' & tr & e & Hrun & Hr).
    exists w, s', h', tr, e. split; [|done].
    unfold AdaptiveSolver. by destruct Hh as [-> | ->].
  - intros sim_stats Hr. by apply AdaptiveSolver_readable.
  - by intros x l ->.
Qed.

(** *** The end of a run *)

Lemma exit_checks_in_range p k (l : list (gmap string StatVal)) xi e :
  k ≤ max_refinements p → exit_checks p k l xi = Ok e → e ≠ Some SKIPPING.
Proof.
  intros Hk. unfold exit_checks.
  destruct (Z.ltb_spec (max_refinements p) k); [lia|].
  destruct (stats_getitem l k "DOFS") as [d|]; [|done]. cbn [rbind].
  destruct (val_ge d (max_dof p)); [by intros [= <-]|].
  destruct (Qle_bool xi (error_eps p)); by intros [= <-].
Qed.

Lemma round_events_no_skip p k e j :
  e ≠ Some SKIPPING → InfoSkippingRefinement j ∉ round_events p k e.
Proof.
  intros He. unfold round_events, marking_events.
  destruct e as [[| |]|]; [done| | |].
  - intros H. apply list_elem_of_singleton in H. done.
  - intros H. apply list_elem_of_singleton in H. done.
  - destruct (k <? max_refinements p); [|by intros H; apply elem_of_nil in H].
    destruct (negb (do_uniform_refinement p)); simpl; intros H.
    + apply elem_of_cons in H as [H|H]; [done|].
      apply list_elem_of_singleton in H. done.
    + apply list_elem_of_singleton in H. done.
Qed.

Lemma calls_exit_event (e : Exit) k : calls [exit_event e k] = [].
Proof. by destruct e. Qed.

Lemma sae_w p start k st :
  ls_w (es_state (solve_and_estimate p start k st))
  = (pcg (tuning p) (prepare_rhs (ls_w st)) (ls_w st)).1.1.
Proof.
  unfold solve_and_estimate, pcg_solve.
  destruct (pcg _ _ _) as [[w zeta] numit].
  by destruct (evaluateError _ _ _) as [[[[[[xi ri] pj] mi] ep] er] ts].
Qed.

(** The vector after a round that takes an exit or is the last one. *)
Lemma iteration_w p start k st e st' :
  iteration p start k st = Ok (e, st') →
  is_Some e ∨ max_refinements p ≤ k →
  ls_w st' = (pcg (tuning p) (prepare_rhs (ls_w st)) (ls_w st)).1.1.
Proof.
  intros Hit Hlast. rewrite <- (sae_w p start k st).
  unfold iteration in Hit.
  destruct (exit_checks _ _ _ _) as [[e1|]|err]; cbn [rbind] in Hit; [| |done].
  - by injection Hit as <- <-.
  - destruct (Z.ltb_spec k (max_refinements p)).
    + destruct Hlast as [[? He]|?]; [|lia].
      destruct (mark_and_refine _ _ _); [|done]. cbn [rbind] in Hit.
      injection Hit as <- <-. done.
    + by injection Hit as <- <-.
Qed.

Lemma loop_tail p start (n : nat) :
  ∀ k last st last' e st',
    k + Z.of_nat n = max_refinements p + 1 →
    loop p start (range k (k + Z.of_nat n)) last st = Ok (last', e, st') →
    e ≠ Some SKIPPING
    ∧ ∃ new,
        ls_trace st' = ls_trace st ++ new
        ∧ (∀ j, InfoSkippingRefinement j ∉ new)
        ∧ ((n = 0%nat ∧ new = [] ∧ st' = st ∧ last' = last ∧ e = None)
           ∨ ∃ j pre post w_before,
               new = pre ++ [EvEvaluateError j] ++ post ∧ calls post = []
               ∧ last' = Some j
               ∧ ls_w st'
                 = (pcg (tuning p) (prepare_rhs w_before) w_before).1.1).
Proof.
  induction n as [|n IH]; intros k last st last' e st' Hk Hloop.
  - rewrite range_nil in Hloop by lia. simpl in Hloop.
    injection Hloop as <- <- <-. split; [done|]. exists [].
    rewrite app_nil_r. split; [done|].
    split; [by intros j H; apply elem_of_nil in H|]. by left.
  - rewrite range_cons in Hloop by lia. cbn [loop] in Hloop.
    destruct (iteration p start k st) as [[e1 st1]|err] eqn:Hit; [|done].
    cbn [rbind] in Hloop.
    pose proof (iteration_inv _ _ _ _ _ _ Hit) as (Hchk & _ & _ & Htr).
    cbv zeta in Hchk, Htr. rewrite sae_trace in Htr.
    assert (k ≤ max_refinements p) as Hkm by lia.
    pose proof (exit_checks_in_range _ _ _ _ _ Hkm Hchk) as Hne.
    destruct e1 as [e1|].
    + injection Hloop as <- <- <-. split; [done|].
      exists ([EvPcgSolve k; EvEvaluateError k] ++ round_events p k (Some e1)).
      split; [by rewrite Htr, <- app_assoc|]. split.
      { intros j H. apply elem_of_app in H as [H|H].
        - apply elem_of_cons in H as [H|H]; [done|].
          apply list_elem_of_singleton in H. done.
        - by apply round_events_no_skip in H. }
      right. exists k, [EvPcgSolve k], [exit_event e1 k], (ls_w st).
      split; [done|]. split; [apply calls_exit_event|]. split; [done|].
      apply (iteration_w _ _ _ _ _ _ Hit). left. eauto.
    + replace (k + Z.of_nat (S n)) with (k + 1 + Z.of_nat n) in Hloop by lia.
      assert (k + 1 + Z.of_nat n = max_refinements p + 1) as Hk1 by lia.
      destruct (IH _ _ _ _ _ _ Hk1 Hloop)
        as (He & new & Hnew & Hskip & Hend).
      split; [done|].
      exists (([EvPcgSolve k; EvEvaluateError k] ++ round_events p k None) ++ new).
      split; [by rewrite Hnew, Htr, <- !app_assoc|]. split.
      { intros j H. apply elem_of_app in H as [H|H]; [|by apply Hskip in H].
        apply elem_of_app in H as [H|H].
        - apply elem_of_cons in H as [H|H]; [done|].
          apply list_elem_of_singleton in H. done.
        - by apply round_events_no_skip in H. }
      right.
      destruct Hend as [(-> & -> & -> & -> & ->)
                       |(j & pre & post & wb & -> & Hc & -> & Hw)].
      * exists k, [EvPcgSolve k], [], (ls_w st). rewrite app_nil_r.
        unfold round_events. destruct (Z.ltb_spec k (max_refinements p)); [lia|].
        split; [done|]. split; [done|]. split; [done|].
        apply (iteration_w _ _ _ _ _ _ Hit). right. lia.
      * exists j, (([EvPcgSolve k; EvEvaluateError k] ++ round_events p k None) ++ pre),
               post, wb.
        split; [by rewrite <- !app_assoc|]. done.
Qed.

(** X19. In every call of [AdaptiveSolver] that returns: the exit
    [refinement > max_refinements] is never taken and its message is never
    logged, since the loop ends at [max_refinements]; when a round ran, the
    last call of a collaborator is the error evaluation of the last round
    and the returned [w] is what [pcg] returned in that round: no marking
    and no refinement follows the last solve; and a call that resumes
    beyond [max_refinements] runs no round and returns its arguments. *)
Theorem AdaptiveSolver_never_skips_and_ends_solved p (w0 : MV)
    (w_history : option (list MV))
    (sim_stats : option (list (gmap string StatVal)))
    (w : MV) (sim_stats' : list (gmap string StatVal))
    (w_history' : option (list MV)) (trace : list Event) (exit : option Exit) :
  AdaptiveSolver p w0 w_history sim_stats
  = Ok (w, sim_stats', w_history', trace, exit) →
  exit ≠ Some SKIPPING
  ∧ (∀ j, InfoSkippingRefinement j ∉ trace)
  ∧ (trace = []
     ∨ ∃ j w_before,
         last_call trace = Some (EvEvaluateError j)
         ∧ w = (pcg (tuning p) (prepare_rhs w_before) w_before).1.1)
  ∧ (max_refinements p < start_iteration (default [] sim_stats) →
     trace = [] ∧ w = w0 ∧ sim_stats' = default [] sim_stats
     ∧ w_history' = w_history ∧ exit = None).
Proof.
  intros Hrun. unfold AdaptiveSolver in Hrun.
  assert (∃ l, match sim_stats with
               | None => match w_history with
                         | None | Some [] => Ok []
                         | Some (_ :: _) => Raise AssertionError
                         end
               | Some l => Ok l
               end = Ok l ∧ default [] sim_stats = l) as (l & Hl & Hd).
  { destruct sim_stats as [l|]; [by exists l|].
    destruct w_history as [[|x h]|]; [by exists []|done|by exists []]. }
  rewrite Hl in Hrun. cbn [rbind] in Hrun. rewrite Hd. clear Hl Hd.
  set (start := start_iteration l) in *.
  set (st0 := {| ls_w := w0; ls_w_history := w_history;
                 ls_sim_stats := l; ls_trace := [] |}) in *.
  destruct (loop p start _ None st0) as [[[last' e] st']|err] eqn:Hloop;
    [|done]. cbn [rbind] in Hrun.
  destruct (final_message last' (ls_sim_stats st')) as [[]|err]; [|done].
  cbn [rbind] in Hrun. injection Hrun as <- <- <- <- <-.
  destruct (Z.le_gt_cases (max_refinements p + 1) start) as [Hle|Hgt].
  - rewrite range_nil in Hloop by done. simpl in Hloop.
    injection Hloop as <- <- <-. simpl.
    split; [done|]. split; [by intros j H; apply elem_of_nil in H|].
    split; [by left|]. done.
  - replace (max_refinements p + 1)
      with (start + Z.of_nat (Z.to_nat (max_refinements p + 1 - start)))
      in Hloop by lia.
    assert (start + Z.of_nat (Z.to_nat (max_refinements p + 1 - start))
            = max_refinements p + 1) as Hn by lia.
    destruct (loop_tail _ _ _ _ _ _ _ _ _ Hn Hloop)
      as (He & new & Hnew & Hskip & Hend).
    simpl in Hnew. rewrite Hnew.
    split; [done|]. split; [done|]. split; [|lia].
    destruct Hend as [(Hn0 & _)|(j & pre & post & wb & -> & Hc & _ & Hw)]; [lia|].
    right. exists j, wb. split; [|done]. unfold last_call, calls in *.
    rewrite !filter_app, Hc, app_nil_r.
    rewrite filter_cons_True by done. rewrite filter_nil.
    by rewrite last_snoc.
Qed.

(** *** The statistics of the marking *)

Lemma set_last_snoc key v (l : list (gmap string StatVal)) r :
  set_last key v (l ++ [r]) = Ok (l ++ [<[ key := v ]> r]).
Proof. unfold set_last. by rewrite reverse_snoc, reverse_involutive. Qed.

Lemma set_stats_snoc recorded key v (l : list (gmap string StatVal)) r :
  set_stats recorded key v (l ++ [r])
  = Ok (l ++ [if recorded then <[ key := v ]> r else r]).
Proof. unfold set_stats. destruct recorded; [apply set_last_snoc|done]. Qed.

(** X20. The statistics that the marking of a round writes, without
    uniform refinement.  The values of the projection ("PROJ-MAX-ZETA",
    "PROJ-MAX-INACTIVE-ZETA", "PROJ-INACTIVE-ZETA") are written into the
    last record of [sim_stats]; the counts "MARKING-RES", "MARKING-PROJ",
    "MARKING-MI" and "TIME-MARKING" are written into the dictionary
    [stats] of the round.  In a round that has appended [stats] both are
    the same dictionary and the record holds all seven.  In the first
    round of a resumed run ([refinement = start_iteration >= 1]), which
    appends nothing, the last record of the earlier run gets the three
    values of the projection and keeps its own four counts; every other
    key and every other record is as before. *)
Theorem marking_statistics_reach_the_last_record p start k st
    (l : list (gmap string StatVal)) (r : gmap string StatVal) :
  do_uniform_refinement p = false →
  let es := solve_and_estimate p start k st in
  let '(mesh_markers_R, mesh_markers_P, new_multiindices, proj_zeta,
        new_multiindices_all) :=
    mark (tuning p) (es_resind es) (es_projind es) (es_mierror es)
         (mv_max_order_of (ls_w (es_state es))) (es_xi es) in
  ls_sim_stats (es_state es) = l ++ [r] →
  (records start k = true → r = es_stats es ∧ l = ls_sim_stats st)
  ∧ (records start k = false → l ++ [r] = ls_sim_stats st)
  ∧ ∃ st' r',
      mark_and_refine p k es = Ok st'
      ∧ ls_sim_stats st' = l ++ [r']
      ∧ r' !! "PROJ-MAX-ZETA"%string = Some (VNum proj_zeta.1)
      ∧ r' !! "PROJ-MAX-INACTIVE-ZETA"%string = Some (VNum proj_zeta.2)
      ∧ r' !! "PROJ-INACTIVE-ZETA"%string = Some (VObj new_multiindices_all)
      ∧ (records start k = true →
         r' !! "MARKING-RES"%string
         = Some (VNum (inject_Z (count_marked mesh_markers_R)))
         ∧ r' !! "MARKING-PROJ"%string
           = Some (VNum (inject_Z (count_marked mesh_markers_P)))
         ∧ r' !! "MARKING-MI"%string
           = Some (VNum (inject_Z (Z.of_nat
                           (length (new_indices_keys new_multiindices)))))
         ∧ r' !! "TIME-MARKING"%string = Some (VNum (elapsed_marking k)))
      ∧ (records start k = false →
         r' !! "MARKING-RES"%string = r !! "MARKING-RES"%string
         ∧ r' !! "MARKING-PROJ"%string = r !! "MARKING-PROJ"%string
         ∧ r' !! "MARKING-MI"%string = r !! "MARKING-MI"%string
         ∧ r' !! "TIME-MARKING"%string = r !! "TIME-MARKING"%string)
      ∧ ∀ key,
          key ∉ ["PROJ-MAX-ZETA"; "PROJ-MAX-INACTIVE-ZETA";
                 "PROJ-INACTIVE-ZETA"; "MARKING-RES"; "MARKING-PROJ";
                 "MARKING-MI"; "TIME-MARKING"]%string →
          r' !! key = r !! key.
Proof.
  intros Hu es.
  destruct (mark _ _ _ _ _ _) as [[[[mR mP] nm] pz] nall] eqn:Hmark.
  intros Hss.
  pose proof (sae_sim_stats p start k st) as Hsae. fold es in Hsae.
  pose proof (sae_recorded p start k st) as Hrec. fold es in Hrec.
  split; [|split].
  - intros Htrue. rewrite Htrue, Hss in Hsae.
    apply app_inj_tail in Hsae as [-> ->]. done.
  - intros Hfalse. by rewrite Hfalse, Hss in Hsae.
  - unfold mark_and_refine. rewrite Hu. cbn [negb]. rewrite Hmark.
    rewrite Hss, Hrec. unfold set_stats.
    destruct (records start k).
    + rewrite !set_last_snoc. cbn [rbind]. rewrite !set_last_snoc. cbn [rbind].
      rewrite !set_last_snoc. cbn [rbind]. rewrite !set_last_snoc. cbn [rbind].
      rewrite !set_last_snoc. cbn [rbind]. rewrite !set_last_snoc. cbn [rbind].
      rewrite !set_last_snoc. cbn [rbind].
      eexists _, _. split; [done|]. cbn [ls_sim_stats]. split; [done|].
      split; [by rewrite !lookup_insert_ne, lookup_insert_eq by done|].
      split; [by rewrite !lookup_insert_ne, lookup_insert_eq by done|].
      split; [by rewrite !lookup_insert_ne, lookup_insert_eq by done|].
      split.
      { intros _.
        split; [by rewrite !lookup_insert_ne, lookup_insert_eq by done|].
        split; [by rewrite !lookup_insert_ne, lookup_insert_eq by done|].
        split; [by rewrite !lookup_insert_ne, lookup_insert_eq by done|].
        by rewrite lookup_insert_eq. }
      split; [done|].
      intros key Hkey. rewrite !not_elem_of_cons in Hkey.
      destruct Hkey as (? & ? & ? & ? & ? & ? & ? & _).
      by rewrite !lookup_insert_ne by done.
    + rewrite !set_last_snoc. cbn [rbind]. rewrite !set_last_snoc. cbn [rbind].
      rewrite !set_last_snoc. cbn [rbind].
      eexists _, _. split; [done|]. cbn [ls_sim_stats]. split; [done|].
      split; [by rewrite !lookup_insert_ne, lookup_insert_eq by done|].
      split; [by rewrite !lookup_insert_ne, lookup_insert_eq by done|].
      split; [by rewrite lookup_insert_eq|].
      split; [done|]. split.
      { intros _. by rewrite !lookup_insert_ne by done. }
      intros key Hkey. rewrite !not_elem_of_cons in Hkey.
      destruct Hkey as (? & ? & ? & ? & ? & ? & ? & _).
      by rewrite !lookup_insert_ne by done.
Qed.

End AdaptiveSolverReturns.

(* ===================================================================== *)
(** * [adaptive_solver.py]: the initial vector and the right-hand side *)

Section SetupVectorFacts.
Context `{E : MeshEnv}.
Import solver_setup.

Lemma refine_while_finds (maxh : Q) (n : nat) : ∀ (mesh : FMesh) (fuel : nat),
  (∀ j, j < n → (maxh < hmax (Nat.iter j dolfin_refine mesh))%Q) →
  (hmax (Nat.iter n dolfin_refine mesh) <= maxh)%Q →
  n < fuel →
  refine_while fuel mesh maxh = Some (Nat.iter n dolfin_refine mesh).
Proof.
  induction n as [|n IH]; intros mesh fuel Hlt Hle Hf.
  - destruct fuel as [|fuel]; [lia|]. simpl in *.
    apply Qle_bool_iff in Hle. by rewrite Hle.
  - destruct fuel as [|fuel]; [lia|]. cbn [refine_while].
    assert (Qle_bool (hmax mesh) maxh = false) as ->.
    { apply not_true_is_false. intros Hb. apply Qle_bool_iff in Hb.
      specialize (Hlt 0 ltac:(lia)). simpl in Hlt.
      apply (Qlt_not_le _ _ Hlt Hb). }
    cbn [negb]. rewrite (IH (dolfin_refine mesh) fuel).
    + by rewrite <- Nat.iter_succ_r.
    + intros j Hj. rewrite <- Nat.iter_succ_r. apply Hlt. lia.
    + by rewrite <- Nat.iter_succ_r.
    + lia.
Qed.

Lemma refine_while_never (maxh : Q) (fuel : nat) : ∀ mesh : FMesh,
  (∀ j, (maxh < hmax (Nat.iter j dolfin_refine mesh))%Q) →
  refine_while fuel mesh maxh = None.
Proof.
  induction fuel as [|fuel IH]; intros mesh Hlt; [done|].
  cbn [refine_while].
  assert (Qle_bool (hmax mesh) maxh = false) as ->.
  { apply not_true_is_false. intros Hb. apply Qle_bool_iff in Hb.
    apply (Qlt_not_le _ _ (Hlt 0) Hb). }
  cbn [negb]. apply IH. intros j. rewrite <- Nat.iter_succ_r. apply Hlt.
Qed.

(** X21. [setup_vector(mesh, pde, degree, maxh)] builds the vector on the
    first of the meshes [mesh, refine(mesh), refine(refine(mesh)), ...]
    whose [hmax()] is at most [maxh], whatever bound on the rounds is large
    enough; without [maxh] it builds it on [mesh] itself; and when no
    refinement brings [hmax()] down to [maxh], the loop does not end for any
    bound on its rounds. *)
Theorem setup_vector_refines_until_fine (mesh : FMesh) (degree : Z) (maxh : Q) :
  (∀ fuel,
     setup_vector fuel mesh degree None
     = Some (new_vector (function_space mesh degree)))
  ∧ (∀ n,
       (∀ j, j < n → (maxh < hmax (Nat.iter j dolfin_refine mesh))%Q) →
       (hmax (Nat.iter n dolfin_refine mesh) <= maxh)%Q →
       ∀ fuel, n < fuel →
         setup_vector fuel mesh degree (Some maxh)
         = Some (new_vector
                   (function_space (Nat.iter n dolfin_refine mesh) degree)))
  ∧ ((∀ j, (maxh < hmax (Nat.iter j dolfin_refine mesh))%Q) →
     ∀ fuel, setup_vector fuel mesh degree (Some maxh) = None).
Proof.
  split; [done|]. split.
  - intros n Hlt Hle fuel Hf. unfold setup_vector.
    by rewrite (refine_while_finds maxh n mesh fuel Hlt Hle Hf).
  - intros Hlt fuel. unfold setup_vector.
    by rewrite (refine_while_never maxh fuel mesh Hlt).
Qed.

End SetupVectorFacts.

(** The unit interval with cells of width 1, and [maxh = 1/4]: two
    refinements. *)
Lemma setup_vector_refines_until_fine_witness :
  solver_setup.setup_vector (E := Mesh1D.env) 5 1%Q 1 (Some (1 # 4)%Q)
  = Some ((1 # 4)%Q, 1%Z).
Proof.
  apply (proj1 (proj2 (setup_vector_refines_until_fine (E := Mesh1D.env)
                         1%Q 1 (1 # 4)%Q)) 2).
  - intros j Hj. assert (j = 0 ∨ j = 1) as [-> | ->] by lia; reflexivity.
  - intros E. discriminate E.
  - lia.
Defined.

Section PrepareRhsFacts.
Context `{R : RhsEnv}.
Import solver_setup.
Local Open Scope py_scope.

Lemma getitem_run (s : Store) b V mu y :
  heap s !! b = Some V → V !! mu = Some y → mv_getitem b mu s = Ok (y, s).
Proof.
  intros Hb Hm. unfold mv_getitem, bind, deref. rewrite Hb. by rewrite Hm.
Qed.

Lemma getitem_missing (s : Store) b V mu :
  heap s !! b = Some V → V !! mu = None → mv_getitem b mu s = Raise KeyError.
Proof.
  intros Hb Hm. unfold mv_getitem, bind, deref. rewrite Hb. by rewrite Hm.
Qed.

Lemma with_object_lookup (s : Store) b V : heap (with_object s b V) !! b = Some V.
Proof. apply lookup_insert_eq. Qed.

Lemma setitem_run (s : Store) b V mu y :
  mv_setitem b mu y (with_object s b V) = Ok (tt, with_object s b (<[ mu := y ]> V)).
Proof.
  unfold mv_setitem. rewrite with_object_lookup. unfold with_object. cbn [heap log].
  by rewrite insert_insert_eq.
Qed.

Lemma inc_zero_ne_zero (m : nat) :
  Multiindex.inc Multiindex.zero m ≠ Multiindex.zero.
Proof. apply MultiindexFacts.inc_ne. Qed.

Lemma inc_zero_inj (m k : nat) :
  Multiindex.inc Multiindex.zero m = Multiindex.inc Multiindex.zero k → m = k.
Proof.
  intros Heq. destruct (decide (m = k)) as [|Hne]; [done|].
  pose proof (MultiindexFacts.getitem_inc_eq Multiindex.zero m) as H1.
  rewrite Heq, MultiindexFacts.getitem_inc_ne, MultiindexFacts.getitem_zero in H1
    by done.
  discriminate H1.
Qed.

Lemma rhs_round_zero cf zf (V : gmap Multiindex.t Vec) m :
  is_Some (V !! Multiindex.zero) → is_Some (rhs_round cf zf V m !! Multiindex.zero).
Proof.
  intros Hz. unfold rhs_round.
  destruct (cf_terms cf !! m) as [[am_f am_rv]|]; [|done]. cbv zeta.
  set (V1 := match V !! Multiindex.inc Multiindex.zero m with
             | Some y => _ | None => V end).
  assert (is_Some (V1 !! Multiindex.zero)) as [y Hy].
  { unfold V1. destruct (V !! Multiindex.inc Multiindex.zero m); [|done].
    rewrite lookup_insert_ne by apply inc_zero_ne_zero. done. }
  rewrite Hy. rewrite lookup_insert_eq. done.
Qed.

Lemma rhs_round_other cf zf (V : gmap Multiindex.t Vec) m mu :
  mu ≠ Multiindex.zero → mu ≠ Multiindex.inc Multiindex.zero m →
  rhs_round cf zf V m !! mu = V !! mu.
Proof.
  intros Hz Hm. unfold rhs_round.
  destruct (cf_terms cf !! m) as [[am_f am_rv]|]; [|done]. cbv zeta.
  set (V1 := match V !! Multiindex.inc Multiindex.zero m with
             | Some y => _ | None => V end).
  assert (V1 !! mu = V !! mu) as H1.
  { unfold V1. destruct (V !! Multiindex.inc Multiindex.zero m); [|done].
    by rewrite lookup_insert_ne. }
  destruct (V1 !! Multiindex.zero); [|done].
  by rewrite lookup_insert_ne.
Qed.

Lemma rhs_round_eps cf zf (V : gmap Multiindex.t Vec) m am_f am_rv :
  cf_terms cf !! m = Some (am_f, am_rv) →
  rhs_round cf zf V m !! Multiindex.inc Multiindex.zero m
  = (λ y, vadd y (rhs_term y am_f false zf (get_beta am_rv 0).1.2))
      <$> V !! Multiindex.inc Multiindex.zero m.
Proof.
  intros Ht. unfold rhs_round. rewrite Ht. cbv zeta.
  set (V1 := match V !! Multiindex.inc Multiindex.zero m with
             | Some y => _ | None => V end).
  assert (V1 !! Multiindex.inc Multiindex.zero m
          = (λ y, vadd y (rhs_term y am_f false zf (get_beta am_rv 0).1.2))
              <$> V !! Multiindex.inc Multiindex.zero m) as H1.
  { unfold V1. destruct (V !! Multiindex.inc Multiindex.zero m) eqn:Hl.
    - by rewrite lookup_insert_eq.
    - by rewrite Hl. }
  destruct (V1 !! Multiindex.zero); [|done].
  rewrite lookup_insert_ne; [done|]. intros Heq. by apply (inc_zero_ne_zero m).
Qed.

Lemma rhs_round_at_zero cf zf (V : gmap Multiindex.t Vec) m am_f am_rv y :
  cf_terms cf !! m = Some (am_f, am_rv) → V !! Multiindex.zero = Some y →
  rhs_round cf zf V m !! Multiindex.zero
  = Some (vadd y (rhs_term y am_f true zf (get_beta am_rv 0).1.1)).
Proof.
  intros Ht Hy. unfold rhs_round. rewrite Ht. cbv zeta.
  set (V1 := match V !! Multiindex.inc Multiindex.zero m with
             | Some y => _ | None => V end).
  assert (V1 !! Multiindex.zero = Some y) as H1.
  { unfold V1. destruct (V !! Multiindex.inc Multiindex.zero m); [|done].
    rewrite lookup_insert_ne by apply inc_zero_ne_zero. done. }
  rewrite H1. by rewrite lookup_insert_eq.
Qed.

Lemma rhs_round_dom cf zf (V : gmap Multiindex.t Vec) m :
  dom (rhs_round cf zf V m) = dom V.
Proof.
  unfold rhs_round.
  destruct (cf_terms cf !! m) as [[am_f am_rv]|]; [|done]. cbv zeta.
  set (V1 := match V !! Multiindex.inc Multiindex.zero m with
             | Some y => _ | None => V end).
  assert (dom V1 = dom V) as H1.
  { unfold V1. destruct (V !! Multiindex.inc Multiindex.zero m) eqn:Hl; [|done].
    rewrite dom_insert_L. apply elem_of_dom_2 in Hl. set_solver. }
  destruct (V1 !! Multiindex.zero) eqn:Hl; [|done].
  rewrite dom_insert_L. apply elem_of_dom_2 in Hl. set_solver.
Qed.

Lemma bind_ok {A C} (c : M A) (k : A → M C) (s : Store) a s' :
  c s = Ok (a, s') → bind c k s = k a s'.
Proof. intros H. unfold bind. by rewrite H. Qed.

Lemma bind_assoc {A C D} (c : M A) (k1 : A → M C) (k2 : C → M D) (s : Store) :
  bind (bind c k1) k2 s = bind c (λ a, bind (k1 a) k2) s.
Proof. unfold bind. by destruct (c s) as [[a s']|]. Qed.

Lemma active_run (s : Store) b V :
  heap s !! b = Some V → mv_active_indices b s = Ok (active_indices V, s).
Proof. intros Hb. unfold mv_active_indices, bind, deref. by rewrite Hb. Qed.

(** One round of the loop, in a store where [b] has the dictionary [V]. *)
Lemma round_run (s : Store) b cf zf (V : gmap Multiindex.t Vec) m t :
  is_Some (V !! Multiindex.zero) → cf_terms cf !! m = Some t →
  prepare_rhs_round b cf Multiindex.zero zf m (with_object s b V)
  = Ok (tt, with_object s b (rhs_round cf zf V m)).
Proof.
  intros [y0 Hz] Ht. unfold prepare_rhs_round, rhs_round. cbv zeta.
  unfold cf_getitem. rewrite Ht. destruct t as [am_f am_rv].
  rewrite (bind_ok (ret (am_f, am_rv)) _ _ _ _ eq_refl).
  destruct (get_beta am_rv 0) as [[beta0 beta1] beta_1] eqn:Hbeta.
  cbn [fst snd].
  rewrite (bind_ok _ _ _ _ _ (active_run _ b V (with_object_lookup _ _ _))).
  destruct (V !! Multiindex.inc Multiindex.zero m) as [y|] eqn:Hy.
  - rewrite bool_decide_eq_true_2
      by (apply elem_of_active_indices; eauto).
    repeat first
      [ rewrite bind_assoc
      | rewrite (bind_ok _ _ _ _ _
                   (getitem_run _ b V _ y (with_object_lookup _ _ _) Hy)) ].
    rewrite (bind_ok _ _ _ _ _ (setitem_run _ _ _ _ _)).
    set (V1 := <[ Multiindex.inc Multiindex.zero m := _ ]> V).
    assert (V1 !! Multiindex.zero = Some y0) as Hz1.
    { unfold V1. rewrite lookup_insert_ne by apply inc_zero_ne_zero. done. }
    do 3 rewrite (bind_ok _ _ _ _ _
                    (getitem_run _ b V1 _ y0 (with_object_lookup _ _ _) Hz1)).
    rewrite setitem_run. rewrite Hz1. done.
  - rewrite bool_decide_eq_false_2.
    2: { intros Hin. apply elem_of_active_indices in Hin as [x Hx]. congruence. }
    rewrite (bind_ok (ret tt) _ _ _ _ eq_refl).
    do 3 rewrite (bind_ok _ _ _ _ _
                    (getitem_run _ b V _ y0 (with_object_lookup _ _ _) Hz)).
    rewrite setitem_run. rewrite Hz. done.
Qed.

Lemma round_short (s : Store) b cf zf m :
  cf_terms cf !! m = None →
  prepare_rhs_round b cf Multiindex.zero zf m s = Raise IndexError.
Proof.
  intros Ht. unfold prepare_rhs_round. cbv zeta. unfold cf_getitem. by rewrite Ht.
Qed.

Lemma loop_run (s : Store) b cf zf (ms : list nat) : ∀ V : gmap Multiindex.t Vec,
  is_Some (V !! Multiindex.zero) →
  (∀ m, m ∈ ms → is_Some (cf_terms cf !! m)) →
  for_each ms (prepare_rhs_round b cf Multiindex.zero zf) (with_object s b V)
  = Ok (tt, with_object s b (foldl (rhs_round cf zf) V ms)).
Proof.
  induction ms as [|m ms IH]; intros V Hz Hms; [done|].
  destruct (Hms m ltac:(left)) as [t Ht].
  unfold for_each. cbn [for_fold]. unfold bind at 1.
  rewrite (round_run s b cf zf V m t Hz Ht). cbn [foldl].
  apply IH.
  - by apply rhs_round_zero.
  - intros k Hk. apply Hms. by right.
Qed.

Lemma loop_short (s : Store) b cf zf (ms : list nat) m (ms' : list nat) :
  ∀ V : gmap Multiindex.t Vec,
  is_Some (V !! Multiindex.zero) →
  (∀ k, k ∈ ms → is_Some (cf_terms cf !! k)) →
  cf_terms cf !! m = None →
  for_each (ms ++ m :: ms') (prepare_rhs_round b cf Multiindex.zero zf)
    (with_object s b V)
  = Raise IndexError.
Proof.
  induction ms as [|k ms IH]; intros V Hz Hms Hm.
  - unfold for_each. cbn [app for_fold]. unfold bind at 1.
    by rewrite round_short.
  - destruct (Hms k ltac:(left)) as [t Ht].
    unfold for_each. cbn [app for_fold]. unfold bind at 1.
    rewrite (round_run s b cf zf V k t Hz Ht).
    apply IH; [by apply rhs_round_zero| |done].
    intros j Hj. apply Hms. by right.
Qed.

Lemma rounds_dom cf zf (ms : list nat) : ∀ V : gmap Multiindex.t Vec,
  dom (foldl (rhs_round cf zf) V ms) = dom V.
Proof.
  induction ms as [|m ms IH]; intros V; [done|].
  cbn [foldl]. rewrite IH. apply rhs_round_dom.
Qed.

Lemma rounds_other cf zf (ms : list nat) mu : ∀ V : gmap Multiindex.t Vec,
  mu ≠ Multiindex.zero →
  (∀ m, m ∈ ms → mu ≠ Multiindex.inc Multiindex.zero m) →
  foldl (rhs_round cf zf) V ms !! mu = V !! mu.
Proof.
  induction ms as [|m ms IH]; intros V Hz Hms; [done|].
  cbn [foldl]. rewrite IH; [|done|].
  - apply rhs_round_other; [done|]. apply Hms. by left.
  - intros k Hk. apply Hms. by right.
Qed.

Lemma rounds_eps cf zf (ms : list nat) m am_f am_rv :
  ∀ V : gmap Multiindex.t Vec,
  NoDup ms → m ∈ ms → cf_terms cf !! m = Some (am_f, am_rv) →
  foldl (rhs_round cf zf) V ms !! Multiindex.inc Multiindex.zero m
  = (λ y, vadd y (rhs_term y am_f false zf (get_beta am_rv 0).1.2))
      <$> V !! Multiindex.inc Multiindex.zero m.
Proof.
  induction ms as [|k ms IH]; intros V Hnd Hin Ht.
  - by apply elem_of_nil in Hin.
  - apply NoDup_cons in Hnd as [Hk Hnd]. cbn [foldl].
    destruct (decide (m = k)) as [->|Hne].
    + rewrite rounds_other.
      * by apply rhs_round_eps.
      * apply inc_zero_ne_zero.
      * intros j Hj Heq. apply inc_zero_inj in Heq. by subst.
    + apply elem_of_cons in Hin as [?|Hin]; [done|].
      rewrite (IH _ Hnd Hin Ht).
      rewrite rhs_round_other; [done|apply inc_zero_ne_zero|].
      intros Heq. by apply inc_zero_inj in Heq.
Qed.

Lemma rounds_zero cf zf (ms : list nat) : ∀ (V : gmap Multiindex.t Vec) y,
  V !! Multiindex.zero = Some y →
  (∀ m, m ∈ ms → is_Some (cf_terms cf !! m)) →
  foldl (rhs_round cf zf) V ms !! Multiindex.zero
  = Some (rhs_zero_after cf zf y ms).
Proof.
  induction ms as [|m ms IH]; intros V y Hy Hms; [done|].
  destruct (Hms m ltac:(left)) as [[am_f am_rv] Ht].
  cbn [foldl]. unfold rhs_zero_after. cbn [foldl]. rewrite Ht.
  apply IH.
  - by apply rhs_round_at_zero.
  - intros k Hk. apply Hms. by right.
Qed.

(** An active multi-index with one degree 1, in dimension [m], puts
    [max_order] above [m]. *)
Lemma unit_index_below_max_order (W : gmap Multiindex.t Vec) m x :
  W !! Multiindex.inc Multiindex.zero m = Some x → m < max_order W.
Proof.
  intros Hx. unfold max_order.
  assert (Multiindex.len (Multiindex.inc Multiindex.zero m) = S m) as Hl.
  { unfold Multiindex.len, Multiindex.inc, Multiindex.zero.
    rewrite insert_empty, map_to_list_singleton. simpl. lia. }
  assert (S m ≤ max_list (Multiindex.len <$> active_indices W)); [|lia].
  apply max_list_elem_of_le. rewrite <- Hl.
  apply list_elem_of_fmap_2. apply elem_of_active_indices. eauto.
Qed.

Lemma rmul_run (s : Store) c w W :
  heap s !! w = Some W →
  mv_rmul c w s = Ok (fresh (dom (heap s)),
                      with_object s (fresh (dom (heap s))) (vscale c <$> W)).
Proof. intros Hw. unfold mv_rmul. by rewrite Hw. Qed.

Lemma max_order_run (s : Store) w W :
  heap s !! w = Some W → mv_max_order w s = Ok (max_order W, s).
Proof. intros Hw. unfold mv_max_order, bind, deref. by rewrite Hw. Qed.

(** The run of [prepare_rhs] up to its loop. *)
Lemma prepare_rhs_unfold (s : Store) w cf W x0 :
  heap s !! w = Some W → W !! Multiindex.zero = Some x0 →
  let b := fresh (dom (heap s)) in
  let V0 := <[ Multiindex.zero := rhs_mean cf x0 ]> (vscale int_zero <$> W) in
  prepare_rhs w cf s
  = bind (for_each (seq 0 (max_order W))
            (prepare_rhs_round b cf Multiindex.zero
               (zero_function (vec_basis (rhs_mean cf x0)))))
         (λ _, ret b) (with_object s b V0).
Proof.
  intros Hw Hz b V0. unfold prepare_rhs. cbv zeta.
  rewrite (bind_ok _ _ _ _ _ (rmul_run s int_zero w W Hw)). fold b.
  assert ((vscale int_zero <$> W) !! Multiindex.zero
          = Some (vscale int_zero x0)) as Hz0
    by (by rewrite lookup_fmap, Hz).
  do 2 rewrite (bind_ok _ _ _ _ _
                  (getitem_run _ b _ _ _ (with_object_lookup _ _ _) Hz0)).
  rewrite (bind_ok _ _ _ _ _ (setitem_run _ _ _ _ _)).
  fold (rhs_mean cf x0). fold V0.
  assert (V0 !! Multiindex.zero = Some (rhs_mean cf x0)) as Hz1
    by apply lookup_insert_eq.
  rewrite (bind_ok _ _ _ _ _
             (getitem_run _ b _ _ _ (with_object_lookup _ _ _) Hz1)).
  assert (heap (with_object s b V0) !! w = Some W) as Hw1.
  { unfold with_object. cbn [heap]. rewrite lookup_insert_ne; [done|].
    by apply fresh_loc_ne with W. }
  rewrite (bind_ok _ _ _ _ _ (max_order_run _ w W Hw1)).
  done.
Qed.

(** X22. [prepare_rhs(A, w, coeff_field, pde)] on an allocated MultiVector
    [w]: without the zero multi-index in [w] it raises [KeyError]; with a
    coefficient field that has fewer terms than [w.max_order] it raises
    [IndexError]; otherwise it returns a new MultiVector [b] on the
    multi-indices of [w], leaves every other object and the log as they
    were, and
    - [b[0]] is the assembled right-hand side of the mean, to which each
      round [m < w.max_order] has added [beta_m[0]] times the right-hand
      side of [a_m] on the basis of [b[0]];
    - [b[eps_m]], for an active unit multi-index [eps_m], is [0 * w[eps_m]]
      plus [beta_m[1]] times the right-hand side of [a_m], without the
      Neumann term, on its basis;
    - every other component is [0 * w[mu]]. *)
Theorem prepare_rhs_components (cf : CoefficientField) (w : loc) (s : Store)
    (W : gmap Multiindex.t Vec) :
  heap s !! w = Some W →
  (W !! Multiindex.zero = None → prepare_rhs w cf s = Raise KeyError)
  ∧ ∀ x0,
      W !! Multiindex.zero = Some x0 →
      (cf_len cf < max_order W → prepare_rhs w cf s = Raise IndexError)
      ∧ (max_order W ≤ cf_len cf →
         ∃ b s' V,
           prepare_rhs w cf s = Ok (b, s')
           ∧ b ≠ w ∧ heap s !! b = None
           ∧ heap s' = <[ b := V ]> (heap s) ∧ log s' = log s
           ∧ dom V = dom W
           ∧ let zero_func := zero_function (vec_basis (rhs_mean cf x0)) in
             V !! Multiindex.zero
             = Some (rhs_zero_after cf zero_func (rhs_mean cf x0)
                       (seq 0 (max_order W)))
             ∧ (∀ m x,
                  W !! Multiindex.inc Multiindex.zero m = Some x →
                  ∃ am_f am_rv,
                    cf_terms cf !! m = Some (am_f, am_rv)
                    ∧ V !! Multiindex.inc Multiindex.zero m
                      = Some (vadd (vscale int_zero x)
                                (rhs_term (vscale int_zero x) am_f false
                                   zero_func (get_beta am_rv 0).1.2)))
             ∧ (∀ mu x,
                  W !! mu = Some x → mu ≠ Multiindex.zero →
                  (∀ m, mu ≠ Multiindex.inc Multiindex.zero m) →
                  V !! mu = Some (vscale int_zero x))).
Proof.
  intros Hw. split.
  - intros Hz. unfold prepare_rhs. cbv zeta.
    rewrite (bind_ok _ _ _ _ _ (rmul_run s int_zero w W Hw)).
    unfold bind at 1.
    rewrite (getitem_missing _ _ (vscale int_zero <$> W) _
               (with_object_lookup _ _ _)); [done|].
    by rewrite lookup_fmap, Hz.
  - intros x0 Hz.
    pose proof (prepare_rhs_unfold s w cf W x0 Hw Hz) as Hrun.
    cbv zeta in Hrun. rewrite Hrun. clear Hrun.
    set (b := fresh (dom (heap s))).
    set (V0 := <[ Multiindex.zero := rhs_mean cf x0 ]> (vscale int_zero <$> W)).
    set (zf := zero_function (vec_basis (rhs_mean cf x0))).
    assert (V0 !! Multiindex.zero = Some (rhs_mean cf x0)) as Hz0
      by apply lookup_insert_eq.
    split.
    + intros Hshort.
      replace (max_order W)
        with (cf_len cf + S (max_order W - cf_len cf - 1)) by lia.
      rewrite seq_app. cbn [seq]. unfold bind at 1.
      rewrite loop_short; [done|eauto| |].
      * intros k Hk. apply elem_of_seq in Hk. apply lookup_lt_is_Some.
        unfold cf_len in *. lia.
      * apply lookup_ge_None. unfold cf_len. simpl. lia.
    + intros Hlen.
      assert (∀ m, m ∈ seq 0 (max_order W) → is_Some (cf_terms cf !! m)) as Hall.
      { intros k Hk. apply elem_of_seq in Hk. apply lookup_lt_is_Some.
        unfold cf_len in *. lia. }
      unfold bind at 1. rewrite loop_run; [|eauto|done].
      exists b, (with_object s b (foldl (rhs_round cf zf) V0 (seq 0 (max_order W)))),
        (foldl (rhs_round cf zf) V0 (seq 0 (max_order W))).
      split; [done|]. split; [by apply fresh_loc_ne with W|].
      split; [apply fresh_loc_lookup|]. split; [done|]. split; [done|].
      split.
      { rewrite rounds_dom. unfold V0. rewrite dom_insert_L, dom_fmap_L.
        apply elem_of_dom_2 in Hz. set_solver. }
      cbv zeta. fold zf. split; [by apply rounds_zero|]. split.
      * intros m x Hx.
        pose proof (unit_index_below_max_order W m x Hx) as Hm.
        destruct (Hall m) as [[am_f am_rv] Ht]; [apply elem_of_seq; lia|].
        exists am_f, am_rv. split; [done|].
        rewrite (rounds_eps cf zf _ m am_f am_rv);
          [|apply NoDup_seq|apply elem_of_seq; lia|done].
        unfold V0. rewrite lookup_insert_ne.
        2: { intros Heq. by apply (inc_zero_ne_zero m). }
        by rewrite lookup_fmap, Hx.
      * intros mu x Hx Hne Hunit.
        rewrite rounds_other by (done || (intros; apply Hunit)).
        unfold V0. rewrite lookup_insert_ne by done.
        by rewrite lookup_fmap, Hx.
Qed.

End PrepareRhsFacts.

(** The right-hand side for the MultiVector with the components [(0)] and
    [(1)] and the coefficient field with one term. *)
Lemma prepare_rhs_components_witness :
  ∃ b s' V,
    solver_setup.prepare_rhs (R := Rhs1D.env) 0 Scalar1D.cf1
      (Scalar1D.store_of Scalar1D.W2) = Ok (b, s')
    ∧ b ≠ 0
    ∧ heap s' = <[ b := V ]> (heap (Scalar1D.store_of Scalar1D.W2))
    ∧ dom V = dom Scalar1D.W2.
Proof.
  destruct (proj2 (prepare_rhs_components (R := Rhs1D.env) Scalar1D.cf1 0
                     (Scalar1D.store_of Scalar1D.W2) Scalar1D.W2 eq_refl)
              5%Z eq_refl) as [_ H].
  destruct (H ltac:(vm_compute; lia))
    as (b & s' & V & H1 & H2 & _ & H3 & _ & H4 & _).
  by exists b, s', V.
Defined.

(* ===================================================================== *)
(** * Examples *)

(** The expansion [1 + 2 P_1 + 3 P_2] in Legendre polynomials at [1/2]. *)
Lemma eval_forsythe_witness :
  ∃ p q,
    polyquad.compute_poly (polyquad.total _polynomials.rc_legendre) 2 (1 # 2)
    = Ok p
    ∧ polyquad.eval_forsythe (polyquad.total _polynomials.rc_legendre)
        [1; 2; 3]%Q (1 # 2) = Ok q
    ∧ (q == polyquad.expansion [1; 2; 3] p)%Q.
Proof.
  apply (proj1 (eval_forsythe_is_the_expansion _polynomials.rc_legendre
                  [1; 2; 3]%Q (1 # 2))).
  discriminate.
Defined.




(** The stochastic Hermite polynomials up to the degree 3 at [1/2] and at
    [-1/2]. *)
Lemma zero_a_gives_parity_witness :
  ∃ p p',
    polyquad.compute_poly (polyquad.total _polynomials.rc_stoch_hermite) 3
      (- (1 # 2)) = Ok p
    ∧ polyquad.compute_poly (polyquad.total _polynomials.rc_stoch_hermite) 3
        (1 # 2) = Ok p'
    ∧ length p = length p'.
Proof.
  destruct (zero_a_gives_parity _polynomials.rc_stoch_hermite 3 (1 # 2))
    as (p & p' & H1 & H2 & H3 & _).
  - intros i. reflexivity.
  - exists p, p'. exact (conj H1 (conj H2 H3)).
Defined.






(** A first call on the one-dimensional environment. *)
Lemma AdaptiveSolver_returns_readable_statistics_witness :
  ∃ w sim_stats' w_history' trace exit,
    adaptive_solver.AdaptiveSolver (Solver1D.params 0%Q 4 1000%Q) 4%Z None None
    = Ok (w, sim_stats', w_history', trace, exit)
    ∧ Forall readable sim_stats'.
Proof.
  apply (proj1 (AdaptiveSolver_returns_readable_statistics
                  (Solver1D.params 0%Q 4 1000%Q) 4%Z None)).
  left. reflexivity.
Defined.

Lemma AdaptiveSolver_never_skips_and_ends_solved_witness :
  ∃ w sim_stats' w_history' trace exit,
    adaptive_solver.AdaptiveSolver (Solver1D.params 0%Q 4 1000%Q)
      Solver1D.earlier_w (Some Solver1D.earlier_history)
      (Some Solver1D.earlier_stats)
    = Ok (w, sim_stats', w_history', trace, exit)
    ∧ exit ≠ Some adaptive_solver.SKIPPING
    ∧ ∀ j, adaptive_solver.InfoSkippingRefinement j ∉ trace.
Proof.
  destruct (adaptive_solver.AdaptiveSolver (Solver1D.params 0%Q 4 1000%Q)
              Solver1D.earlier_w (Some Solver1D.earlier_history)
              (Some Solver1D.earlier_stats))
    as [[[[[w sim_stats'] hh] trace] exit]|err] eqn:Hrun.
  - destruct (AdaptiveSolver_never_skips_and_ends_solved _ _ _ _ _ _ _ _ _ Hrun)
      as (H1 & H2 & _).
    exists w, sim_stats', hh, trace, exit. split; [reflexivity|].
    exact (conj H1 H2).
  - assert (is_ok (adaptive_solver.AdaptiveSolver (Solver1D.params 0%Q 4 1000%Q)
                     Solver1D.earlier_w (Some Solver1D.earlier_history)
                     (Some Solver1D.earlier_stats)) = true) as Hok
      by (vm_compute; reflexivity).
    rewrite Hrun in Hok. discriminate Hok.
Defined.

(** The first round of a resumed run, which writes no record of its own: the
    marking statistics of the last earlier record stay as they were. *)
Lemma marking_statistics_reach_the_last_record_witness :
  ∃ st' r',
    adaptive_solver.mark_and_refine (Solver1D.params 0%Q 4 1000%Q) 2
      (adaptive_solver.solve_and_estimate (Solver1D.params 0%Q 4 1000%Q) 2 2
         resumed_state) = Ok st'
    ∧ adaptive_solver.ls_sim_stats st'
      = [ {[ "DOFS"%string := inl 4%Q ]}; {[ "DOFS"%string := inl 8%Q ]} ]
        ++ [r']
    ∧ r' !! "PROJ-MAX-ZETA"%string = Some (adaptive_solver.VNum 0)
    ∧ r' !! "MARKING-RES"%string = None
    ∧ r' !! "DOFS"%string = Some (adaptive_solver.VNum 16).
Proof.
  pose proof (marking_statistics_reach_the_last_record
                (Solver1D.params 0%Q 4 1000%Q) 2 2 resumed_state
                [ {[ "DOFS"%string := inl 4%Q ]}; {[ "DOFS"%string := inl 8%Q ]} ]
                {[ "DOFS"%string := inl 16%Q; "MI"%string := inr tt ]}
                eq_refl) as H.
  lazy beta iota zeta delta [mark Solver1D.env] in H.
  destruct (H eq_refl) as (_ & _ & st' & r' & H1 & H2 & H3 & _ & _ & _ & H4 & H5).
  exists st', r'. split; [exact H1|]. split; [exact H2|]. split; [exact H3|].
  split.
  - etransitivity; [exact (proj1 (H4 eq_refl))|reflexivity].
  - etransitivity; [apply H5|reflexivity]. intros E.
    repeat (apply elem_of_cons in E as [E|E]; [discriminate E|]).
    inversion E.
Defined.
